(** * Stream proxy and player: a shallow embedding

    The development follows the TypeScript sources of the repository:

    - [JS]            the string and number primitives of the language that
                      the sources call (split, trim, includes, replace, ...);
    - [ManifestProxy] api/m3u8-proxy.ts: playlist classification and rewriting;
    - [UrlEncryption] src/lib/urlEncryption.ts;
    - [ParseM3U]      api/parse-m3u.ts;
    - [VideoPlayer]   src/components/VideoPlayer.tsx: time statistics, seeking,
                      initialisation and error handling of the player;
    - [EventPlayer]   src/pages/EventPlayer.tsx: the failover cursor.

    A string is the list of the bytes of its UTF-8 encoding ([str]); the
    sources only ever search for, split on and compare with ASCII text, so
    the byte view and the code-unit view of JavaScript agree on every test
    made here.  Where a primitive looks at non-ASCII characters (white
    space, case mapping) the byte sequences of those characters are spelled
    out.  *)

From Stdlib Require Import Ascii String List ZArith NArith QArith Bool Lia Lqa.
From Stdlib Require Import DecimalString Qround Qpower.
From Stdlib Require SpecFloat.
From Stdlib Require DecimalNat DecimalFacts.
Import ListNotations.

Local Open Scope list_scope.

(* ================================================================== *)
(** ** Language primitives *)
(* ================================================================== *)

Module JS.

Definition str := list ascii.

(** String literals. *)
Definition L (s : string) : str := list_ascii_of_string s.
Arguments L s%_string.

Definition code (c : ascii) : N := N_of_ascii c.
Definition chr (n : N) : ascii := ascii_of_N n.

Fixpoint streq (a b : str) : bool :=
  match a, b with
  | [], [] => true
  | x :: a', y :: b' => Ascii.eqb x y && streq a' b'
  | _, _ => false
  end.

(** [!s] on a string: only the empty string is falsy. *)
Definition isEmpty (s : str) : bool :=
  match s with [] => true | _ :: _ => false end.

(** [s.startsWith(p)] *)
Fixpoint startsWith (s p : str) {struct p} : bool :=
  match p, s with
  | [], _ => true
  | _ :: _, [] => false
  | b :: p', a :: s' => Ascii.eqb a b && startsWith s' p'
  end.

(** [s.includes(p)] *)
Fixpoint includes (s p : str) : bool :=
  startsWith s p
  || match s with
     | [] => false
     | _ :: s' => includes s' p
     end.

(** [s.endsWith(p)] *)
Definition endsWith (s p : str) : bool := startsWith (rev s) (rev p).

(** [s.split(sep)] for a one-character separator: never the empty list. *)
Fixpoint split (sep : ascii) (s : str) : list str :=
  match s with
  | [] => [[]]
  | c :: s' =>
      if Ascii.eqb c sep then [] :: split sep s'
      else match split sep s' with
           | [] => [[c]]
           | l :: ls => (c :: l) :: ls
           end
  end.

(** [ls.join(sep)] *)
Fixpoint join (sep : ascii) (ls : list str) : str :=
  match ls with
  | [] => []
  | l :: ls' =>
      match ls' with
      | [] => l
      | _ :: _ => l ++ sep :: join sep ls'
      end
  end.

Definition LF : ascii := chr 10.

(** White space in the sense of [String.prototype.trim] and of the
    regular-expression class [\s]: the number of bytes of the white-space
    character at the head of [s], or 0.  TAB LF VT FF CR SP, U+00A0,
    U+1680, U+2000..U+200A, U+2028, U+2029, U+202F, U+205F, U+3000,
    U+FEFF. *)
Definition wsLen (s : str) : nat :=
  match map code s with
  | (9 | 10 | 11 | 12 | 13 | 32)%N :: _ => 1
  | 194%N :: 160%N :: _ => 2
  | 225%N :: 154%N :: 128%N :: _ => 3
  | 226%N :: 128%N :: c :: _ =>
      if ((128 <=? c) && (c <=? 138) || (c =? 168) || (c =? 169) || (c =? 175))%N
      then 3 else 0
  | 226%N :: 129%N :: 159%N :: _ => 3
  | 227%N :: 128%N :: 128%N :: _ => 3
  | 239%N :: 187%N :: 191%N :: _ => 3
  | _ => 0
  end.

(** The same, read from the end of the string ([r] is reversed). *)
Definition wsLenRev (r : str) : nat :=
  match map code r with
  | (9 | 10 | 11 | 12 | 13 | 32)%N :: _ => 1
  | 160%N :: 194%N :: _ => 2
  | 128%N :: 154%N :: 225%N :: _ => 3
  | 159%N :: 129%N :: 226%N :: _ => 3
  | 128%N :: 128%N :: 227%N :: _ => 3
  | 191%N :: 187%N :: 239%N :: _ => 3
  | c :: 128%N :: 226%N :: _ =>
      if ((128 <=? c) && (c <=? 138) || (c =? 168) || (c =? 169) || (c =? 175))%N
      then 3 else 0
  | _ => 0
  end.

Fixpoint dropWhileLen (len : str -> nat) (fuel : nat) (s : str) : str :=
  match fuel with
  | O => s
  | S fuel' =>
      match len s with
      | O => s
      | S n => dropWhileLen len fuel' (skipn (S n) s)
      end
  end.

Definition trimStart (s : str) : str := dropWhileLen wsLen (length s) s.
Definition trimEnd (s : str) : str :=
  rev (dropWhileLen wsLenRev (length s) (rev s)).

(** [s.trim()] *)
Definition trim (s : str) : str := trimEnd (trimStart s).

(** [s.toLowerCase()].  The ASCII capitals, and the two characters outside
    ASCII whose lower case contains an ASCII letter: U+212A KELVIN SIGN
    (E2 84 AA) gives k, and U+0130 (C4 B0) gives i followed by U+0307
    (CC 87).  Every other character outside ASCII maps to characters outside
    ASCII and is left as it is: the sources only search the result for ASCII
    text. *)
Definition lowerAscii (c : ascii) : ascii :=
  let n := code c in
  if ((65 <=? n) && (n <=? 90))%N then chr (n + 32) else c.

Fixpoint toLowerCase (s : str) : str :=
  match s with
  | [] => []
  | c :: s' =>
      match s' with
      | d :: s'' =>
          if ((code c =? 196) && (code d =? 176))%N
          then chr 105 :: chr 204 :: chr 135 :: toLowerCase s''
          else
            match s'' with
            | e :: s''' =>
                if ((code c =? 226) && (code d =? 132) && (code e =? 170))%N
                then chr 107 :: toLowerCase s'''
                else lowerAscii c :: toLowerCase s'
            | [] => lowerAscii c :: toLowerCase s'
            end
      | [] => [lowerAscii c]
      end
  end.

(** [s.lastIndexOf(c)] for a one-character pattern, -1 when absent. *)
Fixpoint lastIndexOfFrom (c : ascii) (i : Z) (s : str) (found : Z) : Z :=
  match s with
  | [] => found
  | x :: s' => lastIndexOfFrom c (i + 1) s' (if Ascii.eqb x c then i else found)
  end.
Definition lastIndexOf (s : str) (c : ascii) : Z := lastIndexOfFrom c 0 s (-1).

(** [s.substring(0, n)]: a negative end counts as 0, a large one as the
    length. *)
Definition substring0 (s : str) (n : Z) : str := firstn (Z.to_nat n) s.

(** Decimal rendering of a non-negative integer, as in a template literal. *)
Definition showNat (n : nat) : str :=
  L (NilZero.string_of_uint (Nat.to_uint n)).

(** *** Percent encoding *)

Definition hexDigit (n : N) : ascii :=
  chr (if (n <? 10)%N then 48 + n else 55 + n).

Definition isAlnum (c : ascii) : bool :=
  let n := code c in
  ((48 <=? n) && (n <=? 57) || (65 <=? n) && (n <=? 90)
   || (97 <=? n) && (n <=? 122))%N.

(** The characters [encodeURIComponent] leaves alone:
    A-Z a-z 0-9 - _ . ! ~ * ' ( ) *)
Definition isUnreserved (c : ascii) : bool :=
  isAlnum c
  || existsb (N.eqb (code c)) [45; 95; 46; 33; 126; 42; 39; 40; 41]%N.

Definition pct (c : ascii) : str :=
  [chr 37; hexDigit (code c / 16); hexDigit (code c mod 16)].

(** [encodeURIComponent(s)]: every byte of the UTF-8 encoding that is not
    unreserved becomes %XX.  (The URIError on a lone surrogate cannot
    arise: a [str] is UTF-8.) *)
Definition encodeURIComponent (s : str) : str :=
  flat_map (fun c => if isUnreserved c then [c] else pct c) s.

Definition hexVal (c : ascii) : option N :=
  let n := code c in
  if ((48 <=? n) && (n <=? 57))%N then Some (n - 48)%N
  else if ((65 <=? n) && (n <=? 70))%N then Some (n - 55)%N
  else if ((97 <=? n) && (n <=? 102))%N then Some (n - 87)%N
  else None.

(** One escape %XX at the head of [s]. *)
Definition pctByte (s : str) : option (N * str) :=
  match s with
  | p :: h :: l :: r =>
      if (code p =? 37)%N then
        match hexVal h, hexVal l with
        | Some a, Some b => Some (16 * a + b, r)%N
        | _, _ => None
        end
      else None
  | _ => None
  end.

(** [n] escapes that are continuation bytes (10xxxxxx). *)
Fixpoint pctCont (n : nat) (s : str) : option (list N * str) :=
  match n with
  | O => Some ([], s)
  | S n' =>
      match pctByte s with
      | Some (b, r) =>
          if ((128 <=? b) && (b <? 192))%N then
            match pctCont n' r with
            | Some (bs, r') => Some (b :: bs, r')
            | None => None
            end
          else None
      | None => None
      end
  end.

(** Number of continuation bytes a lead byte announces. *)
Definition utf8Follow (b : N) : option nat :=
  if ((192 <=? b) && (b <? 224))%N then Some 1%nat
  else if ((224 <=? b) && (b <? 240))%N then Some 2%nat
  else if ((240 <=? b) && (b <? 248))%N then Some 3%nat
  else None.

(** Well-formed UTF-8 sequences (no overlong form, no surrogate, at most
    U+10FFFF), given the lead byte and its continuation bytes. *)
Definition utf8Valid (b : N) (bs : list N) : bool :=
  match bs with
  | [_] => (194 <=? b)%N
  | [c; _] =>
      ((b =? 224) && (160 <=? c) || (b =? 237) && (c <=? 159)
       || negb (b =? 224) && negb (b =? 237))%N
  | [c; _; _] =>
      ((b =? 240) && (144 <=? c) || (b =? 244) && (c <=? 143)
       || (241 <=? b) && (b <=? 243))%N
  | _ => false
  end.

(** [decodeURIComponent(s)]; [None] is the URIError. *)
Fixpoint decodeLoop (fuel : nat) (s : str) : option str :=
  match s with
  | [] => Some []
  | c :: r =>
      match fuel with
      | O => None
      | S fuel' =>
          if (code c =? 37)%N then
            match pctByte s with
            | None => None
            | Some (b, r1) =>
                if (b <? 128)%N then option_map (cons (chr b)) (decodeLoop fuel' r1)
                else
                  match utf8Follow b with
                  | None => None
                  | Some n =>
                      match pctCont n r1 with
                      | None => None
                      | Some (bs, r2) =>
                          if utf8Valid b bs
                          then option_map (app (map chr (b :: bs))) (decodeLoop fuel' r2)
                          else None
                      end
                  end
            end
          else option_map (cons c) (decodeLoop fuel' r)
      end
  end.

Definition decodeURIComponent (s : str) : option str :=
  decodeLoop (length s) s.

(** *** The regular expressions of the sources

    Each pattern used by the sources is written out as the matcher it
    denotes.  A pattern of the shape [open], one or more characters that
    are not a quote, quote (where [open] ends in a quote) can only match
    at a position in one way: the class cannot give a character back. *)

Definition quote : ascii := chr 34.

Fixpoint span (f : ascii -> bool) (s : str) : str * str :=
  match s with
  | [] => ([], [])
  | c :: r => if f c then let (a, b) := span f r in (c :: a, b) else ([], s)
  end.

Definition notQuote (c : ascii) : bool := negb (Ascii.eqb c quote).

(** Anchored at the head of [s]: the captured value and what follows the
    closing quote. *)
Definition matchQuotedAt (open s : str) : option (str * str) :=
  if startsWith s open then
    match span notQuote (skipn (length open) s) with
    | ((_ :: _) as v, _ :: rest) => Some (v, rest)
    | _ => None
    end
  else None.

(** [s.match(re)] for such a pattern: the capture of the leftmost match. *)
Fixpoint findQuoted (open s : str) : option str :=
  match matchQuotedAt open s with
  | Some (v, _) => Some v
  | None =>
      match s with
      | [] => None
      | _ :: r => findQuoted open r
      end
  end.

(** The maximal run of white space at the head ([\s*], greedy). *)
Definition skipWs (s : str) : str := trimStart s.

(** A line terminator at the head of [s] (what [.] does not match):
    LF, CR, U+2028, U+2029. *)
Definition terminatorAt (s : str) : bool :=
  match map code s with
  | (10 | 13)%N :: _ => true
  | 226%N :: 128%N :: (168 | 169)%N :: _ => true
  | _ => false
  end.

Fixpoint hasTerminator (s : str) : bool :=
  terminatorAt s
  || match s with
     | [] => false
     | _ :: r => hasTerminator r
     end.

(** The longest prefix without a line terminator ([.*], greedy). *)
Fixpoint dots (s : str) : str :=
  if terminatorAt s then []
  else match s with
       | [] => []
       | c :: r => c :: dots r
       end.

(** *** The platform's [URL] and [URLSearchParams], as far as they are read *)

Record URL := mkURL {
  protocol : str;   (* with its colon: https: *)
  host : str;
  pathname : str;
  search : str      (* the query, without the question mark *)
}.

(** [u.origin] *)
Definition origin (u : URL) : str :=
  if existsb (streq (protocol u))
       [L "http:"; L "https:"; L "ws:"; L "wss:"; L "ftp:"]
  then protocol u ++ L "//" ++ host u
  else L "null".

(** Percent-decoding of the form-urlencoded parser: an escape that is not
    two hexadecimal digits stays as it is. *)
Fixpoint percentDecode (s : str) : str :=
  match s with
  | [] => []
  | c :: r =>
      match r with
      | h :: l :: r' =>
          match (if (code c =? 37)%N then hexVal h else None), hexVal l with
          | Some a, Some b => chr (16 * a + b) :: percentDecode r'
          | _, _ => c :: percentDecode r
          end
      | _ => c :: percentDecode r
      end
  end.

(** U+FFFD *)
Definition replacement : str := [chr 239; chr 191; chr 189].

(** First byte of a character: what is emitted at once, and what is then
    awaited (bytes still needed, bytes seen, bounds of the next byte). *)
Definition utf8Start (c : ascii) : str * option (nat * str * N * N) :=
  let b := code c in
  if (b <? 128)%N then ([c], None)
  else if ((194 <=? b) && (b <=? 223))%N then ([], Some (1%nat, [c], 128, 191)%N)
  else if (b =? 224)%N then ([], Some (2%nat, [c], 160, 191)%N)
  else if (b =? 237)%N then ([], Some (2%nat, [c], 128, 159)%N)
  else if ((225 <=? b) && (b <=? 239))%N then ([], Some (2%nat, [c], 128, 191)%N)
  else if (b =? 240)%N then ([], Some (3%nat, [c], 144, 191)%N)
  else if (b =? 244)%N then ([], Some (3%nat, [c], 128, 143)%N)
  else if ((241 <=? b) && (b <=? 243))%N then ([], Some (3%nat, [c], 128, 191)%N)
  else (replacement, None).

(** UTF-8 decoding with replacement (the decoder of the Encoding standard),
    seen on the bytes: ill-formed input becomes U+FFFD. *)
Fixpoint utf8Lossy (pending : option (nat * str * N * N)) (s : str) : str :=
  match s with
  | [] => match pending with None => [] | Some _ => replacement end
  | c :: r =>
      match pending with
      | None => let (out, st) := utf8Start c in out ++ utf8Lossy st r
      | Some (need, acc, lo, hi) =>
          if ((lo <=? code c) && (code c <=? hi))%N then
            match need with
            | S (S n) => utf8Lossy (Some (S n, acc ++ [c], 128, 191)%N) r
            | _ => acc ++ c :: utf8Lossy None r
            end
          else
            let (out, st) := utf8Start c in
            replacement ++ out ++ utf8Lossy st r
      end
  end.

Definition formDecode (s : str) : str :=
  utf8Lossy None
    (percentDecode (map (fun c => if (code c =? 43)%N then chr 32 else c) s)).

(** Split at the first occurrence of [sep]. *)
Fixpoint cut (sep : ascii) (s : str) : str * option str :=
  match s with
  | [] => ([], None)
  | c :: r =>
      if Ascii.eqb c sep then ([], Some r)
      else let (a, b) := cut sep r in (c :: a, b)
  end.

(** The name/value pairs of a query. *)
Definition formParse (query : str) : list (str * str) :=
  flat_map
    (fun piece =>
       match piece with
       | [] => []
       | _ :: _ =>
           let (n, v) := cut (chr 61) piece in
           [(formDecode n, formDecode (match v with Some v' => v' | None => [] end))]
       end)
    (split (chr 38) query).

(** [searchParams.get(name)]; [None] is null. *)
Definition searchParamsGet (query name : str) : option str :=
  option_map snd (find (fun nv => streq (fst nv) name) (formParse query)).

(** The query of [new URL(input, base)] for an [input] that carries its own
    path: leading and trailing C0 controls and spaces go, tabs and line
    breaks inside go, the fragment starts at the first # and the query at
    the first ? before it.  (The parser also percent-encodes some bytes
    of the query; [formDecode] undoes exactly that, so it is left out.
    An [input] whose authority does not parse makes the constructor
    throw; that is outside this model.) *)
Definition isC0OrSpace (c : ascii) : bool := (code c <=? 32)%N.
Fixpoint dropWhile (f : ascii -> bool) (s : str) : str :=
  match s with
  | [] => []
  | c :: r => if f c then dropWhile f r else s
  end.
Definition urlQuery (input : str) : str :=
  let s := rev (dropWhile isC0OrSpace (rev (dropWhile isC0OrSpace input))) in
  let s := filter (fun c => negb (existsb (N.eqb (code c)) [9; 10; 13]%N)) s in
  match snd (cut (chr 63) (fst (cut (chr 35) s))) with
  | Some q => q
  | None => []
  end.

(** *** Classes of strings and characters used in the statements *)

Definition isAscii (s : str) : Prop := Forall (fun c => (code c < 128)%N) s.
Definition noPercent (s : str) : Prop := Forall (fun c => code c <> 37%N) s.

(** What the characters written by [encodeURIComponent] are not: a
    control or a space, #, &, +. *)
Definition querySafe (c : ascii) : bool :=
  negb (isC0OrSpace c) && negb (existsb (N.eqb (code c)) [35; 38; 43]%N).

End JS.

(* ================================================================== *)
(** ** api/m3u8-proxy.ts *)
(* ================================================================== *)

Module ManifestProxy.
Import JS.

(** [resolveUrl(target, baseUrl, basePath)] *)
Definition resolveUrl (target : str) (baseUrl : URL) (basePath : str) : str :=
  if startsWith target (L "http://") || startsWith target (L "https://")
  then target
  else if startsWith target (L "//")
  then protocol baseUrl ++ target
  else if startsWith target (L "/")
  then protocol baseUrl ++ L "//" ++ host baseUrl ++ target
  else protocol baseUrl ++ L "//" ++ host baseUrl ++ basePath ++ target.

(** [baseUrl.pathname.substring(0, baseUrl.pathname.lastIndexOf('/') + 1)] *)
Definition basePathOf (baseUrl : URL) : str :=
  substring0 (pathname baseUrl) (lastIndexOf (pathname baseUrl) (chr 47) + 1).

(** [`${url.origin}${url.pathname}?url=${encodeURIComponent(absoluteUrl)}`] *)
Definition proxied (url : URL) (absoluteUrl : str) : str :=
  origin url ++ pathname url ++ L "?url=" ++ encodeURIComponent absoluteUrl.

(** The matches of the global pattern URI=, quote, one or more characters
    that are not a quote, quote, in a line, left to right, with the
    characters between them. *)
Inductive piece :=
| Chr (c : ascii)
| UriAttr (uri : str).

Definition uriOpen : str := L "URI=" ++ [quote].

(** A match anchored at the head of [s]: the captured value and what
    follows the closing quote. *)
Definition matchUriAt (s : str) : option (str * str) :=
  matchQuotedAt uriOpen s.

Fixpoint scanUri (fuel : nat) (s : str) : list piece :=
  match fuel with
  | O => map Chr s
  | S fuel' =>
      match matchUriAt s with
      | Some (uri, rest) => UriAttr uri :: scanUri fuel' rest
      | None =>
          match s with
          | [] => []
          | c :: r => Chr c :: scanUri fuel' r
          end
      end
  end.

(** The result of [replace]: the pieces, every match replaced by what
    the callback returns for its captured value. *)
Definition render (f : str -> str) (ps : list piece) : str :=
  flat_map (fun p => match p with
                     | Chr c => [c]
                     | UriAttr uri => f uri
                     end) ps.

Definition replaceUri (f : str -> str) (s : str) : str :=
  render f (scanUri (length s) s).

(** The callback of lines 153-157. *)
Definition uriCallback (url baseUrl : URL) (basePath uri : str) : str :=
  uriOpen ++ proxied url (resolveUrl uri baseUrl basePath) ++ [quote].

(** The body of the [map] over the lines (lines 146-169). *)
Definition rewriteLine (url baseUrl : URL) (basePath line : str) : str :=
  let trimmedLine := trim line in
  if isEmpty trimmedLine || startsWith trimmedLine (L "#EXT") then
    if includes trimmedLine uriOpen
    then replaceUri (uriCallback url baseUrl basePath) trimmedLine
    else trimmedLine
  else if negb (startsWith trimmedLine (L "#")) then
    proxied url (resolveUrl trimmedLine baseUrl basePath)
  else trimmedLine.

(** [text.split('\n').map(...).join('\n')] *)
Definition rewritePlaylist (url baseUrl : URL) (text : str) : str :=
  join LF (map (rewriteLine url baseUrl (basePathOf baseUrl)) (split LF text)).

(** The test of lines 132-137. *)
Definition isPlaylist (contentType targetUrl : str) : bool :=
  includes contentType (L "mpegurl")
  || includes contentType (L "m3u8")
  || includes contentType (L "m3u")
  || includes contentType (L "vnd.apple.mpegurl")
  || includes (toLowerCase targetUrl) (L ".m3u8")
  || includes (toLowerCase targetUrl) (L ".m3u").

(** *** The handler *)

Record Request := mkRequest {
  method : str;
  originHeader : option str;    (* request.headers.get('origin') *)
  rangeHeader : option str;     (* request.headers.get('range') *)
  url : URL                     (* new URL(request.url) *)
}.

Record Upstream := mkUpstream {
  ok : bool;
  status : nat;
  statusText : str;
  contentTypeHeader : option str;
  contentLengthHeader : option str;
  contentRangeHeader : option str;
  acceptRangesHeader : option str;
  finalUrl : str;               (* response.url, after redirects *)
  body : str
}.

(** What [await fetch(...)] gives: a rejection with its message (network
    failure, or the 30 s abort signal), or a response. *)
Inductive FetchOutcome :=
| Rejected (message : str)
| Fulfilled (response : Upstream).

Inductive Body :=
| BodyNull
| BodyError (error : str) (details : option str) (allowedOrigins : option (list str))
| BodyText (text : str)
| BodyStream (upstream : str).

Record Response := mkResponse {
  r_status : nat;
  r_headers : list (str * str);
  r_body : Body
}.

(** [v || ''] and truthiness of a header value *)
Definition orEmpty (v : option str) : str :=
  match v with Some s => s | None => [] end.
Definition truthy (v : option str) : bool := negb (isEmpty (orEmpty v)).

Section Handler.

(** The deployment's allow-list (from the environment, with its default),
    the URL constructor ([None] when it throws) and the upstream. *)
Variable ALLOWED_ORIGINS : list str.
Variable parseURL : str -> option URL.
Variable fetch : str -> list (str * str) -> FetchOutcome.

Definition allowed (o : str) : bool := existsb (streq o) ALLOWED_ORIGINS.

Definition getCorsHeaders (origin : option str) : list (str * str) :=
  let allowedOrigin :=
    if truthy origin && allowed (orEmpty origin) then orEmpty origin
    else hd (L "undefined") ALLOWED_ORIGINS in
  [ (L "Access-Control-Allow-Origin", allowedOrigin);
    (L "Access-Control-Allow-Methods", L "GET, OPTIONS");
    (L "Access-Control-Allow-Headers", L "Content-Type, Range, Authorization");
    (L "Access-Control-Max-Age", L "86400");
    (L "Access-Control-Expose-Headers",
     L "Content-Length, Content-Type, Content-Range, Accept-Ranges");
    (L "Access-Control-Allow-Credentials", L "true") ].

Definition jsonError (st : nat) (origin : option str) (b : Body) : Response :=
  mkResponse st ((L "Content-Type", L "application/json") :: getCorsHeaders origin) b.

(** The request headers sent upstream (lines 79-100). *)
Definition upstreamHeaders (request : Request) (targetUrl : str) : list (str * str) :=
  [ (L "User-Agent",
     L "Mozilla/5.0 (Windows NT 10.0; Win64; x64) AppleWebKit/537.36 (KHTML, like Gecko) Chrome/120.0.0.0 Safari/537.36");
    (L "Accept", L "*/*");
    (L "Accept-Language", L "en-US,en;q=0.9");
    (L "Accept-Encoding", L "gzip, deflate, br");
    (L "Connection", L "keep-alive") ]
  ++ (if truthy (rangeHeader request)
      then [(L "Range", orEmpty (rangeHeader request))] else [])
  ++ match parseURL targetUrl with
     | Some t => [(L "Referer", origin t ++ L "/"); (L "Origin", origin t)]
     | None => []
     end.

Definition setIf (name : str) (v : option str) : list (str * str) :=
  if truthy v then [(name, orEmpty v)] else [].

(** The handler (lines 28-242).  The status of the upstream answer is
    taken to be one with which a response with a body can be built (200 to
    599, and none of 204, 205, 304); with another status the constructor
    of the response throws, and the catch block of lines 222-241 answers
    500 with the message of that error. *)
Definition handler (request : Request) : Response :=
  let origin := originHeader request in
  if streq (method request) (L "OPTIONS") then
    mkResponse 204 (getCorsHeaders origin) BodyNull
  else if truthy origin && negb (allowed (orEmpty origin)) then
    jsonError 403 origin
      (BodyError (L "Unauthorized origin") None (Some ALLOWED_ORIGINS))
  else
    let targetUrl := searchParamsGet (search (url request)) (L "url") in
    if negb (truthy targetUrl) then
      jsonError 400 origin (BodyError (L "Missing url parameter") None None)
    else
      let targetUrl := orEmpty targetUrl in
      (* the catch block of lines 222-241, with error.message *)
      let failed message :=
        jsonError 500 origin
          (BodyError (L "Proxy failed to fetch stream") (Some message) None) in
      match fetch targetUrl (upstreamHeaders request targetUrl) with
      | Rejected message => failed message
      | Fulfilled response =>
          if negb (ok response) then
            jsonError (status response) origin
              (BodyError (L "Stream unavailable: " ++ showNat (status response))
                         (Some (statusText response)) None)
          else
            let contentType := orEmpty (contentTypeHeader response) in
            if isPlaylist contentType targetUrl then
              match parseURL (finalUrl response) with
              | None => failed (L "Invalid URL")   (* new URL(response.url) throws *)
              | Some baseUrl =>
                  mkResponse 200
                    ([ (L "Content-Type", L "application/vnd.apple.mpegurl");
                       (L "Cache-Control", L "no-cache, no-store, must-revalidate");
                       (L "Pragma", L "no-cache");
                       (L "Expires", L "0") ] ++ getCorsHeaders origin)
                    (BodyText (rewritePlaylist (url request) baseUrl (body response)))
              end
            else
              mkResponse (status response)
                (getCorsHeaders origin
                 ++ setIf (L "Content-Type") (Some contentType)
                 ++ setIf (L "Content-Length") (contentLengthHeader response)
                 ++ setIf (L "Content-Range") (contentRangeHeader response)
                 ++ setIf (L "Accept-Ranges") (acceptRangesHeader response)
                 ++ [ (L "Cache-Control",
                       if includes contentType (L "video")
                          || includes contentType (L "octet-stream")
                       then L "public, max-age=31536000, immutable"
                       else L "public, max-age=60") ])
                (BodyStream (body response))
      end.

End Handler.

(** The four-tier rule as the specification words it: absolute references
    are kept; protocol-relative ones get the protocol; absolute paths get
    protocol and host; anything else gets protocol, host and base path. *)
Definition absolute (target : str) : bool :=
  startsWith target (L "http://") || startsWith target (L "https://").

Inductive Resolves (baseUrl : URL) (basePath target : str) : str -> Prop :=
| ResolveAbsolute :
    absolute target = true ->
    Resolves baseUrl basePath target target
| ResolveProtocolRelative :
    absolute target = false ->
    startsWith target (L "//") = true ->
    Resolves baseUrl basePath target (protocol baseUrl ++ target)
| ResolveAbsolutePath :
    absolute target = false ->
    startsWith target (L "//") = false ->
    startsWith target (L "/") = true ->
    Resolves baseUrl basePath target
      (protocol baseUrl ++ L "//" ++ host baseUrl ++ target)
| ResolveRelative :
    absolute target = false ->
    startsWith target (L "/") = false ->
    Resolves baseUrl basePath target
      (protocol baseUrl ++ L "//" ++ host baseUrl ++ basePath ++ target).

(** No line break in a string. *)
Definition noLF (s : str) : bool := negb (existsb (Ascii.eqb LF) s).

(** An attribute as it stands in a tag. *)
Definition asWritten (uri : str) : str := uriOpen ++ uri ++ [quote].

(** The URI attributes of a line, as a global replacement reads them.  The
    line is read from the left: where an attribute stands (URI=, a quote,
    a value of one or more characters none of which is a quote, a quote)
    it is taken with its value and reading goes on behind it; where none
    stands, one character is passed over. *)
Inductive Scanned : str -> list piece -> Prop :=
| ScanEnd : Scanned [] []
| ScanAttr (uri rest : str) (pieces : list piece) :
    uri <> [] -> ~ In quote uri ->
    Scanned rest pieces ->
    Scanned (asWritten uri ++ rest) (UriAttr uri :: pieces)
| ScanChr (c : ascii) (s : str) (pieces : list piece) :
    (forall uri rest, uri <> [] -> ~ In quote uri -> c :: s <> asWritten uri ++ rest) ->
    Scanned s pieces ->
    Scanned (c :: s) (Chr c :: pieces).

(** The classification as the specification words it: an HLS marker in
    the content type, or a URL that ends in a playlist extension. *)
Definition specIsPlaylist (contentType targetUrl : str) : bool :=
  includes contentType (L "mpegurl")
  || includes contentType (L "m3u8")
  || includes contentType (L "m3u")
  || includes contentType (L "vnd.apple.mpegurl")
  || endsWith (toLowerCase targetUrl) (L ".m3u8")
  || endsWith (toLowerCase targetUrl) (L ".m3u").

(** The requests the handler answers by itself (lines 32-66): a pre-flight,
    an origin outside the allow-list, no target. *)
Definition rejected (ALLOWED_ORIGINS : list str) (request : Request) : bool :=
  streq (method request) (L "OPTIONS")
  || truthy (originHeader request)
     && negb (allowed ALLOWED_ORIGINS (orEmpty (originHeader request)))
  || negb (truthy (searchParamsGet (search (url request)) (L "url"))).

(** A line with nothing to rewrite: no surrounding white space, empty or a
    tag or comment, and no URI attribute. *)
Definition inert (line : str) : bool :=
  streq (trim line) line
  && (isEmpty line || startsWith line (L "#"))
  && negb (includes line uriOpen).

(** A character that can stand in the origin or path of the proxy's own
    address: written by the URL serialiser, and not a question mark. *)
Definition pathSafe (c : ascii) : bool :=
  querySafe c && negb (Ascii.eqb c (chr 63)).

(** The body carries upstream content. *)
Definition carriesContent (b : Body) : bool :=
  match b with
  | BodyText _ | BodyStream _ => true
  | BodyNull | BodyError _ _ _ => false
  end.

End ManifestProxy.

(* ================================================================== *)
(** ** src/lib/urlEncryption.ts *)
(* ================================================================== *)

Module UrlEncryption.
Import JS.

Definition PROXY_URL : str := L "/api/m3u8-proxy".

Definition needsProxying (url : str) : bool :=
  if isEmpty url then false
  else
    let urlLower := toLowerCase url in
    if includes urlLower (L "/api/m3u8-proxy") then false
    else
      includes urlLower (L ".m3u8")
      || includes urlLower (L ".m3u")
      || includes urlLower (L "/hls/")
      || includes urlLower (L "m3u8")
      || includes urlLower (L ".ts")
      || includes urlLower (L "manifest").

(** [urlObj.searchParams.get('url')] of
    [new URL(s, window.location.origin)] *)
Definition urlParam (s : str) : option str :=
  searchParamsGet (urlQuery s) (L "url").

Definition getProxiedUrl (originalUrl : str) : str :=
  if isEmpty originalUrl then originalUrl
  else if includes originalUrl (L "/api/m3u8-proxy?url=")
          && negb (isEmpty (match urlParam originalUrl with
                            | Some e => e
                            | None => []
                            end))
  then originalUrl
  else if needsProxying originalUrl
  then PROXY_URL ++ L "?url=" ++ encodeURIComponent originalUrl
  else originalUrl.

(** [None] is null: the early return, an absent or empty parameter, or the
    URIError of [decodeURIComponent] caught at line 78. *)
Definition getOriginalUrl (proxiedUrl : str) : option str :=
  if isEmpty proxiedUrl || negb (includes proxiedUrl (L "/api/m3u8-proxy?url="))
  then None
  else
    match urlParam proxiedUrl with
    | Some originalUrl =>
        if isEmpty originalUrl then None else decodeURIComponent originalUrl
    | None => None
    end.

End UrlEncryption.

(* ================================================================== *)
(** ** api/parse-m3u.ts *)
(* ================================================================== *)

Module ParseM3U.
Import JS.

Record Channel := mkChannel {
  id : str;
  name : str;
  logoUrl : str;
  streamUrl : str;
  categoryId : str;
  categoryName : str
}.

(** [Partial<Channel>]: the fields the loop reads back. *)
Record Partial := mkPartial {
  p_name : option str;
  p_logoUrl : option str
}.
Definition emptyPartial : Partial := mkPartial None None.

(** group-title=, quote, characters that are not a quote, quote, comma,
    white space, then one or more characters up to the end of the line,
    none of them a line terminator: anchored at the head of [s].  The line
    is trimmed, so what follows the white space is empty or starts with a
    character that is not white space: giving white space back cannot
    produce a match. *)
Definition matchGroupTitleAt (s : str) : option str :=
  let open := L "group-title=" ++ [quote] in
  if startsWith s open then
    match snd (span notQuote (skipn (length open) s)) with
    | q :: c :: rest =>
        if (code c =? 44)%N then
          match skipWs rest with
          | [] => None
          | (_ :: _) as v => if hasTerminator v then None else Some v
          end
        else None
    | _ => None
    end
  else None.

Fixpoint findGroupTitle (s : str) : option str :=
  match matchGroupTitleAt s with
  | Some v => Some v
  | None =>
      match s with
      | [] => None
      | _ :: r => findGroupTitle r
      end
  end.

Definition isComma (c : ascii) : bool := (code c =? 44)%N.

(** comma, white space, then one or more characters that are not a comma,
    up to the end of the line: the leftmost match. *)
Fixpoint findAfterComma (s : str) : option str :=
  match s with
  | [] => None
  | c :: r =>
      if isComma c && negb (existsb isComma r) && negb (isEmpty (skipWs r))
      then Some (skipWs r)
      else findAfterComma r
  end.

(** Referer= or referer=, then one or more characters that are not line
    terminators, as many as there are: the leftmost match. *)
Fixpoint findReferer (s : str) : option str :=
  if (startsWith s (L "Referer=") || startsWith s (L "referer="))
     && negb (isEmpty (dots (skipn 8 s)))
  then Some (dots (skipn 8 s))
  else match s with
       | [] => None
       | _ :: r => findReferer r
       end.

(** [name.replace(/[^a-zA-Z0-9]/g, '_')]: the replacement is made for
    every UTF-16 code unit, so a character of two or three UTF-8 bytes
    gives one underscore and a character of four bytes (a surrogate pair)
    gives two. *)
Definition underscore : ascii := chr 95.
Definition replaceNonAlnum (s : str) : str :=
  flat_map
    (fun c =>
       let b := code c in
       if isAlnum c then [c]
       else if ((128 <=? b) && (b <? 192))%N then []
       else if ((240 <=? b) && (b <? 248))%N then [underscore; underscore]
       else [underscore]) s.

Definition sanitize (name : str) : str := toLowerCase (replaceNonAlnum name).

Definition placeholder : str := L "/channel-placeholder.svg".

(** The name of an [#EXTINF:] line (lines 40-55). *)
Definition channelNameOf (line : str) : str :=
  match findQuoted (L "tvg-name=" ++ [quote]) line with
  | Some v => trim v
  | None =>
      match findGroupTitle line with
      | Some v => trim v
      | None =>
          match findAfterComma line with
          | Some v => trim v
          | None => L "Unknown Channel"
          end
      end
  end.

Definition truthyStr (v : option str) : bool :=
  match v with Some (_ :: _) => true | _ => false end.

(** One turn of the loop over the lines (lines 36-102). *)
Definition step (categoryId categoryName : str)
    (st : list Channel * Partial) (line : str) : list Channel * Partial :=
  let (channels, currentChannel) := st in
  if startsWith line (L "#EXTINF:") then
    let logoUrl :=
      match findQuoted (L "tvg-logo=" ++ [quote]) line with
      | Some v => v
      | None => placeholder
      end in
    (channels, mkPartial (Some (channelNameOf line)) (Some logoUrl))
  else if negb (isEmpty line) && negb (startsWith line (L "#"))
          && truthyStr (p_name currentChannel) then
    let hasReferer :=
      includes line (L "|Referer=") || includes line (L "|referer=") in
    let parts := split (chr 124) line in
    let streamUrl := if hasReferer then trim (hd [] parts) else line in
    let referer :=
      if hasReferer then
        match nth_error parts 1 with
        | Some ((_ :: _) as refererPart) =>
            match findReferer refererPart with
            | Some v => trim v
            | None => []
            end
        | _ => []
        end
      else [] in
    let currentName := match p_name currentChannel with Some n => n | None => [] end in
    let cleanChannelName := sanitize currentName in
    let channelId :=
      categoryId ++ L "_" ++ cleanChannelName ++ L "_" ++ showNat (length channels) in
    let finalStreamUrl :=
      if isEmpty referer then streamUrl
      else streamUrl ++ L "?__referer=" ++ encodeURIComponent referer in
    let channel :=
      mkChannel channelId currentName
        (if truthyStr (p_logoUrl currentChannel)
         then match p_logoUrl currentChannel with Some l => l | None => [] end
         else placeholder)
        finalStreamUrl categoryId categoryName in
    (channels ++ [channel], emptyPartial)
  else st.

Definition parseM3U (m3uContent categoryId categoryName : str) : list Channel :=
  let lines :=
    filter (fun line => negb (isEmpty line)) (map trim (split LF m3uContent)) in
  fst (fold_left (step categoryId categoryName) lines ([], emptyPartial)).

(** A character of a sanitized name: a lower-case letter, a digit or an
    underscore. *)
Definition isIdChar (c : ascii) : bool :=
  let n := code c in
  ((48 <=? n) && (n <=? 57) || (97 <=? n) && (n <=? 122) || (n =? 95))%N.

Definition isDigit (c : ascii) : bool :=
  ((48 <=? code c) && (code c <=? 57))%N.

(** The lines the loop sees, and those among them that open an entry. *)
Definition linesOf (m3uContent : str) : list str :=
  filter (fun line => negb (isEmpty line)) (map trim (split LF m3uContent)).
Definition isExtinf (line : str) : bool := startsWith line (L "#EXTINF:").

(** *** The playlist as the claim reads it

    A stream entry is an #EXTINF: line with the stream line that belongs to
    it: the first line behind it that is not a tag or comment, unless
    another #EXTINF: line comes first.  A stream line without an #EXTINF:
    line of its own belongs to no entry. *)
Fixpoint streamAfter (lines : list str) : option str :=
  match lines with
  | [] => None
  | l :: r =>
      if isExtinf l then None
      else if startsWith l (L "#") then streamAfter r
      else Some l
  end.

Fixpoint entries (lines : list str) : list (str * str) :=
  match lines with
  | [] => []
  | l :: r =>
      if isExtinf l then
        match streamAfter r with
        | Some u => (l, u) :: entries r
        | None => entries r
        end
      else entries r
  end.

(** The leftmost place of a line where [M] holds of what is left of the
    line, with what [M] captures there; and a line that has no such place. *)
Inductive First (M : str -> str -> Prop) : str -> str -> Prop :=
| FirstHere (s v : str) : M s v -> First M s v
| FirstLater (c : ascii) (s v : str) :
    (forall v', ~ M (c :: s) v') -> First M s v -> First M (c :: s) v.

Definition Nowhere (M : str -> str -> Prop) (s : str) : Prop :=
  forall a b v, s = a ++ b -> ~ M b v.

(** The three places an #EXTINF: line can carry a name.  An attribute
    tvg-name with a quoted value that is not empty; an attribute
    group-title, quoted, followed by a comma, white space and the rest of
    the line, which is not empty and has no line terminator in it; the
    last comma of the line, followed by white space and a rest that is not
    empty. *)
Definition TvgNameAt (s v : str) : Prop :=
  exists rest,
    s = (L "tvg-name=" ++ [quote]) ++ v ++ quote :: rest
    /\ v <> [] /\ ~ In quote v.

Definition GroupTitleAt (s v : str) : Prop :=
  exists title rest,
    s = (L "group-title=" ++ [quote]) ++ title ++ quote :: chr 44 :: rest
    /\ ~ In quote title
    /\ v = skipWs rest /\ v <> [] /\ hasTerminator v = false.

Definition AfterCommaAt (s v : str) : Prop :=
  exists rest,
    s = chr 44 :: rest /\ ~ In (chr 44) rest
    /\ v = skipWs rest /\ v <> [].

(** The display name of an entry: the first of the three that its #EXTINF:
    line has, trimmed; "Unknown Channel" when it has none. *)
Inductive DisplayName (line : str) : str -> Prop :=
| NameFromTvgName (v : str) :
    First TvgNameAt line v -> DisplayName line (trim v)
| NameFromGroupTitle (v : str) :
    Nowhere TvgNameAt line ->
    First GroupTitleAt line v -> DisplayName line (trim v)
| NameAfterComma (v : str) :
    Nowhere TvgNameAt line -> Nowhere GroupTitleAt line ->
    First AfterCommaAt line v -> DisplayName line (trim v)
| NameUnknown :
    Nowhere TvgNameAt line -> Nowhere GroupTitleAt line ->
    Nowhere AfterCommaAt line -> DisplayName line (L "Unknown Channel").

(** The sanitized form of a name, character by character: a letter or
    digit of ASCII in lower case, an underscore for every other character
    of the Basic Multilingual Plane (one, two or three bytes), two
    underscores for a character beyond it (four bytes, two code units). *)
Definition isCont (c : ascii) : bool := ((128 <=? code c) && (code c <? 192))%N.

Inductive Sanitized : str -> str -> Prop :=
| SanitizedEnd : Sanitized [] []
| SanitizedAlnum (c : ascii) (s o : str) :
    isAlnum c = true -> Sanitized s o ->
    Sanitized (c :: s) (lowerAscii c :: o)
| SanitizedAscii (c : ascii) (s o : str) :
    (code c < 128)%N -> isAlnum c = false -> Sanitized s o ->
    Sanitized (c :: s) (underscore :: o)
| SanitizedTwo (b1 b2 : ascii) (s o : str) :
    (192 <= code b1 < 224)%N -> isCont b2 = true -> Sanitized s o ->
    Sanitized (b1 :: b2 :: s) (underscore :: o)
| SanitizedThree (b1 b2 b3 : ascii) (s o : str) :
    (224 <= code b1 < 240)%N -> isCont b2 = true -> isCont b3 = true ->
    Sanitized s o ->
    Sanitized (b1 :: b2 :: b3 :: s) (underscore :: o)
| SanitizedFour (b1 b2 b3 b4 : ascii) (s o : str) :
    (240 <= code b1 < 248)%N -> isCont b2 = true -> isCont b3 = true ->
    isCont b4 = true -> Sanitized s o ->
    Sanitized (b1 :: b2 :: b3 :: b4 :: s) (underscore :: underscore :: o).

(** *** The endpoint (lines 107-220) *)

Module Endpoint.

Record Fields := mkFields {      (* the body, as far as it is read; [None]
                                    is an absent or null field *)
  f_categoryId : option str;
  f_categoryName : option str;
  f_m3uUrl : option str
}.

Record Request := mkRequest {
  method : str;
  originHeader : option str;     (* request.headers.get('origin') *)
  json : str + Fields            (* request.json(): a throw with its
                                    message, or the body *)
}.

Record Upstream := mkUpstream {
  ok : bool;
  status : nat;
  statusText : str;
  text : str
}.

Inductive FetchOutcome :=
| Rejected (message : str)
| Fulfilled (response : Upstream).

Inductive Body :=
| BodyNull
| BodyError (error : str) (details : option str)
| BodyChannels (channels : list Channel).

Record Response := mkResponse {
  r_status : nat;
  r_headers : list (str * str);
  r_body : Body
}.

Definition orEmpty (v : option str) : str :=
  match v with Some s => s | None => [] end.
Definition truthy (v : option str) : bool := negb (isEmpty (orEmpty v)).

Section Handler.

Variable ALLOWED_ORIGINS : list str.
Variable fetch : str -> FetchOutcome.

Definition allowed (o : str) : bool := existsb (streq o) ALLOWED_ORIGINS.

Definition getCorsHeaders (origin : option str) : list (str * str) :=
  let allowedOrigin :=
    if truthy origin && allowed (orEmpty origin) then orEmpty origin
    else hd (L "undefined") ALLOWED_ORIGINS in
  [ (L "Access-Control-Allow-Origin", allowedOrigin);
    (L "Access-Control-Allow-Methods", L "POST, OPTIONS");
    (L "Access-Control-Allow-Headers", L "Content-Type");
    (L "Access-Control-Max-Age", L "86400") ].

Definition jsonAnswer (st : nat) (origin : option str) (b : Body) : Response :=
  mkResponse st ((L "Content-Type", L "application/json") :: getCorsHeaders origin) b.

(** The handler (lines 107-220).  As for the proxy, the status of an
    upstream failure is taken to be one with which a response with a body
    can be built; with another one (304, say) the constructor throws and
    the catch block answers 500. *)
Definition handler (request : Request) : Response :=
  let origin := originHeader request in
  if streq (method request) (L "OPTIONS") then
    mkResponse 204 (getCorsHeaders origin) BodyNull
  else if negb (truthy origin) || negb (allowed (orEmpty origin)) then
    jsonAnswer 403 origin (BodyError (L "Unauthorized origin") None)
  else if negb (streq (method request) (L "POST")) then
    jsonAnswer 405 origin (BodyError (L "Method not allowed") None)
  else
    (* the catch block of lines 205-218, with error.message *)
    let failed message :=
      jsonAnswer 500 origin
        (BodyError (L "Failed to parse M3U playlist") (Some message)) in
    match json request with
    | inl message => failed message
    | inr body =>
        if negb (truthy (f_categoryId body)) || negb (truthy (f_categoryName body))
        then jsonAnswer 400 origin
               (BodyError (L "Missing categoryId or categoryName") None)
        else if negb (truthy (f_m3uUrl body))
        then jsonAnswer 400 origin (BodyError (L "Missing m3uUrl") None)
        else
          match fetch (orEmpty (f_m3uUrl body)) with
          | Rejected message => failed message
          | Fulfilled response =>
              if negb (ok response) then
                jsonAnswer (status response) origin
                  (BodyError (L "Failed to fetch M3U: " ++ statusText response) None)
              else
                mkResponse 200
                  ((L "Content-Type", L "application/json")
                   :: getCorsHeaders origin
                   ++ [(L "Cache-Control", L "public, max-age=300")])
                  (BodyChannels
                     (parseM3U (text response)
                        (orEmpty (f_categoryId body))
                        (orEmpty (f_categoryName body))))
          end
    end.

End Handler.

End Endpoint.

End ParseM3U.

(* ================================================================== *)
(** ** src/components/VideoPlayer.tsx *)
(* ================================================================== *)

Module VideoPlayer.
Import JS.

(** *** Numbers

    A [number] is not-a-number, an infinity, or a finite value, kept as a
    rational; the sign of zero is not represented.  The operations [nadd],
    [nsub], [nmul] and [ndiv] are those of the real numbers; [fadd], [fsub],
    [fmul] and [fdiv] further down round their result to binary64, as the
    language does. *)
Inductive num :=
| NaN
| Inf (negative : bool)
| Fin (q : Q).

Definition isFinite (x : num) : bool :=
  match x with Fin _ => true | _ => false end.
Definition isNaN (x : num) : bool :=
  match x with NaN => true | _ => false end.

Definition Qltb (a b : Q) : bool := negb (Qle_bool b a).

(** [x > 0], [x < 0], [x <= 0]: false on NaN. *)
Definition gt0 (x : num) : bool :=
  match x with
  | NaN => false
  | Inf negative => negb negative
  | Fin q => Qltb 0 q
  end.
Definition lt0 (x : num) : bool :=
  match x with
  | NaN => false
  | Inf negative => negative
  | Fin q => Qltb q 0
  end.
Definition le0 (x : num) : bool :=
  match x with
  | NaN => false
  | Inf negative => negative
  | Fin q => Qle_bool q 0
  end.

Definition nneg (x : num) : num :=
  match x with
  | NaN => NaN
  | Inf negative => Inf (negb negative)
  | Fin q => Fin (- q)
  end.

Definition nadd (x y : num) : num :=
  match x, y with
  | NaN, _ | _, NaN => NaN
  | Inf a, Inf b => if Bool.eqb a b then Inf a else NaN
  | Inf a, Fin _ | Fin _, Inf a => Inf a
  | Fin a, Fin b => Fin (a + b)
  end.

Definition nsub (x y : num) : num := nadd x (nneg y).

Definition nmul (x y : num) : num :=
  match x, y with
  | NaN, _ | _, NaN => NaN
  | Inf a, Inf b => Inf (xorb a b)
  | Inf a, Fin q | Fin q, Inf a =>
      if Qeq_bool q 0 then NaN else Inf (xorb a (Qltb q 0))
  | Fin a, Fin b => Fin (a * b)
  end.

Definition ndiv (x y : num) : num :=
  match x, y with
  | NaN, _ | _, NaN => NaN
  | Inf _, Inf _ => NaN
  | Inf a, Fin q => Inf (xorb a (Qltb q 0))
  | Fin _, Inf _ => Fin 0
  | Fin a, Fin b =>
      if Qeq_bool b 0
      then (if Qeq_bool a 0 then NaN else Inf (Qltb a 0))
      else Fin (a / b)
  end.

(** [Math.min], [Math.max] *)
Definition nmin (x y : num) : num :=
  match x, y with
  | NaN, _ | _, NaN => NaN
  | Inf true, _ | _, Inf true => Inf true
  | Inf false, z | z, Inf false => z
  | Fin a, Fin b => Fin (if Qle_bool a b then a else b)
  end.
Definition nmax (x y : num) : num :=
  match x, y with
  | NaN, _ | _, NaN => NaN
  | Inf false, _ | _, Inf false => Inf false
  | Inf true, z | z, Inf true => z
  | Fin a, Fin b => Fin (if Qle_bool a b then b else a)
  end.

(** [x <= y]: false when one of them is not-a-number. *)
Definition nle (x y : num) : bool :=
  match x, y with
  | NaN, _ | _, NaN => false
  | Inf true, _ => true
  | _, Inf false => true
  | Inf false, _ => false
  | _, Inf true => false
  | Fin a, Fin b => Qle_bool a b
  end.

(** *** Rounding to binary64

    The numbers of the format are 0 and the values n * 2^e with n an
    integer of at most 53 bits and e from -1074 on, up to
    (2^53 - 1) * 2^971.  The result of an operation is the number of the
    format nearest to the real result, the one with the even n when two
    are equally near, and an infinity when that would lie beyond the
    largest. *)
Definition pow2 (e : Z) : Q := 2 ^ e.

(** For [q] above 0, the [e] with 2^e <= q < 2^(e+1). *)
Definition ilog2 (q : Q) : Z :=
  let e := (Z.log2 (Qnum q) - Z.log2 (Zpos (Qden q)))%Z in
  if Qle_bool (pow2 e) q then e else (e - 1)%Z.

(** The exponent of the last place of the numbers around [q]. *)
Definition ulpExp (q : Q) : Z := Z.max (ilog2 q - 52) (-1074).

(** The nearest integer, the even one of two that are equally near. *)
Definition rne (m : Q) : Z :=
  let f := Qfloor m in
  match Qcompare (m - inject_Z f) (1 # 2) with
  | Lt => f
  | Gt => (f + 1)%Z
  | Eq => if Z.even f then f else (f + 1)%Z
  end.

Definition roundPos (q : Q) : Q :=
  inject_Z (rne (q / pow2 (ulpExp q))) * pow2 (ulpExp q).

Definition maxFinite : Q := inject_Z (2 ^ 53 - 1) * pow2 971.

Definition rnd (q : Q) : num :=
  match Qcompare q 0 with
  | Eq => Fin 0
  | Gt => let r := roundPos q in
          if Qle_bool r maxFinite then Fin (Qred r) else Inf false
  | Lt => let r := roundPos (- q) in
          if Qle_bool r maxFinite then Fin (Qred (- r)) else Inf true
  end.

Definition round (x : num) : num :=
  match x with Fin q => rnd q | _ => x end.

(** [x + y], [x - y], [x * y], [x / y] *)
Definition fadd (x y : num) : num := round (nadd x y).
Definition fsub (x y : num) : num := round (nsub x y).
Definition fmul (x y : num) : num := round (nmul x y).
Definition fdiv (x y : num) : num := round (ndiv x y).

(** A rational that is a number of the format. *)
Definition isDouble (q : Q) : bool :=
  match rnd q with Fin r => Qeq_bool r q | _ => false end.

(** A number in the representation of the library's specification of
    binary64, to compare the rounding above with the operations defined
    there. *)
Definition toSF (x : num) : SpecFloat.spec_float :=
  match x with
  | NaN => SpecFloat.S754_nan
  | Inf s => SpecFloat.S754_infinity s
  | Fin q =>
      match Qcompare q 0 with
      | Eq => SpecFloat.S754_zero false
      | Gt =>
          SpecFloat.binary_normalize 53 1024
            (rne (q / pow2 (ulpExp q))) (ulpExp q) false
      | Lt =>
          SpecFloat.binary_normalize 53 1024
            (- rne (- q / pow2 (ulpExp (- q)))) (ulpExp (- q)) false
      end
  end.

(** *** The time statistics (lines 101-143) *)

(** [video.seekable] is a list of ranges; [video] may be null. *)
Record Video := mkVideo {
  v_currentTime : num;
  v_duration : num;
  v_seekable : list (num * num)
}.

(** What [shakaPlayerRef.current.seekRange()] does. *)
Inductive SeekRange :=
| SeekThrows
| SeekNull
| SeekIs (start end_ : num).

Inductive PlayerType := HlsType | ShakaType | NativeType.

Record TimeStats := mkTimeStats {
  currentTime : num;
  duration : num;
  startTime : num;
  isLive : bool
}.

Definition isShaka (t : option PlayerType) : bool :=
  match t with Some ShakaType => true | _ => false end.

Definition getTimeStats (playerTypeRef : option PlayerType)
    (shakaPlayerRef : option SeekRange) (video : option Video) : TimeStats :=
  match video with
  | None => mkTimeStats (Fin 0) (Fin 0) (Fin 0) false
  | Some video =>
      let currentTime := v_currentTime video in
      let duration := v_duration video in
      let startTime := Fin 0 in
      let isLive := negb (isFinite duration) in
      let '(startTime, duration, isLive) :=
        match (if isShaka playerTypeRef then shakaPlayerRef else None) with
        | Some seekRange =>
            (* Strategy 1 *)
            match seekRange with
            | SeekIs start end_ =>
                if isFinite end_ && gt0 end_
                then (start, end_, false)
                else (start, duration, isLive)
            | SeekNull | SeekThrows => (startTime, duration, isLive)
            end
        | None =>
            (* Strategy 2 *)
            match v_seekable video with
            | [] => (startTime, duration, isLive)
            | first :: _ =>
                let end_ := snd (last (v_seekable video) first) in
                if isFinite end_ && gt0 end_
                then (fst first, end_, false)
                else (fst first, duration, isLive)
            end
        end in
      let startTime :=
        if negb (isFinite startTime) || lt0 startTime then Fin 0 else startTime in
      let duration :=
        if negb (isFinite duration) || isNaN duration then Fin 0 else duration in
      mkTimeStats currentTime duration startTime isLive
  end.




(** *** The seek target (lines 453-462), over the real numbers

    The computation before any rounding; [Binary64.calculateNewTime]
    further down is the same with every operation rounded. *)

(** The bounding box of the progress bar and the pointer position come
    from the document: they are finite. *)
Record Rect := mkRect { left : Q; width : Q }.

Definition calculateNewTime (video : bool) (progressBar : option Rect)
    (playerState : TimeStats) (clientX : Q) : option num :=
  match progressBar with
  | None => None
  | Some rect =>
      if negb video
         || negb (isFinite (duration playerState))
         || le0 (duration playerState)
         || isLive playerState
      then None
      else
        let clickX :=
          nmax (Fin 0) (nmin (nsub (Fin clientX) (Fin (left rect))) (Fin (width rect))) in
        let percentage := ndiv clickX (Fin (width rect)) in
        let relativeDuration := nsub (duration playerState) (startTime playerState) in
        Some (nadd (nmul percentage relativeDuration) (startTime playerState))
  end.

(** *** Stream type (lines 145-169) *)

(** [s.split(sep)] cut at the first occurrence of a separator string. *)
Fixpoint cutStr (sep s : str) : str * option str :=
  if startsWith s sep then ([], Some (skipn (length sep) s))
  else match s with
       | [] => ([], None)
       | c :: r => let (a, b) := cutStr sep r in (c :: a, b)
       end.

Record DrmInfo := mkDrm {
  scheme : option str;
  license : option str;
  token : option str
}.

Inductive StreamType := hls | dash | native.

Definition truthy (v : option str) : bool :=
  match v with Some (_ :: _) => true | _ => false end.

Definition detectStreamType (url : str) : StreamType * str * option DrmInfo :=
  let '(cleanUrl, drmInfo) :=
    match cutStr (L "?|") url with
    | (baseUrl, Some rest) =>
        let drmParams := fst (cutStr (L "?|") rest) in
        if isEmpty drmParams then (baseUrl, None)
        else
          let params :=
            match drmParams with
            | c :: r => if (code c =? 63)%N then r else drmParams
            | [] => []
            end in
          let drmScheme := searchParamsGet params (L "drmScheme") in
          let drmLicense := searchParamsGet params (L "drmLicense") in
          let token :=
            if truthy (searchParamsGet params (L "token"))
            then searchParamsGet params (L "token")
            else searchParamsGet params (L "authToken") in
          if truthy drmScheme && truthy drmLicense
          then (baseUrl, Some (mkDrm drmScheme drmLicense token))
          else if truthy token
          then (baseUrl, Some (mkDrm None None token))
          else (baseUrl, None)
    | (_, None) => (url, None)
    end in
  let urlLower := toLowerCase cleanUrl in
  let has p := includes urlLower p in
  if has (L ".m3u8") || has (L "/hls/") || has (L "hls") || has (L "/api/m3u8-proxy")
  then (hls, cleanUrl, drmInfo)
  else if has (L ".mpd") || has (L "/dash/") || has (L "dash")
  then (dash, cleanUrl, drmInfo)
  else if has (L ".mp4") || has (L ".webm") || has (L ".mov")
  then (native, cleanUrl, drmInfo)
  else if has (L "manifest") || match drmInfo with Some _ => true | None => false end
  then (dash, cleanUrl, drmInfo)
  else (hls, cleanUrl, drmInfo).

(** *** Initialisation and error handling (lines 171-350)

    The component's refs are the state; what the code does to the outside
    (state updates, the [onError] prop, timers, the media engines) is
    recorded as a trace.  A computation ends normally or by a throw, and
    keeps the refs and the trace in both cases. *)

Record HlsInstance := mkHls { retryCount : nat }.

Record Refs := mkRefs {
  hlsRef : option HlsInstance;
  shakaPlayerRef : bool;
  playerTypeRef : option PlayerType;
  loadingTimeoutRef : bool;     (* a timer handle has been stored *)
  isMountedRef : bool;
  videoRef : bool
}.

Inductive callback :=
| LoadingTimedOut | StartLoad | HandleRetry | InitializePlayer.

Inductive effect :=
| SetPlayerState (isLoading : bool) (error : option str)
| OnError
| SetTimeout (cb : callback) (ms : Z)
| ClearLoadingTimeout
| HlsDestroy
| ShakaDestroy
| VideoUnload
| HlsLoadSource (url : str)
| ShakaLoad (url : str)
| VideoSrc (url : str)
| RecoverMediaError.

Inductive outcome (A : Type) :=
| Done (a : A)
| Thrown (message : str).
Arguments Done {A} a.
Arguments Thrown {A} message.

Definition M (A : Type) : Type := Refs -> Refs * list effect * outcome A.

Definition ret {A} (a : A) : M A := fun r => (r, [], Done a).
Definition bind {A B} (m : M A) (k : A -> M B) : M B :=
  fun r =>
    match m r with
    | (r1, t1, Done a) =>
        match k a r1 with
        | (r2, t2, o) => (r2, t1 ++ t2, o)
        end
    | (r1, t1, Thrown e) => (r1, t1, Thrown e)
    end.
Definition throw {A} (e : str) : M A := fun r => (r, [], Thrown e).
Definition tryCatch {A} (m : M A) (h : str -> M A) : M A :=
  fun r =>
    match m r with
    | (r1, t1, Thrown e) =>
        match h e r1 with
        | (r2, t2, o) => (r2, t1 ++ t2, o)
        end
    | done => done
    end.
Definition emit (e : effect) : M unit := fun r => (r, [e], Done tt).
Definition get : M Refs := fun r => (r, [], Done r).
Definition put (r : Refs) : M unit := fun _ => (r, [], Done tt).
Definition when (b : bool) (m : M unit) : M unit := if b then m else ret tt.

Notation "x <- m ;; k" := (bind m (fun x => k))
  (at level 61, m at next level, right associativity).
Notation "m ;; k" := (bind m (fun _ => k))
  (at level 61, right associativity).

Record Props := mkProps {
  streamUrl : str;
  onError : bool              (* the prop is given *)
}.

(** What the browser and the two engines answer during initialisation. *)
Record Platform := mkPlatform {
  hlsImportError : option str;    (* import('hls.js') rejects *)
  hlsIsSupported : bool;          (* Hls.isSupported() *)
  canPlayHls : bool;              (* video.canPlayType(...) is not empty *)
  shakaIsSupported : bool;        (* Player.isBrowserSupported() *)
  shakaLoadError : option str     (* player.load(url) rejects *)
}.

Definition PLAYER_LOAD_TIMEOUT : Z := 15000.

Definition callOnError (props : Props) : M unit := when (onError props) (emit OnError).

Definition clearLoadingTimeout : M unit :=
  r <- get ;; when (loadingTimeoutRef r) (emit ClearLoadingTimeout).

Definition destroyPlayer : M unit :=
  r <- get ;;
  when (match hlsRef r with Some _ => true | None => false end) (emit HlsDestroy) ;;
  when (shakaPlayerRef r) (emit ShakaDestroy) ;;
  when (videoRef r) (emit VideoUnload) ;;
  when (loadingTimeoutRef r) (emit ClearLoadingTimeout) ;;
  put (mkRefs None false None (loadingTimeoutRef r) (isMountedRef r) (videoRef r)).

Definition fail (props : Props) (message : str) : M unit :=
  emit (SetPlayerState false (Some message)) ;;
  callOnError props ;;
  destroyPlayer.

Definition initNativePlayer (url : str) : M unit := emit (VideoSrc url).

Definition initHlsPlayer (props : Props) (pf : Platform) (url : str) : M unit :=
  tryCatch
    (match hlsImportError pf with
     | Some e => throw e
     | None =>
         if hlsIsSupported pf then
           r <- get ;;
           put (mkRefs (Some (mkHls 0)) (shakaPlayerRef r) (playerTypeRef r)
                  (loadingTimeoutRef r) (isMountedRef r) (videoRef r)) ;;
           emit (HlsLoadSource url)
         else if canPlayHls pf then initNativePlayer url
         else throw (L "HLS is not supported in this browser")
     end)
    (fun error => callOnError props ;; throw error).

Definition initShakaPlayer (props : Props) (pf : Platform) (url : str) : M unit :=
  tryCatch
    (if negb (shakaIsSupported pf)
     then throw (L "This browser is not supported by Shaka Player")
     else
       r <- get ;;
       when (shakaPlayerRef r) (emit ShakaDestroy) ;;
       put (mkRefs (hlsRef r) true (playerTypeRef r)
              (loadingTimeoutRef r) (isMountedRef r) (videoRef r)) ;;
       emit (ShakaLoad url) ;;
       match shakaLoadError pf with
       | Some e => throw e
       | None =>
           clearLoadingTimeout ;;
           emit (SetPlayerState false None)
       end)
    (fun error => callOnError props ;; throw error).

Definition setPlayerType (t : PlayerType) : M unit :=
  r <- get ;;
  put (mkRefs (hlsRef r) (shakaPlayerRef r) (Some t)
         (loadingTimeoutRef r) (isMountedRef r) (videoRef r)).

Definition initializePlayer (props : Props) (pf : Platform) : M unit :=
  r <- get ;;
  if isEmpty (streamUrl props) || negb (videoRef r) then
    emit (SetPlayerState false (Some (L "No stream URL provided")))
  else
    destroyPlayer ;;
    emit (SetPlayerState true None) ;;
    r <- get ;;
    put (mkRefs (hlsRef r) (shakaPlayerRef r) (playerTypeRef r)
           true (isMountedRef r) (videoRef r)) ;;
    emit (SetTimeout LoadingTimedOut PLAYER_LOAD_TIMEOUT) ;;
    tryCatch
      (let '(type, cleanUrl, _) := detectStreamType (streamUrl props) in
       match type with
       | dash => setPlayerType ShakaType ;; initShakaPlayer props pf cleanUrl
       | hls => setPlayerType HlsType ;; initHlsPlayer props pf cleanUrl
       | native => setPlayerType NativeType ;; initNativePlayer cleanUrl
       end)
      (fun error =>
         clearLoadingTimeout ;;
         emit (SetPlayerState false (Some error)) ;;
         callOnError props).

(** *** What happens later: the callbacks registered above *)

(** [Hls.ErrorTypes]: the two the listener names, and the others. *)
Inductive ErrorType := NETWORK_ERROR | MEDIA_ERROR | OTHER_ERROR.
Record ErrorData := mkErrorData { fatal : bool; type : ErrorType }.

Definition maxRetries : nat := 3.

(** The listener of [Hls.Events.ERROR] (lines 236-246), for the instance
    whose counter is [retryCount]. *)
Definition onHlsError (props : Props) (data : ErrorData) : M unit :=
  r <- get ;;
  match hlsRef r with
  | None => ret tt      (* destroyed: the engine has dropped its listeners *)
  | Some inst =>
      if negb (isMountedRef r) then ret tt
      else if fatal data then
        clearLoadingTimeout ;;
        match type data with
        | NETWORK_ERROR =>
            if retryCount inst <? maxRetries then
              let retryCount' := S (retryCount inst) in
              put (mkRefs (Some (mkHls retryCount')) (shakaPlayerRef r)
                     (playerTypeRef r) (loadingTimeoutRef r) (isMountedRef r)
                     (videoRef r)) ;;
              emit (SetTimeout StartLoad (1000 * Z.of_nat retryCount'))
            else fail props (L "Network error: Unable to load stream")
        | MEDIA_ERROR => emit RecoverMediaError
        | OTHER_ERROR => fail props (L "Playback error occurred")
        end
      else ret tt
  end.

(** The timer set at line 201. *)
Definition onLoadingTimedOut (props : Props) : M unit :=
  r <- get ;;
  when (isMountedRef r)
    (fail props (L "Stream took too long to load. Please try again.")).

(** The listener of the manifest engine's error event (lines 292-303). *)
Definition onShakaError (props : Props) (errorCode : Z) : M unit :=
  clearLoadingTimeout ;;
  let network := ((6000 <=? errorCode) && (errorCode <? 7000))%Z in
  let errorMessage :=
    if network then L "Network error - retrying..."
    else if ((4000 <=? errorCode) && (errorCode <? 5000))%Z then L "Manifest parse failed"
    else if ((1000 <=? errorCode) && (errorCode <? 2000))%Z then L "DRM error"
    else if (errorCode =? 1003)%Z then L "No playable streams"
    else L "Stream error occurred" in
  emit (SetPlayerState false (Some errorMessage)) ;;
  (if network then emit (SetTimeout HandleRetry 2000) else callOnError props) ;;
  destroyPlayer.

(** The listener of the video element's error event (lines 341-346). *)
Definition onNativeError (props : Props) : M unit :=
  r <- get ;;
  when (isMountedRef r)
    (clearLoadingTimeout ;;
     emit (SetPlayerState false (Some (L "Failed to load stream with native player"))) ;;
     callOnError props).

(** A run of error events delivered to the segment engine. *)
Fixpoint deliver (props : Props) (errors : list ErrorData) : M unit :=
  match errors with
  | [] => ret tt
  | d :: ds => onHlsError props d ;; deliver props ds
  end.

Definition trace {A} (m : M A) (r : Refs) : list effect := snd (fst (m r)).
Definition refs {A} (m : M A) (r : Refs) : Refs := fst (fst (m r)).

Definition isOnError (e : effect) : bool :=
  match e with OnError => true | _ => false end.
Definition isTeardown (e : effect) : bool :=
  match e with HlsDestroy | ShakaDestroy | VideoUnload => true | _ => false end.

(** The delays of the retries scheduled in a trace. *)
Definition retryDelays (t : list effect) : list Z :=
  flat_map (fun e => match e with
                     | SetTimeout StartLoad ms => [ms]
                     | _ => []
                     end) t.

Definition countOnError (t : list effect) : nat :=
  length (filter isOnError t).

(** *** Dragging and stepping (lines 492-507, 515-537), over the real
    numbers

    Again the computation before any rounding, and again with every
    operation rounded in the module [Binary64] that follows. *)

(** The pending target of [handleTouchMove] (lines 497-505). *)
Definition touchMoveTarget (rect : Rect) (playerState : TimeStats) (clientX : Q) : num :=
  let currentX := nsub (Fin clientX) (Fin (left rect)) in
  let percentage := nmax (Fin 0) (nmin (Fin 1) (ndiv currentX (Fin (width rect)))) in
  let relativeDuration := nsub (duration playerState) (startTime playerState) in
  nadd (nmul percentage relativeDuration) (startTime playerState).

(** What [seekBackward] and [seekForward] assign to [video.currentTime]
    when the stream is not live (lines 522 and 534). *)
Definition seekBackwardTarget (playerState : TimeStats) (videoTime : num) : num :=
  nmax (startTime playerState) (nsub videoTime (Fin 10)).
Definition seekForwardTarget (playerState : TimeStats) (videoTime : num) : num :=
  nmin (duration playerState) (nadd videoTime (Fin 10)).

(** *** The seek target and the progress bar as the language computes
    them (lines 453-462, 554-568): every operation rounds *)

Module Binary64.

Definition calculateNewTime (video : bool) (progressBar : option Rect)
    (playerState : TimeStats) (clientX : Q) : option num :=
  match progressBar with
  | None => None
  | Some rect =>
      if negb video
         || negb (isFinite (duration playerState))
         || le0 (duration playerState)
         || isLive playerState
      then None
      else
        let clickX :=
          nmax (Fin 0) (nmin (fsub (Fin clientX) (Fin (left rect))) (Fin (width rect))) in
        let percentage := fdiv clickX (Fin (width rect)) in
        let relativeDuration := fsub (duration playerState) (startTime playerState) in
        Some (fadd (fmul percentage relativeDuration) (startTime playerState))
  end.

Definition getRelativeTime (playerState : TimeStats) : num :=
  nmax (Fin 0) (fsub (currentTime playerState) (startTime playerState)).
Definition getRelativeDuration (playerState : TimeStats) : num :=
  nmax (Fin 0) (fsub (duration playerState) (startTime playerState)).
Definition currentTimePercentage (playerState : TimeStats) : num :=
  let relativeCurrent := getRelativeTime playerState in
  let relativeDur := getRelativeDuration playerState in
  if isFinite relativeDur && gt0 relativeDur && negb (isLive playerState)
  then fmul (fdiv relativeCurrent relativeDur) (Fin 100)
  else if isLive playerState then Fin 100 else Fin 0.

(** The pending target of [handleTouchMove] (lines 497-505) and the times
    that [seekBackward] and [seekForward] assign (lines 522 and 534). *)
Definition touchMoveTarget (rect : Rect) (playerState : TimeStats) (clientX : Q) : num :=
  let currentX := fsub (Fin clientX) (Fin (left rect)) in
  let percentage := nmax (Fin 0) (nmin (Fin 1) (fdiv currentX (Fin (width rect)))) in
  let relativeDuration := fsub (duration playerState) (startTime playerState) in
  fadd (fmul percentage relativeDuration) (startTime playerState).

Definition seekBackwardTarget (playerState : TimeStats) (videoTime : num) : num :=
  nmax (startTime playerState) (fsub videoTime (Fin 10)).
Definition seekForwardTarget (playerState : TimeStats) (videoTime : num) : num :=
  nmin (duration playerState) (fadd videoTime (Fin 10)).

End Binary64.

(** *** The clock (lines 353-360) *)

(** [Math.floor] *)
Definition nfloor (x : num) : num :=
  match x with Fin q => Fin (inject_Z (Qfloor q)) | _ => x end.

(** [x % y]: the quotient is truncated towards zero, and the remainder is
    exact: no rounding takes place. *)
Definition Qtrunc (q : Q) : Z := if Qltb q 0 then Qceiling q else Qfloor q.
Definition nrem (x y : num) : num :=
  match x, y with
  | NaN, _ | _, NaN | Inf _, _ => NaN
  | Fin a, Inf _ => Fin a
  | Fin a, Fin b =>
      if Qeq_bool b 0 then NaN else Fin (a - b * inject_Z (Qtrunc (a / b)))
  end.

(** [String(x)], also [x.toString()] and a number in a template literal.
    A whole number below 2^53 in absolute value is written with its decimal
    digits.  Of any other finite number the language writes the shortest
    digits that read back as the number, in decimal or in exponent
    notation; that is not needed for a clock below 2^53 seconds and is left
    out: [None]. *)
Definition showZ (z : Z) : str :=
  L (NilZero.string_of_uint (N.to_uint (Z.to_N z))).

Definition numberToString (x : num) : option str :=
  match x with
  | NaN => Some (L "NaN")
  | Inf negative => Some (if negative then L "-Infinity" else L "Infinity")
  | Fin q =>
      let z := Qfloor q in
      if Qeq_bool (inject_Z z) q && (Z.abs z <? 2 ^ 53)%Z
      then Some (if (z <? 0)%Z then L "-" ++ showZ (- z) else showZ z)
      else None
  end.

(** [s.padStart(2, '0')] *)
Definition pad2 (s : str) : str :=
  match s with
  | [] => [chr 48; chr 48]
  | [c] => [chr 48; c]
  | _ => s
  end.

Definition formatTime (time : num) : option str :=
  if negb (isFinite time) || lt0 time then Some (L "0:00")
  else
    let hours := nfloor (fdiv time (Fin 3600)) in
    let minutes := nfloor (fdiv (nrem time (Fin 3600)) (Fin 60)) in
    let seconds := nfloor (nrem time (Fin 60)) in
    if gt0 hours
    then match numberToString hours, numberToString minutes, numberToString seconds with
         | Some h, Some m, Some s => Some (h ++ L ":" ++ pad2 m ++ L ":" ++ pad2 s)
         | _, _, _ => None
         end
    else match numberToString minutes, numberToString seconds with
         | Some m, Some s => Some (m ++ L ":" ++ pad2 s)
         | _, _ => None
         end.

(** A run of any events of the segment engine does not tear it down. *)
Definition isRetry (e : effect) : bool :=
  match e with SetTimeout StartLoad _ => true | _ => false end.
Definition isEngineDestroy (e : effect) : bool :=
  match e with HlsDestroy | ShakaDestroy => true | _ => false end.
Definition isRecover (e : effect) : bool :=
  match e with RecoverMediaError => true | _ => false end.

End VideoPlayer.

(* ================================================================== *)
(** ** src/pages/EventPlayer.tsx *)
(* ================================================================== *)

Module EventPlayer.

(** The component's state that the handler reads: the event (null until
    loaded) with its links, the cursor and the auto-retry flag. *)
Record State (Link : Type) := mkState {
  event : option (list Link);       (* event.links *)
  currentLinkIndex : Z;
  autoRetry : bool
}.
Arguments mkState {Link}.
Arguments event {Link}.
Arguments currentLinkIndex {Link}.
Arguments autoRetry {Link}.

(** [handleVideoError] (lines 60-69) returns the update it passes to
    [setCurrentLinkIndex], if any: the test reads the cursor of the render
    that created the handler, the update is applied to the cursor at the
    time it runs. *)
Definition handleVideoError {Link} (s : State Link) : option (Z -> Z) :=
  match event s with
  | None => None
  | Some links =>
      if negb (autoRetry s) then None
      else if (currentLinkIndex s <? Z.of_nat (length links) - 1)%Z
      then Some (fun prev => (prev + 1)%Z)
      else Some (fun _ => 0%Z)
  end.

(** The render that follows [k] calls of the handler of one render.  The
    calls run the same closure: each makes the same test, on the cursor of
    that render, and queues the same update; the queued updates are applied
    one after the other when the component renders again. *)
Definition afterErrors {Link} (k : nat) (s : State Link) : State Link :=
  match handleVideoError s with
  | None => s
  | Some update =>
      mkState (event s) (Nat.iter k update (currentLinkIndex s)) (autoRetry s)
  end.

(** [event.links[currentLinkIndex]] (line 99): undefined outside the
    list.  Line 107 reads [currentLink.url]. *)
Definition currentLink {Link} (s : State Link) : option Link :=
  match event s with
  | None => None
  | Some links =>
      if (currentLinkIndex s <? 0)%Z then None
      else nth_error links (Z.to_nat (currentLinkIndex s))
  end.

(** The cursors of the renders of a run: the n-th render receives as many
    reports as the n-th number says. *)
Fixpoint activeIndices {Link} (reports : list nat) (s : State Link) : list Z :=
  match reports with
  | [] => []
  | k :: reports' => currentLinkIndex s :: activeIndices reports' (afterErrors k s)
  end.

End EventPlayer.

(* ================================================================== *)
(** ** Sample inputs *)
(* ================================================================== *)

Module Samples.
Import JS ManifestProxy.

Definition CR : ascii := chr 13.

Definition allowed0 : list str := [L "https://imshep.vercel.app"].

(** The proxy is asked for https://host/hls/index.m3u8. *)
Definition request0 : Request :=
  mkRequest (L "GET") None None
    (mkURL (L "https:") (L "proxy.example") (L "/api/m3u8-proxy")
           (L "url=https%3A%2F%2Fhost%2Fhls%2Findex.m3u8")).
Definition target0 : str := L "https://host/hls/index.m3u8".
Definition base0 : URL :=
  mkURL (L "https:") (L "host") (L "/hls/index.m3u8") [].

Definition parse0 (s : str) : option URL :=
  if streq s target0 then Some base0 else None.

Definition playlist0 : str :=
  L "#EXTM3U" ++ [LF]
  ++ L "#EXT-X-KEY:METHOD=AES-128,URI=" ++ [quote] ++ L "key.bin" ++ [quote] ++ [LF]
  ++ L "#EXTINF:10," ++ [LF]
  ++ L "seg0.ts" ++ [LF]
  ++ L "/abs/seg1.ts" ++ [LF]
  ++ L "//cdn.example/seg2.ts" ++ [LF]
  ++ L "http://other.example/seg3.ts".

Definition upstream (contentType : string) (finalUrl body : str) : Upstream :=
  mkUpstream true 200 (L "OK") (Some (L contentType)) None None None finalUrl body.

Definition response0 : Upstream :=
  upstream "application/vnd.apple.mpegurl" target0 playlist0.

Definition fetchGives (r : Upstream) : str -> list (str * str) -> FetchOutcome :=
  fun _ _ => Fulfilled r.

(** The same playlist address, answered with lines that end in CR LF. *)
Definition segmentCR : str := L "seg0.ts" ++ [CR].
Definition responseCR : Upstream :=
  upstream "application/vnd.apple.mpegurl" target0 segmentCR.

Definition tagCR : str := L "#EXTM3U" ++ [CR].
Definition responseTagCR : Upstream :=
  upstream "application/vnd.apple.mpegurl" target0 tagCR.

(** A media segment served below a path that contains a playlist name. *)
Definition segmentTarget : str := L "https://host/hls/index.m3u8/seg0.ts".
Definition segmentRequest : Request :=
  mkRequest (L "GET") None None
    (mkURL (L "https:") (L "proxy.example") (L "/api/m3u8-proxy")
           (L "url=https%3A%2F%2Fhost%2Fhls%2Findex.m3u8%2Fseg0.ts")).
Definition segmentBase : URL :=
  mkURL (L "https:") (L "host") (L "/hls/index.m3u8/seg0.ts") [].
Definition segmentParse (s : str) : option URL :=
  if streq s segmentTarget then Some segmentBase else None.
Definition segmentResponse : Upstream :=
  upstream "video/mp2t" segmentTarget (L "G@").

(** A stream address with a percent escape in its path. *)
Definition escapedUrl : str := L "http://host/live%20tv/index.m3u8".

(** A catalog playlist with two entries. *)
Definition catalog0 : str :=
  L "#EXTM3U" ++ [LF]
  ++ L "#EXTINF:-1 tvg-name=" ++ [quote] ++ L "BBC One HD" ++ [quote]
  ++ L " group-title=" ++ [quote] ++ L "UK" ++ [quote] ++ L ",BBC One" ++ [LF]
  ++ L "http://stream.example/bbc.m3u8" ++ [LF]
  ++ L "#EXTINF:-1,Sky News" ++ [LF]
  ++ L "http://stream.example/sky.m3u8" ++ [LF].

(** A catalog playlist whose first entry has a blank name. *)
Definition blankFirst : str :=
  L "#EXTM3U" ++ [LF]
  ++ L "#EXTINF:-1 tvg-name=" ++ [quote] ++ L " " ++ [quote] ++ L ",First" ++ [LF]
  ++ L "http://stream.example/a.m3u8" ++ [LF]
  ++ L "#EXTINF:-1,Second" ++ [LF]
  ++ L "http://stream.example/b.m3u8" ++ [LF].

(** A live stream with a DVR window of 100 s, as the video element
    reports it. *)
Definition dvrVideo : VideoPlayer.Video :=
  VideoPlayer.mkVideo (VideoPlayer.Fin 12) (VideoPlayer.Inf false)
    [(VideoPlayer.Fin 0, VideoPlayer.Fin 100)].

(** A video whose native seek range ends at the largest number of the
    format and starts at 3 * 2^970. *)
Definition enormousVideo : VideoPlayer.Video :=
  VideoPlayer.mkVideo (VideoPlayer.Fin 0) (VideoPlayer.Inf false)
    [(VideoPlayer.Fin (3 * VideoPlayer.pow2 970)%Q, VideoPlayer.Fin VideoPlayer.maxFinite)].

(** A window of a recording that does not start at 0: from 36.911 s to
    660.391 s, as the numbers of the format nearest to these. *)
Definition dvrWindow : VideoPlayer.TimeStats :=
  VideoPlayer.mkTimeStats (VideoPlayer.rnd (36911 # 1000))
    (VideoPlayer.rnd (660391 # 1000)) (VideoPlayer.rnd (36911 # 1000)) false.

(** A ten-minute video and a progress bar 200 px wide at x = 20. *)
Definition vod : VideoPlayer.TimeStats :=
  VideoPlayer.mkTimeStats (VideoPlayer.Fin 0) (VideoPlayer.Fin 600)
    (VideoPlayer.Fin 0) false.
Definition bar : VideoPlayer.Rect := VideoPlayer.mkRect 20 200.
Definition collapsedBar : VideoPlayer.Rect := VideoPlayer.mkRect 20 0.

(** A browser without Media Source Extensions and without native HLS. *)
Definition plainBrowser : VideoPlayer.Platform :=
  VideoPlayer.mkPlatform None false false true None.
Definition liveProps : VideoPlayer.Props :=
  VideoPlayer.mkProps (L "https://host/live/channel1") true.
Definition mounted : VideoPlayer.Refs :=
  VideoPlayer.mkRefs None false None false true true.

(** A request from the allowed page, for bytes 0-99 of a segment. *)
Definition rangeRequest : Request :=
  mkRequest (L "GET") (Some (L "https://imshep.vercel.app")) (Some (L "bytes=0-99"))
    (url request0).

(** A playlist without references or attributes. *)
Definition plainPlaylist : str :=
  L "#EXTM3U" ++ [LF] ++ L "#EXT-X-VERSION:3" ++ [LF] ++ [LF] ++ L "#EXT-X-ENDLIST".

(** The catalog endpoint is asked for the sample catalog by the allowed
    page. *)
Definition catalogRequest : ParseM3U.Endpoint.Request :=
  ParseM3U.Endpoint.mkRequest (L "POST") (Some (L "https://imshep.vercel.app"))
    (inr (ParseM3U.Endpoint.mkFields (Some (L "sports")) (Some (L "Sports"))
            (Some (L "http://lists.example/sports.m3u")))).
Definition catalogFetch (u : str) : ParseM3U.Endpoint.FetchOutcome :=
  ParseM3U.Endpoint.Fulfilled (ParseM3U.Endpoint.mkUpstream true 200 (L "OK") catalog0).

End Samples.

(* ================================================================== *)
(** ** Properties of the primitives *)
(* ================================================================== *)

Import JS.

Section Strings.

Lemma startsWith_app (s p : str) :
  startsWith s p = true -> s = p ++ skipn (length p) s.
Proof.
  revert s; induction p as [|b p IH]; intros s H; [reflexivity|].
  destruct s as [|a s]; simpl in H; [discriminate|].
  apply andb_prop in H as [Hab Hs].
  apply Ascii.eqb_eq in Hab; subst b.
  simpl. f_equal. now apply IH.
Qed.

Lemma startsWith_prefix (p r : str) : startsWith (p ++ r) p = true.
Proof.
  induction p as [|b p IH]; [reflexivity|].
  simpl. now rewrite Ascii.eqb_refl, IH.
Qed.

Lemma startsWith_shorter (s p x : str) :
  startsWith s (p ++ x) = true -> startsWith s p = true.
Proof.
  revert s; induction p as [|b p IH]; intros s H; [reflexivity|].
  destruct s as [|a s]; simpl in *; [discriminate|].
  apply andb_prop in H as [Hab Hs].
  rewrite Hab. simpl. now apply IH.
Qed.

Lemma includes_cons (c : ascii) (s p : str) :
  includes s p = true -> includes (c :: s) p = true.
Proof. intros H. simpl. rewrite H. apply orb_true_r. Qed.

Lemma includes_app_l (a s p : str) :
  includes s p = true -> includes (a ++ s) p = true.
Proof. intros H. induction a; [assumption|]. now apply includes_cons. Qed.

(** [includes] finds exactly the occurrences. *)
Lemma includes_spec (s p : str) :
  includes s p = true <-> exists a b, s = a ++ p ++ b.
Proof.
  split.
  - induction s as [|c s IH]; simpl; intros H.
    + rewrite orb_false_r in H. apply startsWith_app in H.
      exists [], (skipn (length p) []). exact H.
    + apply orb_prop in H as [H|H].
      * apply startsWith_app in H. exists [], (skipn (length p) (c :: s)). exact H.
      * destruct (IH H) as (a & b & ->). now exists (c :: a), b.
  - intros (a & b & ->). apply includes_app_l.
    destruct (p ++ b) eqn:E; simpl; rewrite <- E, startsWith_prefix; reflexivity.
Qed.

Lemma includes_prefix (s p x : str) :
  includes s (p ++ x) = true -> includes s p = true.
Proof.
  rewrite !includes_spec. intros (a & b & ->).
  exists a, (x ++ b). now rewrite <- app_assoc.
Qed.

Lemma includes_suffix (s x p : str) :
  includes s (x ++ p) = true -> includes s p = true.
Proof.
  rewrite !includes_spec. intros (a & b & ->).
  exists (a ++ x), b. now rewrite <- !app_assoc.
Qed.

Lemma endsWith_includes (s p : str) :
  endsWith s p = true -> includes s p = true.
Proof.
  unfold endsWith. intros H. apply startsWith_app in H.
  apply includes_spec.
  exists (rev (skipn (length (rev p)) (rev s))), [].
  rewrite app_nil_r.
  rewrite <- (rev_involutive s), H at 1.
  now rewrite rev_app_distr, rev_involutive.
Qed.

(** *** Lines *)

Lemma split_not_nil (sep : ascii) (s : str) : split sep s <> [].
Proof.
  induction s as [|c s IH]; simpl; [discriminate|].
  destruct (Ascii.eqb c sep); [discriminate|].
  destruct (split sep s); discriminate.
Qed.

Lemma split_no_sep (sep : ascii) (s : str) :
  Forall (fun l => ~ In sep l) (split sep s).
Proof.
  induction s as [|c s IH]; simpl.
  - constructor; [intros []|constructor].
  - destruct (Ascii.eqb c sep) eqn:E.
    + constructor; [intros []|assumption].
    + destruct (split sep s) as [|l ls].
      * constructor; [|constructor].
        intros [->|[]]. now rewrite Ascii.eqb_refl in E.
      * inversion IH; subst. constructor; [|assumption].
        intros [->|Hin]; [now rewrite Ascii.eqb_refl in E|contradiction].
Qed.

Lemma split_app_sep (sep : ascii) (l r : str) :
  ~ In sep l -> split sep (l ++ sep :: r) = l :: split sep r.
Proof.
  induction l as [|c l IH]; simpl; intros Hl.
  - now rewrite Ascii.eqb_refl.
  - destruct (Ascii.eqb c sep) eqn:E.
    + apply Ascii.eqb_eq in E. subst. tauto.
    + rewrite IH; tauto.
Qed.

Lemma split_single (sep : ascii) (l : str) :
  ~ In sep l -> split sep l = [l].
Proof.
  induction l as [|c l IH]; simpl; intros Hl; [reflexivity|].
  destruct (Ascii.eqb c sep) eqn:E.
  - apply Ascii.eqb_eq in E. subst. tauto.
  - rewrite IH; tauto.
Qed.

(** Joining and splitting again gives the lines back, when no line
    contains the separator. *)
Lemma split_join (sep : ascii) (ls : list str) :
  ls <> [] -> Forall (fun l => ~ In sep l) ls -> split sep (join sep ls) = ls.
Proof.
  induction ls as [|l ls IH]; [congruence|].
  intros _ HF. inversion HF as [|? ? Hl Hls]; subst.
  destruct ls as [|l' ls'].
  - now apply split_single.
  - change (join sep (l :: l' :: ls')) with (l ++ sep :: join sep (l' :: ls')).
    rewrite split_app_sep by assumption.
    f_equal. apply IH; [discriminate|assumption].
Qed.

(** *** Trimming only removes characters *)

Lemma in_skipn (n : nat) (c : ascii) (s : str) : In c (skipn n s) -> In c s.
Proof.
  revert s; induction n; intros s H; [assumption|].
  destruct s; simpl in *; auto.
Qed.

Lemma dropWhileLen_incl (len : str -> nat) (n : nat) (c : ascii) (s : str) :
  In c (dropWhileLen len n s) -> In c s.
Proof.
  revert s; induction n as [|n IH]; intros s H; [assumption|].
  cbn [dropWhileLen] in H. destruct (len s) as [|k]; [assumption|].
  apply IH in H. eapply in_skipn; eassumption.
Qed.

Lemma trim_incl (c : ascii) (s : str) : In c (trim s) -> In c s.
Proof.
  unfold trim, trimEnd, trimStart. intros H.
  apply in_rev, dropWhileLen_incl, in_rev, dropWhileLen_incl in H.
  exact H.
Qed.

(** The fuel given to the trimming loops is enough: no white space is
    left at the trimmed end. *)
Lemma dropWhileLen_done (len : str -> nat) (n : nat) (s : str) :
  len [] = O -> (length s <= n)%nat -> len (dropWhileLen len n s) = O.
Proof.
  intros Hnil. revert s; induction n as [|k IH]; intros s Hs.
  - destruct s; [exact Hnil|simpl in Hs; lia].
  - cbn [dropWhileLen]. destruct (len s) as [|j] eqn:E; [exact E|].
    apply IH. rewrite length_skipn. lia.
Qed.

Lemma trimStart_done (s : str) : wsLen (trimStart s) = O.
Proof. apply dropWhileLen_done; [reflexivity|apply Nat.le_refl]. Qed.

Lemma trimEnd_done (s : str) : wsLenRev (rev (trimEnd s)) = O.
Proof.
  unfold trimEnd. rewrite rev_involutive.
  apply dropWhileLen_done; [reflexivity|]. now rewrite length_rev.
Qed.

(** *** Percent encoding produces no line break *)

Lemma encode_char_no_LF (x : ascii) :
  forallb (fun c => negb (Ascii.eqb c LF))
    (if isUnreserved x then [x] else pct x) = true.
Proof. destruct x as [[] [] [] [] [] [] [] []]; reflexivity. Qed.

Lemma encodeURIComponent_no_LF (s : str) : ~ In LF (encodeURIComponent s).
Proof.
  unfold encodeURIComponent. intros H.
  apply in_flat_map in H as (x & _ & Hx).
  pose proof (encode_char_no_LF x) as E.
  rewrite forallb_forall in E. specialize (E _ Hx).
  now rewrite Ascii.eqb_refl in E.
Qed.

End Strings.

(* ================================================================== *)
(** ** The manifest proxy *)
(* ================================================================== *)

Import ManifestProxy.

Section Rewriting.

Lemma noLF_spec (s : str) : noLF s = true <-> ~ In LF s.
Proof.
  unfold noLF. rewrite negb_true_iff. split.
  - intros H Hin. assert (E : existsb (Ascii.eqb LF) s = true).
    { apply existsb_exists. exists LF. split; [assumption|apply Ascii.eqb_refl]. }
    congruence.
  - intros H. destruct (existsb (Ascii.eqb LF) s) eqn:E; [|reflexivity].
    apply existsb_exists in E as (x & Hx & Ex).
    apply Ascii.eqb_eq in Ex. subst. contradiction.
Qed.

Lemma span_spec (f : ascii -> bool) (s a b : str) :
  span f s = (a, b) ->
  s = a ++ b /\ match b with [] => True | c :: _ => f c = false end.
Proof.
  revert a b; induction s as [|c s IH]; simpl; intros a b H.
  - inversion H; subst. split; [reflexivity|exact I].
  - destruct (f c) eqn:E.
    + destruct (span f s) as [a' b'] eqn:Es. inversion H; subst.
      destruct (IH _ _ eq_refl) as [-> Hb]. split; [reflexivity|assumption].
    + inversion H; subst. split; [reflexivity|assumption].
Qed.

(** A match of the quoted-value pattern is the opening text, the value,
    a quote, and the rest. *)
Lemma matchQuotedAt_spec (open s v rest : str) :
  matchQuotedAt open s = Some (v, rest) ->
  s = open ++ v ++ quote :: rest.
Proof.
  unfold matchQuotedAt. destruct (startsWith s open) eqn:Hs; [|discriminate].
  apply startsWith_app in Hs.
  destruct (span notQuote (skipn (length open) s)) as [a b] eqn:Esp.
  destruct a as [|x a]; [discriminate|].
  destruct b as [|y b]; [discriminate|].
  intros H. inversion H; subst v rest.
  apply span_spec in Esp as [Esk Hq].
  unfold notQuote in Hq. apply negb_false_iff, Ascii.eqb_eq in Hq. subst y.
  rewrite Hs at 1. now rewrite Esk.
Qed.

(** The pieces found by the scan make up the line. *)
Lemma render_asWritten (n : nat) (s : str) :
  render asWritten (scanUri n s) = s.
Proof.
  revert s; induction n as [|n IH]; intros s.
  - simpl. induction s as [|c s IHs]; [reflexivity|]. simpl. now f_equal.
  - cbn [scanUri]. destruct (matchUriAt s) as [[uri rest]|] eqn:E.
    + apply matchQuotedAt_spec in E. simpl. rewrite IH, E.
      unfold asWritten. now rewrite <- !app_assoc.
    + destruct s as [|c s]; [reflexivity|]. simpl. now rewrite IH.
Qed.

Lemma scanUri_chars (n : nat) (c : ascii) (s : str) :
  In (Chr c) (scanUri n s) -> In c s.
Proof.
  revert s; induction n as [|n IH]; intros s H.
  - simpl in H. apply in_map_iff in H as (x & Hx & Hin). now inversion Hx; subst.
  - cbn [scanUri] in H. destruct (matchUriAt s) as [[uri rest]|] eqn:E.
    + destruct H as [H|H]; [discriminate|].
      apply IH in H. apply matchQuotedAt_spec in E. rewrite E.
      apply in_or_app. right. apply in_or_app. right. now right.
    + destruct s as [|x s]; [contradiction|].
      destruct H as [H|H]; [inversion H; now left|right; now apply IH].
Qed.

Lemma matchQuotedAt_shorter (open s v rest : str) :
  matchQuotedAt open s = Some (v, rest) -> (length rest < length s)%nat.
Proof.
  intros E. apply matchQuotedAt_spec in E. rewrite E.
  rewrite !length_app. cbn [length]. lia.
Qed.

(** The fuel given to the scan is enough: more of it changes nothing. *)
Lemma scanUri_fuel (n m : nat) (s : str) :
  (length s <= n)%nat -> (length s <= m)%nat -> scanUri n s = scanUri m s.
Proof.
  revert m s; induction n as [|n IH]; intros m s Hn Hm.
  - destruct s; [|simpl in Hn; lia]. destruct m; reflexivity.
  - destruct m as [|m].
    + destruct s; [reflexivity|simpl in Hm; lia].
    + cbn [scanUri]. destruct (matchUriAt s) as [[uri rest]|] eqn:E.
      * apply matchQuotedAt_shorter in E. f_equal. apply IH; lia.
      * destruct s as [|c r]; [reflexivity|]. simpl in Hn, Hm.
        f_equal. apply IH; lia.
Qed.

Variables url baseUrl : URL.

Hypothesis proxy_noLF : noLF (origin url ++ pathname url) = true.

Lemma proxied_no_LF (absoluteUrl : str) : ~ In LF (proxied url absoluteUrl).
Proof.
  unfold proxied. rewrite app_assoc. intros H.
  apply in_app_or in H as [H|H].
  - now apply noLF_spec in proxy_noLF.
  - apply in_app_or in H as [H|H].
    + revert H. vm_compute. intuition discriminate.
    + now apply encodeURIComponent_no_LF in H.
Qed.

Lemma uriCallback_no_LF (basePath uri : str) :
  ~ In LF (uriCallback url baseUrl basePath uri).
Proof.
  unfold uriCallback. intros H.
  apply in_app_or in H as [H|H].
  - revert H. vm_compute. intuition discriminate.
  - apply in_app_or in H as [H|H].
    + now apply proxied_no_LF in H.
    + revert H. vm_compute. intuition discriminate.
Qed.

Lemma rewriteLine_no_LF (basePath line : str) :
  ~ In LF line -> ~ In LF (rewriteLine url baseUrl basePath line).
Proof.
  intros Hl. assert (Ht : ~ In LF (trim line)) by (intros H; now apply trim_incl in H).
  unfold rewriteLine.
  destruct (isEmpty (trim line) || startsWith (trim line) (L "#EXT")).
  - destruct (includes (trim line) uriOpen); [|assumption].
    unfold replaceUri, render. intros H.
    apply in_flat_map in H as ([c|uri] & Hp & Hc).
    + destruct Hc as [Hc|[]]. subst c. now apply scanUri_chars in Hp.
    + now apply uriCallback_no_LF in Hc.
  - destruct (negb (startsWith (trim line) (L "#"))); [|assumption].
    apply proxied_no_LF.
Qed.

(** What [span] takes satisfies the test. *)
Lemma span_all (f : ascii -> bool) (s a b : str) :
  span f s = (a, b) -> Forall (fun c => f c = true) a.
Proof.
  revert a b; induction s as [|c s IH]; simpl; intros a b H.
  - inversion H; subst. constructor.
  - destruct (f c) eqn:E.
    + destruct (span f s) as [a' b'] eqn:Es. inversion H; subst.
      constructor; [exact E|]. now apply (IH a' b).
    + inversion H; subst. constructor.
Qed.

Lemma span_stop (f : ascii -> bool) (v : str) (c : ascii) (rest : str) :
  Forall (fun x => f x = true) v -> f c = false ->
  span f (v ++ c :: rest) = (v, c :: rest).
Proof.
  intros Hv Hc. induction Hv as [|x v Hx Hv IH]; simpl.
  - now rewrite Hc.
  - now rewrite Hx, IH.
Qed.

Lemma notQuote_spec (v : str) :
  Forall (fun x => notQuote x = true) v <-> ~ In quote v.
Proof.
  unfold notQuote. split.
  - intros H Hin. rewrite Forall_forall in H. specialize (H _ Hin).
    now rewrite Ascii.eqb_refl in H.
  - intros H. apply Forall_forall. intros x Hx.
    destruct (Ascii.eqb x quote) eqn:E; [|reflexivity].
    apply Ascii.eqb_eq in E. now subst.
Qed.

(** The anchored match finds an attribute exactly where one stands. *)
Lemma matchQuotedAt_sound (open s v rest : str) :
  matchQuotedAt open s = Some (v, rest) ->
  s = open ++ v ++ quote :: rest /\ v <> [] /\ ~ In quote v.
Proof.
  intros H. split; [now apply matchQuotedAt_spec|].
  unfold matchQuotedAt in H. destruct (startsWith s open); [|discriminate].
  destruct (span notQuote (skipn (length open) s)) as [a b] eqn:Esp.
  destruct a as [|x a]; [discriminate|].
  destruct b as [|y b]; [discriminate|].
  inversion H; subst v rest. split; [discriminate|].
  apply notQuote_spec. now apply span_all in Esp.
Qed.

Lemma matchQuotedAt_complete (open v rest : str) :
  v <> [] -> ~ In quote v ->
  matchQuotedAt open (open ++ v ++ quote :: rest) = Some (v, rest).
Proof.
  intros Hne Hq. unfold matchQuotedAt.
  rewrite startsWith_prefix.
  replace (skipn (length open) (open ++ v ++ quote :: rest)) with (v ++ quote :: rest).
  - rewrite span_stop.
    + destruct v; [congruence|reflexivity].
    + now apply notQuote_spec.
    + unfold notQuote. now rewrite Ascii.eqb_refl.
  - induction open as [|c o IH]; [reflexivity|exact IH].
Qed.

(** The scan reads the attributes of a line as [Scanned] describes. *)
Lemma scanUri_Scanned (n : nat) (s : str) :
  (length s <= n)%nat -> Scanned s (scanUri n s).
Proof.
  revert s; induction n as [|n IH]; intros s Hn.
  - destruct s; [constructor|simpl in Hn; lia].
  - cbn [scanUri]. destruct (matchUriAt s) as [[uri rest]|] eqn:E.
    + pose proof (matchQuotedAt_shorter _ _ _ _ E) as Hlen.
      apply matchQuotedAt_sound in E as (-> & Hne & Hq).
      replace (uriOpen ++ uri ++ quote :: rest) with (asWritten uri ++ rest)
        by (unfold asWritten; now rewrite <- !app_assoc).
      constructor; [exact Hne|exact Hq|]. apply IH. lia.
    + destruct s as [|c r]; [constructor|]. constructor.
      * intros uri rest Hne Hq Heq.
        unfold matchUriAt in E. rewrite Heq in E. unfold asWritten in E.
        rewrite <- !app_assoc in E. cbn [app] in E.
        now rewrite matchQuotedAt_complete in E.
      * apply IH. simpl in Hn. lia.
Qed.

(** A line is read in one way only. *)
Lemma Scanned_unique (s : str) (ps qs : list piece) :
  Scanned s ps -> Scanned s qs -> ps = qs.
Proof.
  intros H. revert qs. induction H as [|uri rest ps Hne Hq H IH|c s ps Hno H IH];
    intros qs Hqs.
  - remember [] as t eqn:Et. destruct Hqs; [reflexivity| |discriminate Et].
    unfold asWritten, uriOpen in Et. discriminate Et.
  - remember (asWritten uri ++ rest) as t eqn:Et.
    destruct Hqs as [|uri' rest' qs Hne' Hq' H'|c s qs Hno H'].
    + destruct uri; discriminate Et.
    + assert (E : matchUriAt (asWritten uri ++ rest) = Some (uri', rest')).
      { rewrite <- Et. unfold matchUriAt, asWritten. rewrite <- !app_assoc.
        now apply matchQuotedAt_complete. }
      unfold matchUriAt, asWritten in E. rewrite <- !app_assoc in E. cbn [app] in E.
      rewrite matchQuotedAt_complete in E by assumption.
      inversion E; subst uri' rest'. f_equal. now apply IH.
    + exfalso. now apply (Hno uri rest).
  - inversion Hqs as [|uri rest qs' Hne Hq H' E|c' s' qs' Hno' H' E]; subst.
    + exfalso. apply (Hno uri rest Hne Hq). now symmetry.
    + f_equal. now apply IH.
Qed.

(** Without the opening of an attribute, a line has no match. *)
Lemma scanUri_plain (n : nat) (s : str) :
  includes s uriOpen = false -> scanUri n s = map Chr s.
Proof.
  revert s; induction n as [|n IH]; intros s H; [reflexivity|].
  cbn [scanUri]. unfold matchUriAt, matchQuotedAt.
  assert (Hs : startsWith s uriOpen = false).
  { destruct s; [reflexivity|]. cbn [includes] in H.
    now apply orb_false_iff in H as [H _]. }
  rewrite Hs. destruct s as [|c r]; [reflexivity|].
  cbn [map]. f_equal. apply IH.
  cbn [includes] in H. now apply orb_false_iff in H as [_ H].
Qed.

Lemma render_chars (f : str -> str) (s : str) : render f (map Chr s) = s.
Proof.
  unfold render. induction s as [|c r IH]; [reflexivity|]. simpl. now rewrite IH.
Qed.

(** What one line becomes: a reference line, its proxied URL; a tag line
    (one that starts with #EXT), itself trimmed with every URI attribute
    replaced; an empty line or a comment, itself trimmed. *)
Lemma rewriteLine_cases (basePath line : str) :
  let t := trim line in
  let o := rewriteLine url baseUrl basePath line in
  (t <> [] /\ startsWith t (L "#") = false /\
   o = proxied url (resolveUrl t baseUrl basePath))
  \/ (startsWith t (L "#EXT") = true /\
      exists pieces,
        Scanned t pieces /\
        o = render (uriCallback url baseUrl basePath) pieces)
  \/ ((t = [] \/ (startsWith t (L "#") = true /\ startsWith t (L "#EXT") = false))
      /\ o = t).
Proof.
  intros t o. subst o. unfold rewriteLine. fold t.
  destruct t as [|c r] eqn:Et.
  - right. right. split; [now left|reflexivity].
  - cbn [isEmpty orb].
    destruct (startsWith (c :: r) (L "#EXT")) eqn:Hext.
    + right. left. split; [reflexivity|].
      exists (scanUri (length (c :: r)) (c :: r)). split.
      * now apply scanUri_Scanned.
      * destruct (includes (c :: r) uriOpen) eqn:Hi; [reflexivity|].
        rewrite scanUri_plain by exact Hi. now rewrite render_chars.
    + destruct (startsWith (c :: r) (L "#")) eqn:Hhash; cbn [negb].
      * right. right. split; [right; now split|reflexivity].
      * left. repeat split. discriminate.
Qed.

(** The output of the rewriting, line by line. *)
Lemma split_rewritePlaylist (text : str) :
  split LF (rewritePlaylist url baseUrl text)
  = map (rewriteLine url baseUrl (basePathOf baseUrl)) (split LF text).
Proof.
  unfold rewritePlaylist. apply split_join.
  - intros E. apply map_eq_nil in E. now apply split_not_nil in E.
  - apply Forall_map. eapply Forall_impl; [|apply split_no_sep].
    intros l Hl. now apply rewriteLine_no_LF.
Qed.

End Rewriting.

Section Served.

Variable ALLOWED_ORIGINS : list str.
Variable parseURL : str -> option URL.
Variable fetch : str -> list (str * str) -> FetchOutcome.
Variable request : Request.
Variable targetUrl : str.
Variable response : Upstream.
Variable baseUrl : URL.

(** The request passes the checks of lines 32-66, the upstream answers
    with a success, and the final URL of the answer parses. *)
Hypothesis not_preflight : streq (method request) (L "OPTIONS") = false.
Hypothesis origin_accepted :
  truthy (originHeader request)
  && negb (allowed ALLOWED_ORIGINS (orEmpty (originHeader request))) = false.
Hypothesis target_given :
  searchParamsGet (search (url request)) (L "url") = Some targetUrl.
Hypothesis target_not_empty : isEmpty targetUrl = false.
Hypothesis fetched :
  fetch targetUrl (upstreamHeaders parseURL request targetUrl) = Fulfilled response.
Hypothesis fetched_ok : ok response = true.
Hypothesis final_url : parseURL (finalUrl response) = Some baseUrl.

Let contentType := orEmpty (contentTypeHeader response).
Let answer := handler ALLOWED_ORIGINS parseURL fetch request.

Lemma handler_served :
  r_body answer =
  if isPlaylist contentType targetUrl
  then BodyText (rewritePlaylist (url request) baseUrl (body response))
  else BodyStream (body response).
Proof.
  subst answer contentType. unfold handler.
  rewrite not_preflight, origin_accepted, target_given.
  unfold truthy at 1. cbn [orEmpty]. rewrite target_not_empty. cbn [negb].
  rewrite fetched, fetched_ok. cbn [negb].
  destruct (isPlaylist _ _); [rewrite final_url|]; reflexivity.
Qed.

Hypothesis is_playlist : isPlaylist contentType targetUrl = true.
Hypothesis proxy_noLF :
  noLF (origin (url request) ++ pathname (url request)) = true.

Lemma resolveUrl_Resolves (target basePath : str) :
  Resolves baseUrl basePath target (resolveUrl target baseUrl basePath).
Proof.
  unfold resolveUrl. fold (absolute target).
  destruct (absolute target) eqn:Ha; [now constructor|].
  destruct (startsWith target (L "//")) eqn:Hp; [now constructor|].
  destruct (startsWith target (L "/")) eqn:Hs; now constructor.
Qed.

(** C1 (as amended): every line that, once trimmed of surrounding white
    space, is neither empty nor starts with #, comes out as
    proxy origin + proxy path + ?url= + encodeURIComponent(r), where r is
    the trimmed line resolved by the four-tier rule against the final
    response URL and its base path. *)
Theorem reference_lines_are_proxied :
  exists text,
    r_body answer = BodyText text /\
    forall (k : nat) (line : str),
      nth_error (split LF (body response)) k = Some line ->
      isEmpty (trim line) = false ->
      startsWith (trim line) (L "#") = false ->
      exists r,
        Resolves baseUrl (basePathOf baseUrl) (trim line) r /\
        nth_error (split LF text) k
        = Some (origin (url request) ++ pathname (url request)
                ++ L "?url=" ++ encodeURIComponent r).
Proof.
  eexists. split.
  - rewrite handler_served, is_playlist. reflexivity.
  - intros k line Hk Hne Hhash.
    exists (resolveUrl (trim line) baseUrl (basePathOf baseUrl)).
    split; [apply resolveUrl_Resolves|].
    rewrite split_rewritePlaylist by exact proxy_noLF.
    rewrite nth_error_map, Hk. cbn [option_map]. f_equal.
    unfold rewriteLine. rewrite Hne, Hhash. cbn [orb negb].
    assert (Hext : startsWith (trim line) (L "#EXT") = false).
    { destruct (startsWith (trim line) (L "#EXT")) eqn:E; [|reflexivity].
      apply (startsWith_shorter _ (L "#") (L "EXT")) in E. congruence. }
    rewrite Hext. reflexivity.
Qed.

(** C2 (as amended): the output has as many lines as the input, in the
    same order, and each output line is made from the input line trimmed
    of surrounding white space: a reference line (not empty, not starting
    with #) is replaced by its proxied URL; in a tag line (starting with
    #EXT) every URI attribute, read from the left, has its quoted value
    replaced by the proxied URL of the value resolved, and every other
    character stays; an empty line and any other line starting with # stay
    as they are. *)
Theorem rewriting_preserves_lines :
  exists text,
    r_body answer = BodyText text /\
    length (split LF text) = length (split LF (body response)) /\
    forall (k : nat) (line : str),
      nth_error (split LF (body response)) k = Some line ->
      exists line',
        nth_error (split LF text) k = Some line' /\
        ((isEmpty (trim line) = false /\ startsWith (trim line) (L "#") = false /\
          line' = proxied (url request)
                    (resolveUrl (trim line) baseUrl (basePathOf baseUrl)))
         \/ (startsWith (trim line) (L "#EXT") = true /\
             exists pieces,
               Scanned (trim line) pieces /\
               line' = flat_map
                         (fun p =>
                            match p with
                            | Chr c => [c]
                            | UriAttr uri =>
                                asWritten
                                  (proxied (url request)
                                     (resolveUrl uri baseUrl (basePathOf baseUrl)))
                            end) pieces)
         \/ ((isEmpty (trim line) = true
              \/ (startsWith (trim line) (L "#") = true
                  /\ startsWith (trim line) (L "#EXT") = false))
             /\ line' = trim line)).
Proof.
  eexists. split; [|split].
  - rewrite handler_served, is_playlist. reflexivity.
  - rewrite split_rewritePlaylist by exact proxy_noLF. apply length_map.
  - intros k line Hk.
    rewrite split_rewritePlaylist by exact proxy_noLF.
    rewrite nth_error_map, Hk. cbn [option_map].
    eexists. split; [reflexivity|].
    destruct (rewriteLine_cases (url request) baseUrl (basePathOf baseUrl) line)
      as [(Hne & Hh & Ho)|[(Hext & pieces & Hp & Ho)|(Hc & Ho)]].
    + left. repeat split; try assumption.
      destruct (trim line); [congruence|reflexivity].
    + right. left. split; [exact Hext|]. exists pieces. split; [exact Hp|exact Ho].
    + right. right. split; [|exact Ho].
      destruct Hc as [E|Hc]; [left; now rewrite E|right; exact Hc].
Qed.

End Served.

Import Samples.

(** The sample request is served as a playlist: the conclusion of C1 at
    [request0], whose upstream answer is [playlist0]. *)
Lemma reference_lines_are_proxied_witness :
  exists text,
    r_body (handler allowed0 parse0 (fetchGives response0) request0) = BodyText text /\
    forall (k : nat) (line : str),
      nth_error (split LF (body response0)) k = Some line ->
      isEmpty (trim line) = false ->
      startsWith (trim line) (L "#") = false ->
      exists r,
        Resolves base0 (basePathOf base0) (trim line) r /\
        nth_error (split LF text) k
        = Some (origin (url request0) ++ pathname (url request0)
                ++ L "?url=" ++ encodeURIComponent r).
Proof.
  apply (reference_lines_are_proxied allowed0 parse0 (fetchGives response0)
           request0 target0 response0 base0); reflexivity.
Defined.

(** C1 as stated fails on a line that ends in a carriage return: the line
    is not a tag and not blank, but what comes out is not the proxied form of
    the line resolved as it stands (that would carry %0D); the code resolves
    the trimmed line. *)
Lemma reference_line_with_CR_is_trimmed :
  split LF (body responseCR) = [segmentCR]
  /\ startsWith segmentCR (L "#") = false
  /\ isEmpty segmentCR = false
  /\ exists text,
       r_body (handler allowed0 parse0 (fetchGives responseCR) request0) = BodyText text
       /\ forall r,
            Resolves base0 (basePathOf base0) segmentCR r ->
            nth_error (split LF text) 0
            <> Some (origin (url request0) ++ pathname (url request0)
                     ++ L "?url=" ++ encodeURIComponent r).
Proof.
  split; [reflexivity|]. split; [reflexivity|]. split; [reflexivity|].
  eexists. split; [reflexivity|].
  intros r Hr.
  inversion Hr as [Ha|Ha Hp|Ha Hp Hs|Ha Hs]; subst.
  - vm_compute in Ha. discriminate Ha.
  - vm_compute in Hp. discriminate Hp.
  - vm_compute in Hs. discriminate Hs.
  - vm_compute. intros E. discriminate E.
Qed.

(** The sample request again: the conclusion of C2 at [request0]. *)
Lemma rewriting_preserves_lines_witness :
  exists text,
    r_body (handler allowed0 parse0 (fetchGives response0) request0) = BodyText text /\
    length (split LF text) = length (split LF (body response0)) /\
    forall (k : nat) (line : str),
      nth_error (split LF (body response0)) k = Some line ->
      exists line',
        nth_error (split LF text) k = Some line' /\
        ((isEmpty (trim line) = false /\ startsWith (trim line) (L "#") = false /\
          line' = proxied (url request0)
                    (resolveUrl (trim line) base0 (basePathOf base0)))
         \/ (startsWith (trim line) (L "#EXT") = true /\
             exists pieces,
               Scanned (trim line) pieces /\
               line' = flat_map
                         (fun p =>
                            match p with
                            | Chr c => [c]
                            | UriAttr uri =>
                                asWritten
                                  (proxied (url request0)
                                     (resolveUrl uri base0 (basePathOf base0)))
                            end) pieces)
         \/ ((isEmpty (trim line) = true
              \/ (startsWith (trim line) (L "#") = true
                  /\ startsWith (trim line) (L "#EXT") = false))
             /\ line' = trim line)).
Proof.
  apply (rewriting_preserves_lines allowed0 parse0 (fetchGives response0)
           request0 target0 response0 base0); reflexivity.
Defined.

(** C2 as stated fails on a tag line that ends in a carriage return: the
    line is a tag with no URI attribute, so none of its characters may
    change, but the line that comes out is shorter: the carriage return is
    gone. *)
Lemma tag_line_with_CR_is_trimmed :
  split LF (body responseTagCR) = [tagCR]
  /\ startsWith tagCR (L "#EXT") = true
  /\ includes tagCR (L "URI=") = false
  /\ exists text,
       r_body (handler allowed0 parse0 (fetchGives responseTagCR) request0)
       = BodyText text
       /\ nth_error (split LF text) 0 = Some (L "#EXTM3U")
       /\ nth_error (split LF text) 0 <> Some tagCR.
Proof.
  split; [reflexivity|]. split; [reflexivity|]. split; [reflexivity|].
  eexists. split; [reflexivity|]. split; [reflexivity|].
  vm_compute. intros E. discriminate E.
Qed.

(** C8 fails on the code.  A media segment is requested whose path merely
    contains a playlist name: https://host/hls/index.m3u8/seg0.ts, answered
    with content type video/mp2t.  The content type has no HLS marker and
    the address does not end in .m3u8 or .m3u, so the answer is not a
    playlist; yet the handler does not pass it through: it decodes the
    segment as text, rewrites it and serves it as a playlist.  Lines
    136-137 test the address with [includes], under the comment that
    announces the handling of playlists, and the branch for segments and
    other content (line 185) is not taken. *)
Theorem interior_extension_is_classified_as_playlist :
  let answer := handler allowed0 segmentParse (fetchGives segmentResponse) segmentRequest in
  specIsPlaylist (orEmpty (contentTypeHeader segmentResponse)) segmentTarget = false
  /\ endsWith (toLowerCase segmentTarget) (L ".m3u8") = false
  /\ endsWith (toLowerCase segmentTarget) (L ".m3u") = false
  /\ includes (toLowerCase segmentTarget) (L ".m3u8") = true
  /\ r_body answer
     = BodyText (rewritePlaylist (url segmentRequest) segmentBase (body segmentResponse))
  /\ r_body answer <> BodyStream (body segmentResponse)
  /\ rewritePlaylist (url segmentRequest) segmentBase (body segmentResponse)
     <> body segmentResponse
  /\ In (L "Content-Type", L "application/vnd.apple.mpegurl") (r_headers answer)
  /\ ~ In (L "Content-Type", L "video/mp2t") (r_headers answer).
Proof.
  cbv zeta. repeat (split; [reflexivity|]).
  split; [discriminate|]. split; [vm_compute; discriminate|].
  split; [vm_compute; tauto|].
  vm_compute. intros H. repeat destruct H as [H|H]; try discriminate H. exact H.
Qed.

(* ================================================================== *)
(** ** The proxied-URL helpers *)
(* ================================================================== *)

Import UrlEncryption.

(** C10 fails on the code: for a stream address that contains a percent
    escape, [getOriginalUrl] does not give the address back.  The value of
    the [url] parameter is already decoded by [searchParams.get], and line 77
    decodes it a second time: %20 comes back as a space. *)
Lemma round_trip_decodes_twice :
  isEmpty escapedUrl = false
  /\ needsProxying escapedUrl = true
  /\ includes escapedUrl (L "/api/m3u8-proxy?url=") = false
  /\ getProxiedUrl escapedUrl
     = L "/api/m3u8-proxy?url=http%3A%2F%2Fhost%2Flive%2520tv%2Findex.m3u8"
  /\ urlParam (getProxiedUrl escapedUrl) = Some escapedUrl
  /\ getOriginalUrl (getProxiedUrl escapedUrl) = Some (L "http://host/live tv/index.m3u8")
  /\ getOriginalUrl (getProxiedUrl escapedUrl) <> Some escapedUrl.
Proof.
  repeat (split; [reflexivity|]).
  vm_compute. intros E. discriminate E.
Qed.

(** The escape is the only thing that goes wrong: an ASCII address without
    a percent sign makes the round trip.  The rest of this section proves
    it. *)
Section RoundTrip.

Lemma pctByte_shorter (s r : str) (b : N) :
  pctByte s = Some (b, r) -> (length r < length s)%nat.
Proof.
  unfold pctByte. destruct s as [|p [|h [|l r']]]; try discriminate.
  destruct (code p =? 37)%N; [|discriminate].
  destruct (hexVal h), (hexVal l); try discriminate.
  intros E. inversion E; subst. simpl. lia.
Qed.

Lemma pctCont_shorter (n : nat) (s r : str) (bs : list N) :
  pctCont n s = Some (bs, r) -> (length r <= length s)%nat.
Proof.
  revert s r bs; induction n as [|n IH]; intros s r bs E.
  - inversion E; subst. lia.
  - cbn [pctCont] in E. destruct (pctByte s) as [[b r1]|] eqn:Eb; [|discriminate].
    apply pctByte_shorter in Eb.
    destruct ((128 <=? b) && (b <? 192))%N; [|discriminate].
    destruct (pctCont n r1) as [[bs' r']|] eqn:Ec; [|discriminate].
    inversion E; subst. apply IH in Ec. lia.
Qed.

(** The fuel given to the decoder is enough: more of it changes nothing. *)
Lemma decodeLoop_fuel (n m : nat) (s : str) :
  (length s <= n)%nat -> (length s <= m)%nat -> decodeLoop n s = decodeLoop m s.
Proof.
  revert m s; induction n as [|n IH]; intros m s Hn Hm.
  - destruct s; [|simpl in Hn; lia]. destruct m; reflexivity.
  - destruct s as [|c r]; [destruct m; reflexivity|].
    destruct m as [|m]; [simpl in Hm; lia|].
    cbn [decodeLoop]. simpl in Hn, Hm.
    destruct (code c =? 37)%N.
    + destruct (pctByte (c :: r)) as [[b r1]|] eqn:Eb; [|reflexivity].
      apply pctByte_shorter in Eb. simpl in Eb.
      destruct (b <? 128)%N; [f_equal; apply IH; lia|].
      destruct (utf8Follow b) as [k|]; [|reflexivity].
      destruct (pctCont k r1) as [[bs r2]|] eqn:Ec; [|reflexivity].
      apply pctCont_shorter in Ec.
      destruct (utf8Valid b bs); [|reflexivity].
      f_equal. apply IH; lia.
    + f_equal. apply IH; lia.
Qed.

Lemma decodeURIComponent_plain (s : str) :
  noPercent s -> decodeURIComponent s = Some s.
Proof.
  unfold decodeURIComponent. induction 1 as [|c r Hc Hr IH]; [reflexivity|].
  cbn [length decodeLoop]. apply N.eqb_neq in Hc. rewrite Hc.
  now rewrite IH.
Qed.

(** *** Decoding what [encodeURIComponent] wrote *)

Lemma percentDecode_pct (c : ascii) (rest : str) :
  percentDecode (pct c ++ rest) = c :: percentDecode rest.
Proof. destruct c as [[] [] [] [] [] [] [] []]; reflexivity. Qed.

Lemma percentDecode_unreserved (c : ascii) (rest : str) :
  isUnreserved c = true -> percentDecode (c :: rest) = c :: percentDecode rest.
Proof.
  intros H. assert (E : (code c =? 37)%N = false).
  { destruct c as [[] [] [] [] [] [] [] []]; try reflexivity; discriminate H. }
  cbn [percentDecode]. rewrite E. destruct rest as [|h [|l r]]; reflexivity.
Qed.

Lemma percentDecode_encode (u : str) :
  percentDecode (encodeURIComponent u) = u.
Proof.
  unfold encodeURIComponent. induction u as [|c u IH]; [reflexivity|].
  cbn [flat_map]. destruct (isUnreserved c) eqn:E.
  - cbn [app]. rewrite percentDecode_unreserved by exact E. now rewrite IH.
  - rewrite percentDecode_pct. now rewrite IH.
Qed.

Lemma encode_char_querySafe (x : ascii) :
  forallb querySafe (if isUnreserved x then [x] else pct x) = true.
Proof. destruct x as [[] [] [] [] [] [] [] []]; reflexivity. Qed.

Lemma encode_querySafe (u : str) :
  Forall (fun c => querySafe c = true) (encodeURIComponent u).
Proof.
  unfold encodeURIComponent. induction u as [|x u IH]; [constructor|].
  cbn [flat_map]. apply Forall_app. split; [|exact IH].
  apply Forall_forall. apply forallb_forall. apply encode_char_querySafe.
Qed.

Lemma querySafe_facts (c : ascii) :
  querySafe c = true ->
  isC0OrSpace c = false
  /\ (code c =? 43)%N = false
  /\ Ascii.eqb c (chr 35) = false
  /\ Ascii.eqb c (chr 38) = false
  /\ existsb (N.eqb (code c)) [9; 10; 13]%N = false.
Proof.
  destruct c as [[] [] [] [] [] [] [] []]; intros H;
    try discriminate H; repeat split.
Qed.

Lemma cut_absent (sep : ascii) (s : str) :
  Forall (fun c => Ascii.eqb c sep = false) s -> cut sep s = (s, None).
Proof.
  induction 1 as [|c r Hc Hr IH]; [reflexivity|].
  cbn [cut]. now rewrite Hc, IH.
Qed.

Lemma split_absent (sep : ascii) (s : str) :
  Forall (fun c => Ascii.eqb c sep = false) s -> split sep s = [s].
Proof.
  intros H. apply split_single. intros Hin.
  rewrite Forall_forall in H. specialize (H _ Hin).
  now rewrite Ascii.eqb_refl in H.
Qed.

Lemma utf8Lossy_ascii (u : str) : isAscii u -> utf8Lossy None u = u.
Proof.
  induction 1 as [|c r Hc Hr IH]; [reflexivity|].
  cbn [utf8Lossy]. unfold utf8Start.
  apply N.ltb_lt in Hc. rewrite Hc. cbn [app]. now rewrite IH.
Qed.

(** The query of a proxied address, and its [url] parameter. *)
Lemma urlQuery_proxied (e : str) :
  Forall (fun c => querySafe c = true) e ->
  urlQuery (PROXY_URL ++ L "?url=" ++ e) = L "url=" ++ e.
Proof.
  intros He. unfold urlQuery.
  set (s := PROXY_URL ++ L "?url=" ++ e).
  assert (Hs : Forall (fun c => querySafe c = true) s).
  { subst s. rewrite app_assoc. apply Forall_app. split; [|exact He].
    apply Forall_forall, forallb_forall. reflexivity. }
  assert (E1 : dropWhile isC0OrSpace s = s) by reflexivity.
  rewrite E1.
  assert (E2 : dropWhile isC0OrSpace (rev s) = rev s).
  { assert (Hr : Forall (fun c => querySafe c = true) (rev s))
      by now apply Forall_rev.
    destruct (rev s) as [|c r]; [reflexivity|].
    inversion Hr as [|? ? Hc _]; subst.
    apply querySafe_facts in Hc as (Hc & _). cbn [dropWhile]. now rewrite Hc. }
  rewrite E2, rev_involutive.
  assert (E3 : filter (fun c => negb (existsb (N.eqb (code c)) [9; 10; 13]%N)) s = s).
  { clear E1 E2. induction Hs as [|c r Hc Hr IH]; [reflexivity|].
    cbn [filter]. apply querySafe_facts in Hc as (_ & _ & _ & _ & Hc).
    rewrite Hc. cbn [negb]. now rewrite IH. }
  rewrite E3.
  rewrite (cut_absent (chr 35) s).
  - reflexivity.
  - eapply Forall_impl; [|exact Hs]. intros c Hc.
    now apply querySafe_facts in Hc as (_ & _ & Hc & _).
Qed.

Lemma urlParam_proxied (u : str) :
  isAscii u ->
  urlParam (PROXY_URL ++ L "?url=" ++ encodeURIComponent u) = Some u.
Proof.
  intros Hu. unfold urlParam.
  pose proof (encode_querySafe u) as He.
  rewrite urlQuery_proxied by exact He.
  unfold searchParamsGet, formParse.
  rewrite (split_absent (chr 38)).
  - cbn [flat_map app]. change (L "url=" ++ encodeURIComponent u)
      with (chr 117 :: chr 114 :: chr 108 :: chr 61 :: encodeURIComponent u).
    cbn [cut Ascii.eqb]. cbn.
    assert (E : map (fun c => if (code c =? 43)%N then " "%char else c)
                  (encodeURIComponent u) = encodeURIComponent u).
    { clear Hu. induction He as [|c r Hc Hr IH]; [reflexivity|].
      cbn [map]. apply querySafe_facts in Hc as (_ & Hc & _).
      now rewrite Hc, IH. }
    rewrite E, percentDecode_encode, utf8Lossy_ascii by exact Hu.
    reflexivity.
  - apply Forall_app. split.
    + repeat constructor.
    + eapply Forall_impl; [|exact He]. intros c Hc.
      now apply querySafe_facts in Hc as (_ & _ & _ & Hc & _).
Qed.

(** The round trip of C10 for an address in ASCII without a percent
    sign. *)
Lemma round_trip_without_escapes (u : str) :
  isEmpty u = false ->
  isAscii u ->
  noPercent u ->
  includes u (L "/api/m3u8-proxy?url=") = false ->
  needsProxying u = true ->
  getOriginalUrl (getProxiedUrl u) = Some u.
Proof.
  intros Hne Ha Hp Hnot Hneeds.
  unfold getProxiedUrl. rewrite Hne, Hnot, Hneeds. cbn [andb].
  unfold getOriginalUrl.
  assert (E : includes (PROXY_URL ++ L "?url=" ++ encodeURIComponent u)
                (L "/api/m3u8-proxy?url=") = true).
  { apply includes_spec. exists [], (encodeURIComponent u). reflexivity. }
  rewrite E. cbn [isEmpty negb orb].
  change (isEmpty (PROXY_URL ++ L "?url=" ++ encodeURIComponent u)) with false.
  cbn [orb]. rewrite urlParam_proxied by exact Ha. rewrite Hne.
  now apply decodeURIComponent_plain.
Qed.

End RoundTrip.

(* ================================================================== *)
(** ** The catalog parser *)
(* ================================================================== *)

Import ParseM3U.

Section Catalog.

Variables categoryId categoryName : str.

(** What the identifier of the channel at position [k] must be. *)
Let idAt (k : nat) (c : Channel) : Prop :=
  id c = categoryId ++ L "_" ++ sanitize (name c) ++ L "_" ++ showNat k.

Let wellNumbered (channels : list Channel) : Prop :=
  forall k c, nth_error channels k = Some c -> idAt k c.

Lemma step_wellNumbered (st : list Channel * Partial) (line : str) :
  wellNumbered (fst st) ->
  wellNumbered (fst (step categoryId categoryName st line)).
Proof.
  destruct st as [channels current]. unfold step. cbn [fst].
  intros Hinv.
  destruct (startsWith line (L "#EXTINF:")); [exact Hinv|].
  destruct (negb (isEmpty line) && negb (startsWith line (L "#"))
            && truthyStr (p_name current)); [|exact Hinv].
  cbn [fst]. intros k c Hk.
  destruct (Nat.lt_ge_cases k (length channels)) as [Hlt|Hge].
  - rewrite nth_error_app1 in Hk by assumption. now apply Hinv.
  - rewrite nth_error_app2 in Hk by assumption.
    destruct (k - length channels)%nat as [|j] eqn:Ej.
    + assert (k = length channels) by lia. subst k.
      cbn in Hk. inversion Hk; subst c. reflexivity.
    + destruct j; discriminate Hk.
Qed.

Lemma fold_wellNumbered (lines : list str) (st : list Channel * Partial) :
  wellNumbered (fst st) ->
  wellNumbered (fst (fold_left (step categoryId categoryName) lines st)).
Proof.
  revert st; induction lines as [|line lines IH]; intros st Hinv; [exact Hinv|].
  cbn [fold_left]. apply IH. now apply step_wellNumbered.
Qed.

(** On ASCII text the case mapping works letter by letter. *)
Lemma toLowerCase_ascii (s : str) :
  Forall (fun c => (code c < 128)%N) s -> toLowerCase s = map lowerAscii s.
Proof.
  induction s as [|c s IH]; intros H; [reflexivity|].
  inversion H as [|? ? Hc Hs]; subst. specialize (IH Hs).
  cbn [map]. rewrite <- IH.
  assert (E196 : (code c =? 196)%N = false) by (apply N.eqb_neq; lia).
  assert (E226 : (code c =? 226)%N = false) by (apply N.eqb_neq; lia).
  destruct s as [|d [|e r]]; cbn [toLowerCase]; rewrite ?E196, ?E226; reflexivity.
Qed.

Lemma chr_code (c : ascii) : chr (code c) = c.
Proof. apply ascii_N_embedding. Qed.

(** The three searches of lines 41-55 find the leftmost place where a
    name stands, and find none only where none stands. *)
Lemma findQuoted_First (open s v : str) :
  findQuoted open s = Some v ->
  First (fun s v => exists rest, s = open ++ v ++ quote :: rest
                                 /\ v <> [] /\ ~ In quote v) s v.
Proof.
  induction s as [|c s IH]; cbn [findQuoted];
    destruct (matchQuotedAt open _) as [[w rest]|] eqn:E; intros H.
  - inversion H; subst w. apply FirstHere. exists rest.
    now apply matchQuotedAt_sound.
  - discriminate H.
  - inversion H; subst w. apply FirstHere. exists rest.
    now apply matchQuotedAt_sound.
  - apply FirstLater; [|now apply IH].
    intros v' (rest & Es & Hne & Hq).
    rewrite Es, matchQuotedAt_complete in E by assumption. discriminate E.
Qed.

Lemma findQuoted_Nowhere (open s : str) :
  findQuoted open s = None ->
  Nowhere (fun s v => exists rest, s = open ++ v ++ quote :: rest
                                   /\ v <> [] /\ ~ In quote v) s.
Proof.
  induction s as [|c s IH]; cbn [findQuoted];
    destruct (matchQuotedAt open _) as [[w rest]|] eqn:E; intros H;
    try discriminate H.
  - intros a b v Eab (rest' & Es & Hne & Hq).
    symmetry in Eab. apply app_eq_nil in Eab as [_ Eb].
    rewrite Eb in Es. symmetry in Es. apply app_eq_nil in Es as [_ Es].
    apply app_eq_nil in Es as [_ Es]. discriminate Es.
  - intros a b v Eab (rest' & Es & Hne & Hq). destruct a as [|x a].
    + cbn [app] in Eab. subst b.
      rewrite Es, matchQuotedAt_complete in E by assumption. discriminate E.
    + injection Eab as _ Es'. apply (IH H a b v Es'). now exists rest'.
Qed.

Lemma matchGroupTitleAt_sound (s v : str) :
  matchGroupTitleAt s = Some v -> GroupTitleAt s v.
Proof.
  unfold matchGroupTitleAt. cbv zeta.
  destruct (startsWith s (L "group-title=" ++ [quote])) eqn:Hs; [|discriminate].
  apply startsWith_app in Hs.
  destruct (span notQuote (skipn (length (L "group-title=" ++ [quote])) s))
    as [title b] eqn:Esp.
  cbn [snd]. destruct b as [|q [|c rest]]; try discriminate.
  destruct (code c =? 44)%N eqn:Ec; [|discriminate].
  destruct (skipWs rest) as [|x w] eqn:Ew; [discriminate|].
  destruct (hasTerminator (x :: w)) eqn:Ht; [discriminate|].
  intros H; inversion H; subst v.
  pose proof (span_all _ _ _ _ Esp) as Hall.
  apply span_spec in Esp as [Esk Hq].
  unfold notQuote in Hq. apply negb_false_iff, Ascii.eqb_eq in Hq. subst q.
  apply N.eqb_eq in Ec. rewrite <- (chr_code c), Ec in Esk.
  exists title, rest. split; [|split; [|split; [|split]]].
  - rewrite Hs at 1. now rewrite Esk.
  - now apply notQuote_spec.
  - now symmetry.
  - discriminate.
  - exact Ht.
Qed.

Lemma matchGroupTitleAt_complete (s v : str) :
  GroupTitleAt s v -> matchGroupTitleAt s = Some v.
Proof.
  intros (title & rest & -> & Hq & Ev & Hne & Ht).
  unfold matchGroupTitleAt. cbv zeta. rewrite startsWith_prefix.
  replace (skipn (length (L "group-title=" ++ [quote]))
             ((L "group-title=" ++ [quote]) ++ title ++ quote :: chr 44 :: rest))
    with (title ++ quote :: chr 44 :: rest) by reflexivity.
  rewrite span_stop; [|now apply notQuote_spec|reflexivity].
  cbn [snd]. change (code (chr 44) =? 44)%N with true. cbv iota.
  rewrite <- Ev. destruct v; [congruence|]. now rewrite Ht.
Qed.

Lemma findGroupTitle_First (s v : str) :
  findGroupTitle s = Some v -> First GroupTitleAt s v.
Proof.
  induction s as [|c s IH]; cbn [findGroupTitle];
    destruct (matchGroupTitleAt _) as [w|] eqn:E; intros H.
  - inversion H; subst w. apply FirstHere. now apply matchGroupTitleAt_sound.
  - discriminate H.
  - inversion H; subst w. apply FirstHere. now apply matchGroupTitleAt_sound.
  - apply FirstLater; [|now apply IH].
    intros v' Hv. apply matchGroupTitleAt_complete in Hv. congruence.
Qed.

Lemma findGroupTitle_Nowhere (s : str) :
  findGroupTitle s = None -> Nowhere GroupTitleAt s.
Proof.
  induction s as [|c s IH]; cbn [findGroupTitle];
    destruct (matchGroupTitleAt _) as [w|] eqn:E; intros H;
    try discriminate H.
  - intros a b v Eab Hv. symmetry in Eab. apply app_eq_nil in Eab as [_ Eb].
    rewrite Eb in Hv. apply matchGroupTitleAt_complete in Hv. congruence.
  - intros a b v Eab Hv. destruct a as [|x a].
    + cbn [app] in Eab. subst b.
      apply matchGroupTitleAt_complete in Hv. congruence.
    + injection Eab as _ Es'. now apply (IH H a b v Es').
Qed.

Lemma no_comma_spec (r : str) :
  existsb isComma r = false <-> ~ In (chr 44) r.
Proof.
  split.
  - intros H Hin. assert (E : existsb isComma r = true); [|congruence].
    apply existsb_exists. exists (chr 44). split; [exact Hin|reflexivity].
  - intros H. destruct (existsb isComma r) eqn:E; [|reflexivity].
    apply existsb_exists in E as (x & Hx & Ex). unfold isComma in Ex.
    apply N.eqb_eq in Ex. rewrite <- (chr_code x), Ex in Hx. contradiction.
Qed.

Lemma afterComma_here (c : ascii) (r v : str) :
  AfterCommaAt (c :: r) v
  <-> isComma c && negb (existsb isComma r) && negb (isEmpty (skipWs r)) = true
      /\ v = skipWs r.
Proof.
  split.
  - intros (rest & Es & Hno & Ev & Hne). inversion Es; subst c rest.
    split; [|exact Ev]. apply no_comma_spec in Hno. rewrite Hno, <- Ev.
    destruct v; [congruence|reflexivity].
  - intros [H Ev]. apply andb_prop in H as [H Hne]. apply andb_prop in H as [Hc Hno].
    unfold isComma in Hc. apply N.eqb_eq in Hc.
    rewrite <- (chr_code c), Hc. exists r. split; [reflexivity|]. split.
    + apply no_comma_spec. now apply negb_true_iff.
    + split; [exact Ev|]. subst v. now destruct (skipWs r).
Qed.

Lemma findAfterComma_First (s v : str) :
  findAfterComma s = Some v -> First AfterCommaAt s v.
Proof.
  induction s as [|c s IH]; cbn [findAfterComma]; [discriminate|].
  destruct (isComma c && negb (existsb isComma s) && negb (isEmpty (skipWs s)))
    eqn:E; intros H.
  - inversion H; subst v. apply FirstHere. now apply afterComma_here.
  - apply FirstLater; [|now apply IH].
    intros v' Hv. apply afterComma_here in Hv as [Hv _]. congruence.
Qed.

Lemma findAfterComma_Nowhere (s : str) :
  findAfterComma s = None -> Nowhere AfterCommaAt s.
Proof.
  induction s as [|c s IH]; cbn [findAfterComma].
  - intros _ a b v Eab (rest & Es & _). symmetry in Eab.
    apply app_eq_nil in Eab as [_ Eb]. rewrite Eb in Es. discriminate Es.
  - destruct (isComma c && negb (existsb isComma s) && negb (isEmpty (skipWs s)))
      eqn:E; [discriminate|].
    intros H a b v Eab Hv. destruct a as [|x a].
    + cbn [app] in Eab. subst b. apply afterComma_here in Hv as [Hv _]. congruence.
    + injection Eab as _ Es'. now apply (IH H a b v Es').
Qed.

(** The name the loop takes from an #EXTINF: line is its display name. *)
Lemma channelNameOf_DisplayName (line : str) :
  DisplayName line (channelNameOf line).
Proof.
  unfold channelNameOf.
  destruct (findQuoted (L "tvg-name=" ++ [quote]) line) as [v|] eqn:Et.
  - apply NameFromTvgName. now apply findQuoted_First in Et.
  - apply findQuoted_Nowhere in Et.
    destruct (findGroupTitle line) as [v|] eqn:Eg.
    + apply NameFromGroupTitle; [exact Et|now apply findGroupTitle_First].
    + apply findGroupTitle_Nowhere in Eg.
      destruct (findAfterComma line) as [v|] eqn:Ec.
      * apply NameAfterComma; [exact Et|exact Eg|now apply findAfterComma_First].
      * apply NameUnknown; [exact Et|exact Eg|now apply findAfterComma_Nowhere].
Qed.

(** A line has one leftmost place, so an entry has one display name. *)
Lemma First_unique (M : str -> str -> Prop) (s v w : str) :
  (forall s v w, M s v -> M s w -> v = w) ->
  First M s v -> First M s w -> v = w.
Proof.
  intros HM H. revert w. induction H as [s v Hv|c s v Hno H IH]; intros w Hw.
  - destruct Hw as [s w Hw|c s w Hno Hw]; [now apply (HM s)|].
    now apply Hno in Hv.
  - inversion Hw as [s' w' Hw'|c' s' w' Hno' Hw']; subst.
    + now apply Hno in Hw'.
    + now apply IH.
Qed.

Lemma First_not_Nowhere (M : str -> str -> Prop) (s v : str) :
  First M s v -> Nowhere M s -> False.
Proof.
  induction 1 as [s v Hv|c s v Hno H IH]; intros Hn.
  - now apply (Hn [] s v eq_refl).
  - apply IH. intros a b w -> Hw. now apply (Hn (c :: a) b w eq_refl).
Qed.

Lemma quoted_value_unique (open v w rest rest' : str) :
  ~ In quote v -> ~ In quote w ->
  open ++ v ++ quote :: rest = open ++ w ++ quote :: rest' -> v = w.
Proof.
  intros Hv Hw E. apply app_inv_head in E.
  revert w Hw E; induction v as [|x v IH]; intros [|y w] Hw E.
  - reflexivity.
  - inversion E; subst. exfalso. apply Hw. now left.
  - inversion E; subst. exfalso. apply Hv. now left.
  - inversion E; subst. f_equal. apply IH.
    + intros H. apply Hv. now right.
    + intros H. apply Hw. now right.
    + assumption.
Qed.

Lemma DisplayName_unique (line N N' : str) :
  DisplayName line N -> DisplayName line N' -> N = N'.
Proof.
  assert (Ut : forall s v w, TvgNameAt s v -> TvgNameAt s w -> v = w).
  { intros s v w (r & -> & _ & Hv) (r' & E & _ & Hw).
    now apply (quoted_value_unique _ _ _ _ _ Hv Hw E). }
  assert (Ug : forall s v w, GroupTitleAt s v -> GroupTitleAt s w -> v = w).
  { intros s v w (t & r & -> & Ht & -> & _) (t' & r' & E & Ht' & -> & _).
    pose proof (quoted_value_unique _ _ _ _ _ Ht Ht' E) as <-.
    apply app_inv_head in E. apply app_inv_head in E. inversion E; now subst. }
  assert (Uc : forall s v w, AfterCommaAt s v -> AfterCommaAt s w -> v = w).
  { intros s v w (r & -> & _ & -> & _) (r' & E & _ & -> & _).
    inversion E; now subst. }
  intros H H'.
  destruct H as [v Hv|v Hn Hv|v Hn Hn' Hv|Hn Hn' Hn''];
    destruct H' as [w Hw|w Hm Hw|w Hm Hm' Hw|Hm Hm' Hm''];
    try reflexivity;
    try (f_equal; eauto using First_unique; fail);
    exfalso; eauto using First_not_Nowhere.
Qed.

(** The names of the channels are the display names of the entries that
    have one: what the loop keeps between two lines is the name of the
    entry that is open. *)
Lemma fold_names (lines : list str) (channels : list Channel) (current : Partial) :
  Forall (fun line => line <> []) lines ->
  map name (fst (fold_left (step categoryId categoryName) lines (channels, current)))
  = map name channels
    ++ filter (fun N => negb (isEmpty N))
         (match p_name current, streamAfter lines with
          | Some N, Some _ => [N]
          | _, _ => []
          end
          ++ map (fun e => channelNameOf (fst e)) (entries lines)).
Proof.
  intros Hl. revert channels current.
  induction Hl as [|line lines Hne Hl IH]; intros channels current.
  - cbn. destruct (p_name current); cbn; now rewrite app_nil_r.
  - cbn [fold_left streamAfter entries]. unfold isExtinf. unfold step at 2.
    destruct (startsWith line (L "#EXTINF:")) eqn:Hx.
    + rewrite IH. cbn [p_name].
      destruct (p_name current); destruct (streamAfter lines); reflexivity.
    + destruct line as [|c r]; [congruence|]. cbn [isEmpty negb andb].
      destruct (startsWith (c :: r) (L "#")) eqn:Hh; cbn [negb andb].
      * apply IH.
      * destruct (p_name current) as [[|x N]|] eqn:Ep; cbn [truthyStr].
        -- rewrite IH, Ep. cbn [app filter isEmpty negb].
           destruct (streamAfter lines); reflexivity.
        -- rewrite IH. cbn [emptyPartial p_name].
           rewrite map_app. cbn [map name app filter isEmpty negb].
           now rewrite <- app_assoc.
        -- rewrite IH, Ep. reflexivity.
Qed.

Lemma linesOf_not_empty (m3uContent : str) :
  Forall (fun line => line <> []) (linesOf m3uContent).
Proof.
  unfold linesOf. apply Forall_forall. intros l Hl.
  apply filter_In in Hl as [_ Hl]. now destruct l.
Qed.

(** What the sanitizing does, character by character. *)
Lemma alnum_is_ascii (c : ascii) : isAlnum c = true -> (code c < 128)%N.
Proof.
  unfold isAlnum. cbv zeta. intros H.
  repeat (apply orb_prop in H as [H|H]); apply andb_prop in H as [_ H];
    apply N.leb_le in H; lia.
Qed.

Lemma sanitize_Sanitized (N clean : str) :
  Sanitized N clean -> sanitize N = clean.
Proof.
  intros H. unfold sanitize.
  assert (E : isAscii (replaceNonAlnum N)
              /\ map lowerAscii (replaceNonAlnum N) = clean).
  { induction H as
        [|c s o Hc H [IH1 IH2]|c s o Hc Hn H [IH1 IH2]
         |b1 b2 s o H1 H2 H [IH1 IH2]|b1 b2 b3 s o H1 H2 H3 H [IH1 IH2]
         |b1 b2 b3 b4 s o H1 H2 H3 H4 H [IH1 IH2]];
      unfold isCont in *; unfold replaceNonAlnum in *; cbn [flat_map]; cbv zeta.
    - split; constructor.
    - rewrite Hc. cbn [app map]. split; [|now rewrite IH2].
      constructor; [now apply alnum_is_ascii|exact IH1].
    - rewrite Hn.
      replace ((128 <=? code c) && (code c <? 192))%N with false
        by (symmetry; apply andb_false_iff; left; apply N.leb_gt; lia).
      replace ((240 <=? code c) && (code c <? 248))%N with false
        by (symmetry; apply andb_false_iff; left; apply N.leb_gt; lia).
      cbn [app map]. split; [|now rewrite IH2].
      constructor; [reflexivity|exact IH1].
    - replace (isAlnum b1) with false
        by (symmetry; destruct (isAlnum b1) eqn:E; [|reflexivity];
            apply alnum_is_ascii in E; lia).
      replace ((128 <=? code b1) && (code b1 <? 192))%N with false
        by (symmetry; apply andb_false_iff; right; apply N.ltb_ge; lia).
      replace ((240 <=? code b1) && (code b1 <? 248))%N with false
        by (symmetry; apply andb_false_iff; left; apply N.leb_gt; lia).
      replace (isAlnum b2) with false
        by (symmetry; destruct (isAlnum b2) eqn:E; [|reflexivity];
            apply alnum_is_ascii in E; apply andb_prop in H2 as [H2 _];
            apply N.leb_le in H2; lia).
      rewrite H2. cbn [app map]. split; [|now rewrite IH2].
      constructor; [reflexivity|exact IH1].
    - replace (isAlnum b1) with false
        by (symmetry; destruct (isAlnum b1) eqn:E; [|reflexivity];
            apply alnum_is_ascii in E; lia).
      replace ((128 <=? code b1) && (code b1 <? 192))%N with false
        by (symmetry; apply andb_false_iff; right; apply N.ltb_ge; lia).
      replace ((240 <=? code b1) && (code b1 <? 248))%N with false
        by (symmetry; apply andb_false_iff; left; apply N.leb_gt; lia).
      replace (isAlnum b2) with false
        by (symmetry; destruct (isAlnum b2) eqn:E; [|reflexivity];
            apply alnum_is_ascii in E; apply andb_prop in H2 as [H2 _];
            apply N.leb_le in H2; lia).
      replace (isAlnum b3) with false
        by (symmetry; destruct (isAlnum b3) eqn:E; [|reflexivity];
            apply alnum_is_ascii in E; apply andb_prop in H3 as [H3 _];
            apply N.leb_le in H3; lia).
      rewrite H2, H3. cbn [app map]. split; [|now rewrite IH2].
      constructor; [reflexivity|exact IH1].
    - replace (isAlnum b1) with false
        by (symmetry; destruct (isAlnum b1) eqn:E; [|reflexivity];
            apply alnum_is_ascii in E; lia).
      replace ((128 <=? code b1) && (code b1 <? 192))%N with false
        by (symmetry; apply andb_false_iff; right; apply N.ltb_ge; lia).
      replace ((240 <=? code b1) && (code b1 <? 248))%N with true
        by (symmetry; apply andb_true_iff; split;
            [apply N.leb_le|apply N.ltb_lt]; lia).
      replace (isAlnum b2) with false
        by (symmetry; destruct (isAlnum b2) eqn:E; [|reflexivity];
            apply alnum_is_ascii in E; apply andb_prop in H2 as [H2 _];
            apply N.leb_le in H2; lia).
      replace (isAlnum b3) with false
        by (symmetry; destruct (isAlnum b3) eqn:E; [|reflexivity];
            apply alnum_is_ascii in E; apply andb_prop in H3 as [H3 _];
            apply N.leb_le in H3; lia).
      replace (isAlnum b4) with false
        by (symmetry; destruct (isAlnum b4) eqn:E; [|reflexivity];
            apply alnum_is_ascii in E; apply andb_prop in H4 as [H4 _];
            apply N.leb_le in H4; lia).
      rewrite H2, H3, H4. cbn [app map]. split; [|now rewrite IH2].
      constructor; [reflexivity|]. constructor; [reflexivity|exact IH1]. }
  destruct E as [E1 E2]. now rewrite toLowerCase_ascii.
Qed.

(** C9 (as amended): the channels of the result are the stream entries of
    the playlist that have a display name which is not empty, in their
    order: an entry whose name is empty gives no channel and takes no
    position.  The channel at position [k] (counting the channels given)
    has the display name [N] of its entry as its name and the identifier
    categoryId + _ + sanitize(N) + _ + k, where the sanitized form of [N]
    has an underscore for every character that is not a letter or digit
    of ASCII (two for a character beyond the Basic Multilingual Plane)
    and the letters in lower case. *)
Theorem channel_id_from_name_and_position (m3uContent : str) :
  let channels := parseM3U m3uContent categoryId categoryName in
  exists names : list str,
    Forall2 DisplayName (map fst (entries (linesOf m3uContent))) names
    /\ map name channels = filter (fun N => negb (isEmpty N)) names
    /\ forall (k : nat) (c : Channel),
         nth_error channels k = Some c ->
         id c = categoryId ++ L "_" ++ sanitize (name c) ++ L "_" ++ showNat k
         /\ forall clean, Sanitized (name c) clean -> sanitize (name c) = clean.
Proof.
  cbv zeta.
  exists (map (fun e => channelNameOf (fst e)) (entries (linesOf m3uContent))).
  split; [|split].
  - induction (entries (linesOf m3uContent)) as [|e es IH]; constructor.
    + apply channelNameOf_DisplayName.
    + exact IH.
  - unfold parseM3U. fold (linesOf m3uContent).
    rewrite fold_names by apply linesOf_not_empty. reflexivity.
  - intros k c Hk. split; [|apply sanitize_Sanitized].
    revert k c Hk. unfold parseM3U.
    apply fold_wellNumbered. intros k c Hk. destruct k; discriminate Hk.
Qed.

End Catalog.

(** C9 as stated fails when an entry has a blank name.  The first entry of
    this playlist has the display name "" (its tvg-name is a space), the
    second the display name Second.  The parser gives one channel: the
    second entry, at position 0, with the identifier news_second_0.  The
    claim gives the stream entry at position 1 the identifier
    news_second_1, and the entry at position 0 an identifier made from the
    empty name.  In the sanitized form a letter outside ASCII (e with an
    acute accent, two bytes) is replaced as well, and a character beyond
    the Basic Multilingual Plane (four bytes, two code units) by two
    underscores. *)
Lemma blank_name_shifts_positions :
  entries (linesOf blankFirst)
  = [ (L "#EXTINF:-1 tvg-name=" ++ [quote] ++ L " " ++ [quote] ++ L ",First",
       L "http://stream.example/a.m3u8");
      (L "#EXTINF:-1,Second", L "http://stream.example/b.m3u8") ]
  /\ DisplayName
       (L "#EXTINF:-1 tvg-name=" ++ [quote] ++ L " " ++ [quote] ++ L ",First") []
  /\ DisplayName (L "#EXTINF:-1,Second") (L "Second")
  /\ map id (parseM3U blankFirst (L "news") (L "News")) = [L "news_second_0"]
  /\ nth_error (map id (parseM3U blankFirst (L "news") (L "News"))) 1
     <> Some (L "news" ++ L "_" ++ sanitize (L "Second") ++ L "_" ++ showNat 1)
  /\ sanitize (L "Caf" ++ [chr 195; chr 169]) = L "caf_"
  /\ sanitize (L "TV" ++ [chr 240; chr 159; chr 147; chr 186]) = L "tv__".
Proof.
  split; [reflexivity|].
  split; [|split; [|split; [reflexivity|split; [discriminate|split; reflexivity]]]].
  - apply (channelNameOf_DisplayName
             (L "#EXTINF:-1 tvg-name=" ++ [quote] ++ L " " ++ [quote] ++ L ",First")).
  - apply (channelNameOf_DisplayName (L "#EXTINF:-1,Second")).
Qed.

(** The sample catalog: both entries have a name, and the second one is
    the channel at position 1. *)
Example sample_catalog_ids :
  map (fun c => (name c, id c)) (parseM3U catalog0 (L "sports") (L "Sports"))
  = [ (L "BBC One HD", L "sports_bbc_one_hd_0"); (L "Sky News", L "sports_sky_news_1") ]
  /\ Sanitized (L "Sky News") (L "sky_news").
Proof.
  split; [reflexivity|].
  apply (SanitizedAlnum "S"); [reflexivity|].
  apply (SanitizedAlnum "k"); [reflexivity|].
  apply (SanitizedAlnum "y"); [reflexivity|].
  apply (SanitizedAscii " "); [reflexivity|reflexivity|].
  apply (SanitizedAlnum "N"); [reflexivity|].
  apply (SanitizedAlnum "e"); [reflexivity|].
  apply (SanitizedAlnum "w"); [reflexivity|].
  apply (SanitizedAlnum "s"); [reflexivity|].
  apply SanitizedEnd.
Qed.

(* ================================================================== *)
(** ** The failover cursor *)
(* ================================================================== *)

Import EventPlayer.

(** C7 fails on the code.  The handler tests the cursor of the render it
    was created in and queues an increment of the cursor as it will be, so
    when [k] reports reach the handler of one render the cursor moves from
    [i], if [i] is not the last index, to [i + k].  With three links, two
    reports at cursor 1 (the player reports one failure of its initialiser
    twice) put the cursor at 3: there is no such link, and the page reads
    the address of the link at the cursor.  Two reports at cursor 0 put it
    at 2, and the link at 1 is never tried.  When every render receives one
    report the cursor moves as the claim says (0, 1, 2, 0), and with the
    flag cleared it stays. *)
Theorem failover_cursor_leaves_the_list (Link : Type) (a b c : Link) :
  (forall (links : list Link) (i : Z) (k : nat),
      currentLinkIndex (afterErrors k (mkState (Some links) i true))
      = if (i <? Z.of_nat (length links) - 1)%Z then (i + Z.of_nat k)%Z
        else match k with O => i | S _ => 0%Z end)
  /\ afterErrors 2 (mkState (Some [a; b; c]) 1%Z true)
     = mkState (Some [a; b; c]) 3%Z true
  /\ currentLink (afterErrors 2 (mkState (Some [a; b; c]) 1%Z true)) = None
  /\ activeIndices [2; 1]%nat (mkState (Some [a; b; c]) 0%Z true) = [0; 2]%Z
  /\ activeIndices [1; 1; 1; 1]%nat (mkState (Some [a; b; c]) 0%Z true) = [0; 1; 2; 0]%Z
  /\ (forall (links : list Link) (i : Z) (k : nat),
        afterErrors k (mkState (Some links) i false) = mkState (Some links) i false).
Proof.
  split; [|repeat split].
  intros links i k. unfold afterErrors, handleVideoError. cbn.
  destruct (i <? Z.of_nat (length links) - 1)%Z; cbn.
  - induction k as [|k IH]; [cbn; lia|].
    rewrite Nat.iter_succ, IH. lia.
  - destruct k; [reflexivity|]. now rewrite Nat.iter_succ.
Qed.

(* ================================================================== *)
(** ** The player *)
(* ================================================================== *)

Import VideoPlayer.

Section Retries.

Variable url : str.
Variable shaka : bool.
Variable playerType : option PlayerType.
Variables timer video : bool.

(** The [onError] prop is given, the component is mounted, and the
    segment engine has just been created: its counter is 0. *)
Let props := mkProps url true.
Let fresh := mkRefs (Some (mkHls 0)) shaka playerType timer true video.




End Retries.

(** C4 fails on the code.  The stream is classified as segmented, the
    browser supports neither the engine nor native playback, so the
    initialiser throws: its own catch block calls [onError] and throws
    again, and the catch block of [initializePlayer] calls [onError] a second
    time.  Nothing is torn down after the failure (the only teardown in the
    trace is the one that precedes every start). *)
Lemma initializer_error_reported_twice :
  fst (fst (detectStreamType (streamUrl liveProps))) = hls
  /\ trace (initializePlayer liveProps plainBrowser) mounted
     = [ VideoUnload;
         SetPlayerState true None;
         SetTimeout LoadingTimedOut 15000;
         OnError;
         ClearLoadingTimeout;
         SetPlayerState false (Some (L "HLS is not supported in this browser"));
         OnError ]
  /\ countOnError (trace (initializePlayer liveProps plainBrowser) mounted) = 2%nat.
Proof. repeat split. Qed.

(** The same for every address classified as segmented, and for every
    state of the refs with a video element. *)
Lemma unsupported_hls_reports_twice (url : str) (r : Refs) (pf : Platform) :
  isEmpty url = false ->
  videoRef r = true ->
  fst (fst (detectStreamType url)) = hls ->
  hlsImportError pf = None ->
  hlsIsSupported pf = false ->
  canPlayHls pf = false ->
  countOnError (trace (initializePlayer (mkProps url true) pf) r) = 2%nat.
Proof.
  intros Hu Hv Ht Hi Hs Hc.
  unfold trace, initializePlayer, bind, get. cbn [streamUrl].
  rewrite Hu, Hv. cbn [orb negb].
  destruct (detectStreamType url) as [[ty clean] drm]. cbn in Ht. subst ty.
  destruct r as [h sh pt lt mt vd]. cbn in Hv. subst vd.
  unfold initHlsPlayer. rewrite Hi, Hs, Hc.
  destruct h, sh, lt; reflexivity.
Qed.

(** With the double report, the failover of [EventPlayer] skips a link:
    both calls come from the handler of one render and queue an increment
    each. *)
Lemma double_report_skips_a_link (Link : Type) (a b c : Link) :
  let s := mkState (Some [a; b; c]) 0%Z true in
  match handleVideoError s, handleVideoError s with
  | Some first, Some second => second (first (currentLinkIndex s)) = 2%Z
  | _, _ => False
  end.
Proof. reflexivity. Qed.

Section Timeline.

Lemma Qltb_lt (a b : Q) : Qltb a b = true <-> a < b.
Proof.
  unfold Qltb. rewrite negb_true_iff. split.
  - intros H. apply Qnot_le_lt. intros Hle.
    apply Qle_bool_iff in Hle. congruence.
  - intros H. destruct (Qle_bool b a) eqn:E; [|reflexivity].
    apply Qle_bool_iff in E. apply Qlt_not_le in H. contradiction.
Qed.

Variable playerTypeRef : option PlayerType.
Variable shakaPlayerRef : option SeekRange.


End Timeline.



(* ================================================================== *)
(** ** Rounding to binary64 *)
(* ================================================================== *)

Section Rounding.

Lemma pow2_pos (e : Z) : 0 < pow2 e.
Proof. apply Qpower_0_lt. reflexivity. Qed.

Lemma pow2_le (a b : Z) : (a <= b)%Z -> pow2 a <= pow2 b.
Proof. intros H. apply Qpower_le_compat_l; [exact H|discriminate]. Qed.

Lemma pow2_plus (a b : Z) : pow2 (a + b) == pow2 a * pow2 b.
Proof. apply Qpower_plus. discriminate. Qed.

Lemma pow2_Z (a : Z) : (0 <= a)%Z -> pow2 a == inject_Z (2 ^ a).
Proof. intros H. unfold pow2. now rewrite (Zpower_Qpower 2 a H). Qed.

Lemma Qmake_inject (n : Z) (d : positive) :
  n # d == inject_Z n / inject_Z (Zpos d).
Proof. apply Qmake_Qdiv. Qed.

(** the exponent found is the one of the binade *)
Lemma ilog2_spec (q : Q) :
  0 < q -> pow2 (ilog2 q) <= q /\ q < pow2 (ilog2 q + 1).
Proof.
  intros Hq. destruct q as [n d]. unfold ilog2. cbn [Qnum Qden].
  assert (Hn : (0 < n)%Z).
  { unfold Qlt in Hq. cbn in Hq. lia. }
  set (a := Z.log2 n). set (b := Z.log2 (Zpos d)).
  assert (Ha : (0 <= a)%Z) by apply Z.log2_nonneg.
  assert (Hb : (0 <= b)%Z) by apply Z.log2_nonneg.
  destruct (Z.log2_spec n Hn) as [Ha1 Ha2]. fold a in Ha1, Ha2.
  destruct (Z.log2_spec (Zpos d) eq_refl) as [Hb1 Hb2]. fold b in Hb1, Hb2.
  assert (Qn1 : pow2 a <= inject_Z n).
  { rewrite pow2_Z by exact Ha. now rewrite <- Zle_Qle. }
  assert (Qn2 : inject_Z n < pow2 (a + 1)).
  { rewrite pow2_Z by lia. rewrite <- Zlt_Qlt. now rewrite <- Z.add_1_r in Ha2. }
  assert (Qd1 : pow2 b <= inject_Z (Zpos d)).
  { rewrite pow2_Z by exact Hb. now rewrite <- Zle_Qle. }
  assert (Qd2 : inject_Z (Zpos d) < pow2 (b + 1)).
  { rewrite pow2_Z by lia. rewrite <- Zlt_Qlt. now rewrite <- Z.add_1_r in Hb2. }
  assert (Hd : 0 < inject_Z (Zpos d)) by reflexivity.
  assert (Eq : (n # d) * inject_Z (Zpos d) == inject_Z n).
  { rewrite Qmake_inject. field. discriminate. }
  pose proof (pow2_pos b) as Pb. pose proof (pow2_pos (a - b)) as Pab.
  pose proof (pow2_pos (a - b - 1)) as Pab1.
  assert (E1 : pow2 a == pow2 (a - b) * pow2 b).
  { rewrite <- pow2_plus. now replace (a - b + b)%Z with a by lia. }
  assert (E2 : pow2 (a + 1) == pow2 (a - b + 1) * pow2 b).
  { rewrite <- pow2_plus. now replace (a - b + 1 + b)%Z with (a + 1)%Z by lia. }
  assert (E3 : pow2 a == pow2 (a - b - 1) * pow2 (b + 1)).
  { rewrite <- pow2_plus. now replace (a - b - 1 + (b + 1))%Z with a by lia. }
  destruct (Qle_bool (pow2 (a - b)) (n # d)) eqn:E.
  - apply Qle_bool_iff in E. split; [exact E|].
    (* n/d < 2^(a-b+1) : n < 2^(a+1) = 2^(a-b+1) 2^b <= 2^(a-b+1) d *)
    apply Qnot_le_lt. intros Hc.
    assert (pow2 (a - b + 1) * pow2 b <= (n # d) * inject_Z (Zpos d)).
    { apply Qmult_le_compat_nonneg; split; try assumption;
        apply Qlt_le_weak; apply pow2_pos. }
    rewrite Eq, <- E2 in H. apply (Qlt_irrefl (inject_Z n)).
    eapply Qlt_le_trans; eassumption.
  - replace (a - b - 1 + 1)%Z with (a - b)%Z by lia. split.
    + (* 2^(a-b-1) <= n/d *)
      apply Qnot_lt_le. intros Hc.
      assert ((n # d) * inject_Z (Zpos d) < pow2 (a - b - 1) * pow2 (b + 1)).
      { apply Qle_lt_trans with (pow2 (a - b - 1) * inject_Z (Zpos d)).
        - apply Qmult_le_compat_r; [now apply Qlt_le_weak|now apply Qlt_le_weak].
        - apply Qmult_lt_l; assumption. }
      rewrite Eq, <- E3 in H. apply (Qlt_irrefl (inject_Z n)).
      eapply Qlt_le_trans; eassumption.
    + apply Qnot_le_lt. intros Hc. apply Qle_bool_iff in Hc. congruence.
Qed.

Lemma ilog2_mono (a b : Q) : 0 < a -> a <= b -> (ilog2 a <= ilog2 b)%Z.
Proof.
  intros Ha Hab.
  destruct (ilog2_spec a Ha) as [A1 A2].
  destruct (ilog2_spec b (Qlt_le_trans _ _ _ Ha Hab)) as [B1 B2].
  destruct (Z.le_gt_cases (ilog2 a) (ilog2 b)) as [H|H]; [exact H|].
  exfalso. assert (Hp : pow2 (ilog2 b + 1) <= pow2 (ilog2 a)) by (apply pow2_le; lia).
  apply (Qlt_irrefl b). eapply Qlt_le_trans; [exact B2|].
  eapply Qle_trans; [exact Hp|]. eapply Qle_trans; eassumption.
Qed.

Lemma ulpExp_mono (a b : Q) : 0 < a -> a <= b -> (ulpExp a <= ulpExp b)%Z.
Proof.
  intros Ha Hab. unfold ulpExp. pose proof (ilog2_mono a b Ha Hab). lia.
Qed.

(** rounding to the nearest whole number *)
Lemma rne_bounds (m : Q) : (Qfloor m <= rne m <= Qfloor m + 1)%Z.
Proof.
  unfold rne. cbv zeta.
  destruct (Qcompare (m - inject_Z (Qfloor m)) (1 # 2)); [|lia|lia].
  destruct (Z.even (Qfloor m)); lia.
Qed.

Lemma rne_mono (x y : Q) : x <= y -> (rne x <= rne y)%Z.
Proof.
  intros H. pose proof (Qfloor_resp_le x y H) as Hf.
  pose proof (rne_bounds x) as Bx. pose proof (rne_bounds y) as By.
  destruct (Z.eq_dec (Qfloor x) (Qfloor y)) as [E|N]; [|lia].
  unfold rne. cbv zeta. rewrite <- E.
  destruct (Qcompare_spec (x - inject_Z (Qfloor x)) (1 # 2)) as [Cx|Cx|Cx];
    destruct (Qcompare_spec (y - inject_Z (Qfloor x)) (1 # 2)) as [Cy|Cy|Cy];
    try (destruct (Z.even (Qfloor x)); lia); try lia; exfalso; lra.
Qed.

Lemma rne_Z (z : Z) : rne (inject_Z z) = z.
Proof.
  unfold rne. cbv zeta. rewrite Qfloor_Z.
  replace (Qcompare (inject_Z z - inject_Z z) (1 # 2)) with Lt; [reflexivity|].
  symmetry. apply Qlt_alt.
  assert (E : inject_Z z - inject_Z z == 0) by ring. now rewrite E.
Qed.

Lemma roundPos_nonneg (q : Q) : 0 < q -> 0 <= roundPos q.
Proof.
  intros Hq. unfold roundPos. apply Qmult_le_0_compat.
  - pose proof (rne_mono 0 (q / pow2 (ulpExp q))) as H.
    change 0 with (inject_Z 0) at 1. rewrite <- Zle_Qle.
    change (rne 0) with 0%Z in H. apply H.
    apply Qlt_le_weak. apply Qlt_shift_div_l; [apply pow2_pos|]. lra.
  - apply Qlt_le_weak, pow2_pos.
Qed.

(** the scaled value lies below 2^53, and from 2^52 on in a binade *)
Lemma scaled_below (q : Q) : 0 < q -> q / pow2 (ulpExp q) < pow2 53.
Proof.
  intros Hq. apply Qlt_shift_div_r; [apply pow2_pos|].
  rewrite <- pow2_plus. destruct (ilog2_spec q Hq) as [_ H].
  eapply Qlt_le_trans; [exact H|]. apply pow2_le. unfold ulpExp. lia.
Qed.

Lemma scaled_above (q : Q) :
  0 < q -> (-1074 < ulpExp q)%Z -> pow2 52 <= q / pow2 (ulpExp q).
Proof.
  intros Hq He. apply Qle_shift_div_l; [apply pow2_pos|].
  rewrite <- pow2_plus. destruct (ilog2_spec q Hq) as [H _].
  eapply Qle_trans; [|exact H]. apply pow2_le. unfold ulpExp in *. lia.
Qed.

Lemma roundPos_mono (a b : Q) : 0 < a -> a <= b -> roundPos a <= roundPos b.
Proof.
  intros Ha Hab. assert (Hb : 0 < b) by (eapply Qlt_le_trans; eassumption).
  pose proof (ulpExp_mono a b Ha Hab) as He. unfold roundPos.
  destruct (Z.eq_dec (ulpExp a) (ulpExp b)) as [E|N].
  - rewrite E. apply Qmult_le_compat_r; [|apply Qlt_le_weak, pow2_pos].
    rewrite <- Zle_Qle. apply rne_mono.
    apply Qmult_le_compat_r; [exact Hab|].
    apply Qlt_le_weak, Qinv_lt_0_compat, pow2_pos.
  - (* different binades *)
    apply Qle_trans with (pow2 53 * pow2 (ulpExp a)).
    + apply Qmult_le_compat_r; [|apply Qlt_le_weak, pow2_pos].
      rewrite (pow2_Z 53) by lia. rewrite <- Zle_Qle.
      pose proof (rne_bounds (a / pow2 (ulpExp a))) as [_ B].
      assert (F : (Qfloor (a / pow2 (ulpExp a)) < 2 ^ 53)%Z).
      { apply Z.lt_nge. intros Hc.
        pose proof (scaled_below a Ha) as S. rewrite (pow2_Z 53) in S by lia.
        pose proof (Qfloor_le (a / pow2 (ulpExp a))) as Fl.
        rewrite Zle_Qle in Hc. lra. }
      lia.
    + apply Qle_trans with (pow2 52 * pow2 (ulpExp b)).
      * rewrite <- !pow2_plus. apply pow2_le. lia.
      * apply Qmult_le_compat_r; [|apply Qlt_le_weak, pow2_pos].
        rewrite (pow2_Z 52) by lia. rewrite <- Zle_Qle.
        pose proof (rne_bounds (b / pow2 (ulpExp b))) as [B _].
        assert (F : (2 ^ 52 <= Qfloor (b / pow2 (ulpExp b)))%Z).
        { rewrite <- (Qfloor_Z (2 ^ 52)). apply Qfloor_resp_le.
          rewrite <- (pow2_Z 52) by lia. apply scaled_above; [exact Hb|].
          assert (-1074 <= ulpExp a)%Z by (unfold ulpExp; lia). lia. }
        lia.
Qed.

Lemma nle_Fin (a b : Q) : nle (Fin a) (Fin b) = true <-> a <= b.
Proof. apply Qle_bool_iff. Qed.

(** The rounding never gives not-a-number. *)
Lemma rnd_cases (q : Q) :
  (exists r, rnd q = Fin r) \/ (exists s, rnd q = Inf s).
Proof.
  unfold rnd. destruct (Qcompare q 0); cbv zeta.
  - left; eauto.
  - destruct (Qle_bool _ _); [left|right]; eauto.
  - destruct (Qle_bool _ _); [left|right]; eauto.
Qed.

(** Rounding keeps the order. *)
Lemma rnd_mono (a b : Q) : a <= b -> nle (rnd a) (rnd b) = true.
Proof.
  intros Hab. unfold rnd.
  destruct (Qcompare_spec a 0) as [Ca|Ca|Ca];
    destruct (Qcompare_spec b 0) as [Cb|Cb|Cb]; cbv zeta;
    try (exfalso; lra).
  - reflexivity.
  - destruct (Qle_bool (roundPos b) maxFinite); [|reflexivity].
    apply nle_Fin. rewrite Qred_correct. now apply roundPos_nonneg.
  - destruct (Qle_bool (roundPos (- a)) maxFinite); [|reflexivity].
    apply nle_Fin. rewrite Qred_correct.
    assert (0 <= roundPos (- a)) by (apply roundPos_nonneg; lra). lra.
  - assert (Hm : roundPos (- b) <= roundPos (- a)) by (apply roundPos_mono; lra).
    destruct (Qle_bool (roundPos (- a)) maxFinite) eqn:Ea;
      destruct (Qle_bool (roundPos (- b)) maxFinite) eqn:Eb; try reflexivity.
    + apply nle_Fin. rewrite !Qred_correct. lra.
    + apply Qle_bool_iff in Ea.
      assert (Qle_bool (roundPos (- b)) maxFinite = true)
        by (apply Qle_bool_iff; lra).
      congruence.
  - destruct (Qle_bool (roundPos (- a)) maxFinite);
      destruct (Qle_bool (roundPos b) maxFinite); try reflexivity.
    apply nle_Fin. rewrite !Qred_correct.
    assert (0 <= roundPos (- a)) by (apply roundPos_nonneg; lra).
    assert (0 <= roundPos b) by (apply roundPos_nonneg; lra). lra.
  - assert (Hm : roundPos a <= roundPos b) by (apply roundPos_mono; lra).
    destruct (Qle_bool (roundPos a) maxFinite) eqn:Ea;
      destruct (Qle_bool (roundPos b) maxFinite) eqn:Eb; try reflexivity.
    + apply nle_Fin. rewrite !Qred_correct. exact Hm.
    + apply Qle_bool_iff in Eb.
      assert (Qle_bool (roundPos a) maxFinite = true)
        by (apply Qle_bool_iff; lra).
      congruence.
Qed.


Lemma ilog2_unique (q : Q) (e : Z) :
  0 < q -> pow2 e <= q -> q < pow2 (e + 1) -> ilog2 q = e.
Proof.
  intros Hq H1 H2. destruct (ilog2_spec q Hq) as [S1 S2].
  destruct (Z.lt_trichotomy (ilog2 q) e) as [H|[H|H]]; [|exact H|]; exfalso.
  - assert (pow2 (ilog2 q + 1) <= pow2 e) by (apply pow2_le; lia). lra.
  - assert (pow2 (e + 1) <= pow2 (ilog2 q)) by (apply pow2_le; lia). lra.
Qed.

Lemma ilog2_comp (a b : Q) : a == b -> 0 < a -> ilog2 a = ilog2 b.
Proof.
  intros E Ha. symmetry. destruct (ilog2_spec a Ha) as [S1 S2].
  apply ilog2_unique; rewrite <- E; assumption.
Qed.

Lemma rne_comp (x y : Q) : x == y -> rne x = rne y.
Proof.
  intros E. unfold rne. cbv zeta. rewrite (Qfloor_comp x y E).
  replace (Qcompare (x - inject_Z (Qfloor y)) (1 # 2))
    with (Qcompare (y - inject_Z (Qfloor y)) (1 # 2)); [reflexivity|].
  apply Qcompare_comp; [|reflexivity]. now rewrite E.
Qed.

Lemma roundPos_comp (a b : Q) : a == b -> 0 < a -> roundPos a == roundPos b.
Proof.
  intros E Ha. unfold roundPos, ulpExp. rewrite <- (ilog2_comp a b E Ha).
  generalize (pow2 (Z.max (ilog2 a - 52) (-1074))). intros p.
  rewrite (rne_comp (a / p) (b / p)); [reflexivity|]. now rewrite E.
Qed.

(** Equal rationals round to the same number. *)
Lemma rnd_comp (a b : Q) : a == b -> rnd a = rnd b.
Proof.
  intros E. unfold rnd.
  replace (Qcompare b 0) with (Qcompare a 0)
    by (apply Qcompare_comp; [exact E|reflexivity]).
  destruct (Qcompare_spec a 0) as [C|C|C]; cbv zeta; [reflexivity| |].
  - assert (R : roundPos (- a) == roundPos (- b)).
    { apply roundPos_comp; [now rewrite E|lra]. }
    replace (Qle_bool (roundPos (- b)) maxFinite)
      with (Qle_bool (roundPos (- a)) maxFinite)
      by (apply Qleb_comp; [exact R|reflexivity]).
    destruct (Qle_bool (roundPos (- a)) maxFinite); [|reflexivity].
    f_equal. apply Qred_complete. now rewrite R.
  - assert (R : roundPos a == roundPos b) by (now apply roundPos_comp).
    replace (Qle_bool (roundPos b) maxFinite)
      with (Qle_bool (roundPos a) maxFinite)
      by (apply Qleb_comp; [exact R|reflexivity]).
    destruct (Qle_bool (roundPos a) maxFinite); [|reflexivity].
    f_equal. apply Qred_complete. exact R.
Qed.

Lemma isDouble_spec (q : Q) :
  isDouble q = true -> exists r, rnd q = Fin r /\ r == q.
Proof.
  unfold isDouble. destruct (rnd q) as [| |r]; try discriminate.
  intros H. exists r. split; [reflexivity|now apply Qeq_bool_iff].
Qed.

Lemma Qcompare_opp_0 (q : Q) : Qcompare (- q) 0 = CompOpp (Qcompare q 0).
Proof.
  destruct (Qcompare_spec q 0) as [C|C|C]; cbn [CompOpp].
  - apply (proj1 (Qeq_alt _ _)). lra.
  - apply (proj1 (Qgt_alt _ _)). lra.
  - apply (proj1 (Qlt_alt _ _)). lra.
Qed.

(** The numbers of the format come with their opposites. *)
Lemma isDouble_opp (q : Q) :
  isDouble q = true -> exists r, rnd (- q) = Fin r /\ r == - q.
Proof.
  intros H. apply isDouble_spec in H as (r & Er & Hr). revert Er. unfold rnd.
  rewrite Qcompare_opp_0.
  destruct (Qcompare_spec q 0) as [C|C|C]; cbn [CompOpp]; cbv zeta.
  - intros _. exists 0. split; [reflexivity|lra].
  - destruct (Qle_bool (roundPos (- q)) maxFinite) eqn:B; [|discriminate].
    intros H. assert (E : r = Qred (- roundPos (- q))) by congruence. subst r.
    pose proof (Qred_correct (- roundPos (- q))) as Q1.
    pose proof (Qred_correct (roundPos (- q))) as Q2.
    exists (Qred (roundPos (- q))). split; [reflexivity|]. lra.
  - destruct (Qle_bool (roundPos q) maxFinite) eqn:B; [|discriminate].
    intros H. assert (E : r = Qred (roundPos q)) by congruence. subst r.
    assert (R : roundPos (- - q) == roundPos q) by (apply roundPos_comp; lra).
    assert (B' : Qle_bool (roundPos (- - q)) maxFinite = true).
    { apply Qle_bool_iff in B. apply Qle_bool_iff. lra. }
    rewrite B'. exists (Qred (- roundPos (- - q))). split; [reflexivity|].
    pose proof (Qred_correct (- roundPos (- - q))) as Q1.
    pose proof (Qred_correct (roundPos q)) as Q2. lra.
Qed.

Lemma nle_between (a b : Q) (x : num) :
  nle (Fin a) x = true -> nle x (Fin b) = true ->
  exists r, x = Fin r /\ a <= r <= b.
Proof.
  destruct x as [|[]|r]; try discriminate. intros H1 H2.
  exists r. split; [reflexivity|]. split; now apply Qle_bool_iff.
Qed.

Lemma rnd_0 : rnd 0 = Fin 0. Proof. reflexivity. Qed.
Lemma rnd_1 : rnd 1 = Fin 1. Proof. vm_compute. reflexivity. Qed.
Lemma rnd_100 : rnd 100 = Fin 100. Proof. vm_compute. reflexivity. Qed.

(** A real result between two numbers of the format rounds to a number
    between them. *)
Lemma rnd_between (a b q : Q) (ra rb : Q) :
  rnd a = Fin ra -> rnd b = Fin rb -> a <= q <= b ->
  exists r, rnd q = Fin r /\ ra <= r <= rb.
Proof.
  intros Ea Eb [H1 H2]. apply nle_between.
  - rewrite <- Ea. now apply rnd_mono.
  - rewrite <- Eb. now apply rnd_mono.
Qed.

Lemma rnd_nonneg (q : Q) : 0 <= q -> nle (Fin 0) (rnd q) = true.
Proof. intros H. rewrite <- rnd_0. now apply rnd_mono. Qed.

Lemma pow2_lt_inv (a b : Z) : pow2 a < pow2 b -> (a < b)%Z.
Proof.
  intros H. destruct (Z.lt_ge_cases a b) as [L|G]; [exact L|].
  pose proof (pow2_le b a G). lra.
Qed.

(** the binade of a number at or above a power of two *)
Lemma ilog2_ge (q : Q) (n : Z) : pow2 n <= q -> (n <= ilog2 q)%Z.
Proof.
  intros H. assert (Hq : 0 < q) by (pose proof (pow2_pos n); lra).
  destruct (ilog2_spec q Hq) as [_ S2].
  assert (L : pow2 n < pow2 (ilog2 q + 1)) by lra.
  apply pow2_lt_inv in L. lia.
Qed.

Lemma ilog2_lt (q : Q) (n : Z) : 0 < q -> q < pow2 n -> (ilog2 q < n)%Z.
Proof.
  intros Hq H. destruct (ilog2_spec q Hq) as [S1 _].
  assert (L : pow2 (ilog2 q) < pow2 n) by lra.
  now apply pow2_lt_inv in L.
Qed.

(** rounding to the nearest moves a number by at most half a unit *)
Lemma rne_upper (m : Q) : inject_Z (rne m) <= m + (1 # 2).
Proof.
  unfold rne. cbv zeta.
  pose proof (Qfloor_le m) as Hf. pose proof (Qlt_floor m) as Hc.
  rewrite inject_Z_plus in Hc. change (inject_Z 1) with 1 in Hc.
  destruct (Qcompare_spec (m - inject_Z (Qfloor m)) (1 # 2)) as [C|C|C].
  - destruct (Z.even (Qfloor m)); [lra|].
    rewrite inject_Z_plus. change (inject_Z 1) with 1. lra.
  - lra.
  - rewrite inject_Z_plus. change (inject_Z 1) with 1. lra.
Qed.

Lemma roundPos_upper (q : Q) : 0 < q -> roundPos q <= q + pow2 (ulpExp q) / 2.
Proof.
  intros Hq. unfold roundPos. pose proof (pow2_pos (ulpExp q)) as Hp.
  pose proof (rne_upper (q / pow2 (ulpExp q))) as H.
  set (p := pow2 (ulpExp q)) in *.
  assert (E : q + p / 2 == (q / p + (1 # 2)) * p) by (field; lra).
  rewrite E. apply Qmult_le_compat_r; [exact H|lra].
Qed.

(** a number of the format is a whole multiple of its unit *)
Lemma double_multiple (t : Q) :
  isDouble t = true -> 0 < t ->
  exists n, t == inject_Z n * pow2 (ulpExp t).
Proof.
  intros D Ht. apply isDouble_spec in D as (r & Er & Hr). revert Er. unfold rnd.
  replace (Qcompare t 0) with Gt by (symmetry; apply (proj1 (Qgt_alt _ _)); exact Ht).
  cbv zeta. destruct (Qle_bool _ _); [|discriminate]. intros E.
  assert (Er : r = Qred (roundPos t)) by congruence.
  exists (rne (t / pow2 (ulpExp t))).
  rewrite Er, Qred_correct in Hr. symmetry. exact Hr.
Qed.

(** and a whole multiple of its unit is left as it is *)
Lemma roundPos_multiple (q : Q) (k : Z) :
  0 < q -> q == inject_Z k * pow2 (ulpExp q) -> roundPos q == q.
Proof.
  intros Hq E. unfold roundPos. pose proof (pow2_pos (ulpExp q)) as Hp.
  set (p := pow2 (ulpExp q)) in *.
  assert (Eq : q / p == inject_Z k).
  { rewrite E. field. lra. }
  rewrite (rne_comp _ _ Eq), rne_Z. now rewrite E.
Qed.

Lemma pow2_neg (e : Z) : (e <= 0)%Z -> pow2 e * inject_Z (2 ^ (- e)) == 1.
Proof.
  intros H. rewrite <- pow2_Z by lia. rewrite <- pow2_plus.
  replace (e + - e)%Z with 0%Z by lia. reflexivity.
Qed.

Lemma int_multiple (n e : Z) :
  (e <= 0)%Z -> inject_Z n == inject_Z (n * 2 ^ (- e)) * pow2 e.
Proof.
  intros H. rewrite inject_Z_mult, <- Qmult_assoc, (Qmult_comm (inject_Z (2 ^ (- e)))).
  rewrite pow2_neg by exact H. ring.
Qed.

Lemma inject_Z_pos (n : Z) : (0 < n)%Z -> 0 < inject_Z n.
Proof. intros H. change 0 with (inject_Z 0). now rewrite <- Zlt_Qlt. Qed.

Lemma ulpExp_int (n : Z) : (0 < n < 2 ^ 53)%Z -> (ulpExp (inject_Z n) <= 0)%Z.
Proof.
  intros [H0 H1]. unfold ulpExp.
  assert (ilog2 (inject_Z n) < 53)%Z.
  { apply ilog2_lt; [now apply inject_Z_pos|].
    rewrite pow2_Z by lia. now rewrite <- Zlt_Qlt. }
  lia.
Qed.

Lemma maxFinite_large (n : Z) : (n <= 2 ^ 53)%Z -> inject_Z n <= maxFinite.
Proof.
  intros H. apply Qle_trans with (inject_Z (2 ^ 53)); [now rewrite <- Zle_Qle|].
  vm_compute. discriminate.
Qed.

(** whole numbers below 2^53 are numbers of the format *)
Lemma int_isDouble (n : Z) : (0 <= n < 2 ^ 53)%Z -> isDouble (inject_Z n) = true.
Proof.
  intros [H0 H1]. destruct (Z.eq_dec n 0) as [->|Hn]; [reflexivity|].
  assert (Hq : 0 < inject_Z n) by (apply inject_Z_pos; lia).
  assert (He : (ulpExp (inject_Z n) <= 0)%Z) by (apply ulpExp_int; lia).
  pose proof (roundPos_multiple _ _ Hq (int_multiple n _ He)) as E.
  unfold isDouble, rnd.
  replace (Qcompare (inject_Z n) 0) with Gt
    by (symmetry; apply (proj1 (Qgt_alt _ _)); exact Hq).
  cbv zeta.
  assert (L : Qle_bool (roundPos (inject_Z n)) maxFinite = true).
  { apply Qle_bool_iff. rewrite E. apply maxFinite_large. lia. }
  rewrite L. apply Qeq_bool_iff. now rewrite Qred_correct.
Qed.

Lemma rnd_half : rnd (1 # 2) = Fin (1 # 2).
Proof. vm_compute. reflexivity. Qed.

(** Dividing a number below c * N, and at least one unit of its own scale
    below it, by c gives a quotient that rounds to a number below N: the
    quotient lies more than half a unit of its scale below N. *)
Lemma rnd_div_below (x : Q) (c N j e k : Z) :
  0 <= x ->
  (0 <= j)%Z -> (2 ^ j <= c < 2 ^ (j + 1))%Z ->
  (1 <= N <= 2 ^ 53)%Z ->
  inject_Z (c * N) - x == inject_Z k * pow2 e ->
  x < inject_Z (c * N) ->
  (0 < x -> (ilog2 x - 52 <= e)%Z) ->
  exists y, rnd (x / inject_Z c) = Fin y /\ 0 <= y < inject_Z N.
Proof.
  intros Hx Hj [Hc1 Hc2] [HN1 HN2] Hk Hlt He.
  assert (Hcz : (0 < c)%Z) by (pose proof (Z.pow_pos_nonneg 2 j); lia).
  assert (Hc : 0 < inject_Z c) by now apply inject_Z_pos.
  assert (HN : 1 <= inject_Z N) by (change 1 with (inject_Z 1); now rewrite <- Zle_Qle).
  set (q := x / inject_Z c).
  assert (Hq0 : 0 <= q) by (apply Qle_shift_div_l; lra).
  assert (Ex : x == q * inject_Z c) by (unfold q; field; lra).
  destruct (Qlt_le_dec (1 # 2) q) as [Hq|Hq].
  2:{ destruct (rnd_between 0 (1 # 2) q 0 (1 # 2) rnd_0 rnd_half) as (y & Ey & Hy);
        [lra|].
      exists y. split; [exact Ey|lra]. }
  assert (Hqpos : 0 < q) by lra.
  assert (Hxpos : 0 < x) by (rewrite Ex; apply Qmult_lt_0_compat; lra).
  specialize (He Hxpos).
  set (a := ilog2 q).
  assert (Ha : (-1 <= a)%Z).
  { apply ilog2_ge. change (pow2 (-1)) with (1 # 2). lra. }
  assert (Eu : ulpExp q = (a - 52)%Z) by (unfold ulpExp; fold a; lia).
  destruct (ilog2_spec q Hqpos) as [S1 _]. fold a in S1.
  assert (Hcj : inject_Z (2 ^ j) <= inject_Z c) by now rewrite <- Zle_Qle.
  assert (Hcj2 : inject_Z c < 2 * inject_Z (2 ^ j)).
  { change 2 with (inject_Z 2). rewrite <- inject_Z_mult, <- Zlt_Qlt.
    rewrite Z.pow_add_r in Hc2 by lia. lia. }
  assert (Hpj : 0 < inject_Z (2 ^ j)).
  { apply inject_Z_pos. now apply Z.pow_pos_nonneg. }
  assert (Hxa : pow2 (a + j) <= x).
  { rewrite pow2_plus, (pow2_Z j) by exact Hj. rewrite Ex.
    pose proof (pow2_pos a). nra. }
  apply ilog2_ge in Hxa.
  assert (Hv : pow2 (a - 52) * inject_Z (2 ^ j) <= pow2 e).
  { rewrite <- (pow2_Z j) by exact Hj. rewrite <- pow2_plus. apply pow2_le. lia. }
  pose proof (pow2_pos e) as Hpe. pose proof (pow2_pos (a - 52)) as Hpv.
  assert (Hk1 : 1 <= inject_Z k).
  { change 1 with (inject_Z 1). rewrite <- Zle_Qle.
    assert (Hk0 : 0 < inject_Z k * pow2 e) by (rewrite <- Hk; lra).
    destruct (Z_lt_le_dec 0 k) as [L|G]; [lia|].
    assert (inject_Z k <= 0) by (change 0 with (inject_Z 0); now rewrite <- Zle_Qle).
    nra. }
  assert (Hgap : pow2 e <= inject_Z (c * N) - x) by (rewrite Hk; nra).
  rewrite inject_Z_mult in Hgap.
  pose proof (roundPos_upper q Hqpos) as Hup. rewrite Eu in Hup.
  pose proof (roundPos_nonneg q Hqpos) as Hlo.
  assert (Hbelow : roundPos q < inject_Z N).
  { set (v := pow2 (a - 52)) in *. set (P := inject_Z (2 ^ j)) in *.
    set (C := inject_Z c) in *. set (n := inject_Z N) in *.
    assert (E2 : q + v / 2 == q + v * (1 # 2)) by (field).
    rewrite E2 in Hup.
    assert (Hm : (n - q) * C == C * n - x) by (rewrite Ex; ring).
    assert (Hd : v * (1 # 2) < n - q).
    { apply Qmult_lt_r with C; [exact Hc|]. rewrite Hm. nra. }
    lra. }
  unfold rnd.
  replace (Qcompare q 0) with Gt by (symmetry; apply (proj1 (Qgt_alt _ _)); exact Hqpos).
  cbv zeta.
  assert (L : Qle_bool (roundPos q) maxFinite = true).
  { apply Qle_bool_iff. pose proof (maxFinite_large N HN2). lra. }
  rewrite L. eexists. split; [reflexivity|]. rewrite Qred_correct. lra.
Qed.

Lemma nle_Qeq_l (a a' : Q) (x : num) :
  a == a' -> nle (Fin a') x = true -> nle (Fin a) x = true.
Proof.
  intros E. destruct x as [|[]|r]; cbn [nle]; try (intros H; exact H).
  intros H. apply Qle_bool_iff in H. apply Qle_bool_iff. lra.
Qed.

Lemma nle_Qeq_r (b b' : Q) (x : num) :
  b == b' -> nle x (Fin b') = true -> nle x (Fin b) = true.
Proof.
  intros E. destruct x as [|[]|r]; cbn [nle]; try (intros H; exact H).
  intros H. apply Qle_bool_iff in H. apply Qle_bool_iff. lra.
Qed.

End Rounding.

(** The rounding agrees with the operations of the library's specification
    of binary64 (precision 53, exponents below 1024) on the numbers of the
    examples that follow, and at the edges of the format: a quotient that
    is not exact, sums and quotients beyond the largest number, products
    and quotients below the smallest, a tie, a division by 0. *)
Example rounding_agrees_with_the_reference :
  let d := rnd (660391 # 1000) in
  let s := rnd (36911 # 1000) in
  let third := fdiv (Fin 1) (Fin 3) in
  let tiny := Fin (pow2 (-1074)) in
  let big := Fin maxFinite in
  let low := Fin (3 * pow2 970) in
  toSF (fsub d s) = SpecFloat.SFsub 53 1024 (toSF d) (toSF s)
  /\ toSF (fdiv (Fin 200) (Fin 200))
     = SpecFloat.SFdiv 53 1024 (toSF (Fin 200)) (toSF (Fin 200))
  /\ toSF (fdiv d s) = SpecFloat.SFdiv 53 1024 (toSF d) (toSF s)
  /\ toSF (fmul d s) = SpecFloat.SFmul 53 1024 (toSF d) (toSF s)
  /\ toSF (fadd (fsub d s) s)
     = SpecFloat.SFadd 53 1024 (SpecFloat.SFsub 53 1024 (toSF d) (toSF s)) (toSF s)
  /\ toSF third = SpecFloat.SFdiv 53 1024 (toSF (Fin 1)) (toSF (Fin 3))
  /\ toSF (fsub third (Fin 3)) = SpecFloat.SFsub 53 1024 (toSF third) (toSF (Fin 3))
  /\ toSF (fadd big big) = SpecFloat.SFadd 53 1024 (toSF big) (toSF big)
  /\ toSF (fmul third tiny) = SpecFloat.SFmul 53 1024 (toSF third) (toSF tiny)
  /\ toSF (fdiv tiny (Fin 2)) = SpecFloat.SFdiv 53 1024 (toSF tiny) (toSF (Fin 2))
  /\ toSF (fmul tiny (Fin 3)) = SpecFloat.SFmul 53 1024 (toSF tiny) (toSF (Fin 3))
  /\ toSF (fdiv (Fin 1) (Fin 0)) = SpecFloat.SFdiv 53 1024 (toSF (Fin 1)) (toSF (Fin 0))
  /\ toSF (fdiv (Fin 0) (Fin 0)) = SpecFloat.SFdiv 53 1024 (toSF (Fin 0)) (toSF (Fin 0))
  /\ toSF (fsub big low) = SpecFloat.SFsub 53 1024 (toSF big) (toSF low)
  /\ toSF (fadd (fsub big low) low)
     = SpecFloat.SFadd 53 1024 (SpecFloat.SFsub 53 1024 (toSF big) (toSF low)) (toSF low)
  /\ toSF (fmul (fdiv (Fin (pow2 1023)) (Fin (pow2 (-1000)))) (Fin 100))
     = SpecFloat.SFmul 53 1024
         (SpecFloat.SFdiv 53 1024 (toSF (Fin (pow2 1023))) (toSF (Fin (pow2 (-1000)))))
         (toSF (Fin 100)).
Proof. vm_compute. repeat split. Qed.

Section Seeking.

Variable video : bool.
Variable progressBar : option Rect.
Variable playerState : TimeStats.
Variable clientX : Q.

Lemma Qeq_bool_pos (w : Q) : 0 < w -> Qeq_bool w 0 = false.
Proof.
  intros H. destruct (Qeq_bool w 0) eqn:E; [|reflexivity].
  apply Qeq_bool_iff in E. rewrite E in H. now apply Qlt_irrefl in H.
Qed.

(** The clamped offset lies in the bar. *)
Lemma clamp_bounds (x w : Q) :
  0 < w ->
  let m := if Qle_bool x w then x else w in
  let c := if Qle_bool 0 m then m else 0 in
  0 <= c <= w
  /\ (x <= 0 -> c == 0)
  /\ (w <= x -> c == w)
  /\ (0 <= x <= w -> c == x).
Proof.
  intros Hw m c. subst m c.
  destruct (Qle_bool x w) eqn:Exw.
  - apply Qle_bool_iff in Exw.
    destruct (Qle_bool 0 x) eqn:E0.
    + apply Qle_bool_iff in E0. repeat split; intros; lra.
    + assert (x < 0).
      { apply Qnot_le_lt. intros H. apply Qle_bool_iff in H. congruence. }
      repeat split; intros; lra.
  - assert (w < x).
    { apply Qnot_le_lt. intros H. apply Qle_bool_iff in H. congruence. }
    destruct (Qle_bool 0 w) eqn:E0.
    + repeat split; intros; lra.
    + assert (w < 0).
      { apply Qnot_le_lt. intros H'. apply Qle_bool_iff in H'. congruence. }
      lra.
Qed.

(** The same when the offset was computed with rounding: whatever the
    subtraction gave, the clamped offset is a number of the bar. *)
Lemma clamp64 (X : num) (w : Q) :
  0 < w -> X <> NaN ->
  exists c,
    nmax (Fin 0) (nmin X (Fin w)) = Fin c
    /\ 0 <= c <= w
    /\ (nle X (Fin 0) = true -> c == 0)
    /\ (nle (Fin w) X = true -> c == w)
    /\ (nle (Fin 0) X = true -> nle X (Fin w) = true -> X = Fin c).
Proof.
  intros Hw HX. destruct X as [|[]|x]; [congruence| | |].
  - exists 0. split; [reflexivity|]. split; [lra|].
    split; [reflexivity|]. split; discriminate.
  - exists w. cbn [nmin nmax].
    assert (E : Qle_bool 0 w = true) by (apply Qle_bool_iff; lra). rewrite E.
    split; [reflexivity|]. split; [lra|].
    split; [discriminate|]. split; [reflexivity|discriminate].
  - cbn [nmin nmax nle].
    destruct (clamp_bounds x w Hw) as (Hb & Hlo & Hhi & Hmid).
    eexists. split; [reflexivity|]. split; [exact Hb|]. split; [|split].
    + intros H. apply Qle_bool_iff in H. now apply Hlo.
    + intros H. apply Qle_bool_iff in H. now apply Hhi.
    + intros H0 H1. now rewrite H1, H0.
Qed.

(** The fraction of the bar under the pointer, as the code computes it. *)
Lemma fraction64 (rect : Rect) (x : Q) :
  0 < width rect ->
  exists p,
    fdiv (nmax (Fin 0) (nmin (fsub (Fin x) (Fin (left rect))) (Fin (width rect))))
         (Fin (width rect)) = Fin p
    /\ 0 <= p <= 1
    /\ (x - left rect <= 0 -> p == 0)
    /\ (isDouble (width rect) = true -> width rect <= x - left rect -> p == 1)
    /\ (isDouble (width rect) = true -> 0 <= x - left rect <= width rect ->
        Fin p = fdiv (fsub (Fin x) (Fin (left rect))) (Fin (width rect))).
Proof.
  intros Hw.
  assert (EX : fsub (Fin x) (Fin (left rect)) = rnd (x + - left rect)) by reflexivity.
  rewrite EX. set (X := rnd (x + - left rect)).
  assert (HX : X <> NaN).
  { subst X. destruct (rnd_cases (x + - left rect)) as [[r E]|[b E]];
      rewrite E; discriminate. }
  destruct (clamp64 X (width rect) Hw HX) as (c & Ec & [Hc0 Hcw] & Hlo & Hhi & Hmid).
  rewrite Ec.
  assert (Ediv : forall c', fdiv (Fin c') (Fin (width rect)) = rnd (c' / width rect)).
  { intros c'. unfold fdiv. cbn [ndiv]. now rewrite (Qeq_bool_pos _ Hw). }
  rewrite Ediv.
  assert (Hwne : ~ width rect == 0) by lra.
  destruct (rnd_between 0 1 (c / width rect) 0 1 rnd_0 rnd_1) as (p & Ep & Hp).
  { split; [apply Qle_shift_div_l|apply Qle_shift_div_r]; lra. }
  rewrite Ep. exists p. split; [reflexivity|]. split; [exact Hp|].
  split; [|split].
  - intros Hx.
    assert (H0 : nle X (Fin 0) = true).
    { subst X. rewrite <- rnd_0. apply rnd_mono. lra. }
    specialize (Hlo H0).
    assert (E0 : rnd (c / width rect) = rnd 0).
    { apply rnd_comp. rewrite Hlo. field. exact Hwne. }
    rewrite Ep, rnd_0 in E0. assert (p = 0) by congruence. subst p. reflexivity.
  - intros Dw Hx. apply isDouble_spec in Dw as (w' & Ew & Hw').
    assert (H1 : nle (Fin (width rect)) X = true).
    { apply (nle_Qeq_l _ w'); [now symmetry|].
      subst X. rewrite <- Ew. apply rnd_mono. lra. }
    specialize (Hhi H1).
    assert (E1 : rnd (c / width rect) = rnd 1).
    { apply rnd_comp. rewrite Hhi. field. exact Hwne. }
    rewrite Ep, rnd_1 in E1. assert (p = 1) by congruence. subst p. reflexivity.
  - intros Dw [Hx0 Hx1]. apply isDouble_spec in Dw as (w' & Ew & Hw').
    assert (H0 : nle (Fin 0) X = true).
    { subst X. rewrite <- rnd_0. apply rnd_mono. lra. }
    assert (H1 : nle X (Fin (width rect)) = true).
    { apply (nle_Qeq_r _ w'); [now symmetry|].
      subst X. rewrite <- Ew. apply rnd_mono. lra. }
    rewrite (Hmid H0 H1), Ediv. now symmetry.
Qed.

(** The target when seeking is enabled. *)
Lemma calculateNewTime64_enabled (rect : Rect) (st : TimeStats) (x d s : Q) :
  isLive st = false -> duration st = Fin d -> 0 < d -> startTime st = Fin s ->
  Binary64.calculateNewTime true (Some rect) st x
  = Some (fadd (fmul (fdiv (nmax (Fin 0)
                              (nmin (fsub (Fin x) (Fin (left rect))) (Fin (width rect))))
                           (Fin (width rect)))
                     (fsub (Fin d) (Fin s)))
               (Fin s)).
Proof.
  intros Hlive Hd Hpos Hs.
  unfold Binary64.calculateNewTime. rewrite Hlive, Hd, Hs.
  cbn [negb isFinite orb le0].
  assert (Ed : Qle_bool d 0 = false).
  { destruct (Qle_bool d 0) eqn:E; [|reflexivity].
    apply Qle_bool_iff in E. lra. }
  rewrite Ed. reflexivity.
Qed.

(** A fraction of the window, added to its start, is not negative, and not
    below the start when the start does not exceed the duration. *)
Lemma target_bounds (p d s : Q) :
  isDouble s = true -> isDouble d = true -> 0 <= p <= 1 -> 0 <= s -> 0 <= d ->
  nle (Fin 0) (fadd (fmul (Fin p) (fsub (Fin d) (Fin s))) (Fin s)) = true
  /\ (s <= d ->
      nle (Fin s) (fadd (fmul (Fin p) (fsub (Fin d) (Fin s))) (Fin s)) = true
      /\ nle (fadd (fmul (Fin p) (fsub (Fin d) (Fin s))) (Fin s))
             (fadd (fmul (Fin 1) (fsub (Fin d) (Fin s))) (Fin s)) = true).
Proof.
  intros Ds Dd Hp Hs Hd.
  destruct (isDouble_opp _ Ds) as (ms & Ems & Hms).
  apply isDouble_spec in Ds as (s' & Es & Hs').
  apply isDouble_spec in Dd as (d' & Ed' & Hd').
  assert (ER : fsub (Fin d) (Fin s) = rnd (d + - s)) by reflexivity.
  rewrite ER.
  destruct (rnd_between (- s) d (d + - s) ms d' Ems Ed') as (r & Er & Hr); [lra|].
  rewrite Er.
  assert (EM : fmul (Fin p) (Fin r) = rnd (p * r)) by reflexivity.
  rewrite EM.
  assert (Hpr : - s <= p * r <= d).
  { destruct (Qlt_le_dec r 0); split; nra. }
  destruct (rnd_between (- s) d (p * r) ms d' Ems Ed') as (m & Em & Hm); [exact Hpr|].
  rewrite Em.
  assert (EA : fadd (Fin m) (Fin s) = rnd (m + s)) by reflexivity.
  rewrite EA. split.
  - rewrite <- rnd_0. apply rnd_mono. lra.
  - intros Hsd.
    destruct (rnd_between 0 d (d + - s) 0 d' rnd_0 Ed') as (r0 & Er0 & Hr0); [lra|].
    assert (r0 = r) by congruence. subst r0.
    destruct (rnd_between 0 d (p * r) 0 d' rnd_0 Ed') as (m0 & Em0 & Hm0); [nra|].
    assert (m0 = m) by congruence. subst m0.
    split.
    + apply (nle_Qeq_l _ s'); [now symmetry|].
      rewrite <- Es. apply rnd_mono. lra.
    + assert (E1 : fmul (Fin 1) (Fin r) = rnd (1 * r)) by reflexivity.
      rewrite E1.
      destruct (rnd_between 0 d (1 * r) 0 d' rnd_0 Ed') as (m1 & Em1 & Hm1); [lra|].
      rewrite Em1.
      assert (EA1 : fadd (Fin m1) (Fin s) = rnd (m1 + s)) by reflexivity.
      rewrite EA1. apply rnd_mono.
      assert (Hmm : m <= m1).
      { assert (Hle : p * r <= 1 * r) by nra.
        pose proof (rnd_mono _ _ Hle) as Hb. rewrite Em, Em1 in Hb.
        now apply Qle_bool_iff in Hb. }
      lra.
Qed.

(** From start 0 it is a time of the recording. *)
Lemma target_in_duration (p d s : Q) :
  isDouble d = true -> 0 <= p <= 1 -> 0 <= d -> s == 0 ->
  exists t,
    fadd (fmul (Fin p) (fsub (Fin d) (Fin s))) (Fin s) = Fin t /\ 0 <= t <= d.
Proof.
  intros Dd Hp Hd Hs0. apply isDouble_spec in Dd as (d' & Ed' & Hd').
  assert (ER : fsub (Fin d) (Fin s) = rnd d).
  { change (fsub (Fin d) (Fin s)) with (rnd (d + - s)). apply rnd_comp. lra. }
  rewrite ER, Ed'.
  assert (EM : fmul (Fin p) (Fin d') = rnd (p * d')) by reflexivity.
  rewrite EM.
  destruct (rnd_between 0 d (p * d') 0 d' rnd_0 Ed') as (m & Em & Hm); [nra|].
  rewrite Em.
  assert (EA : fadd (Fin m) (Fin s) = rnd (m + s)) by reflexivity.
  rewrite EA.
  destruct (rnd_between 0 d (m + s) 0 d' rnd_0 Ed') as (t & Et & Ht); [lra|].
  exists t. split; [exact Et|lra].
Qed.

(** C6 (as amended): no target when the stream is live or the duration is
    not finite or not above 0.  Otherwise, for a bar of positive width,
    the pointer offset is clamped into the bar and divided by the width to
    a fraction [p] in [0,1] (0 at and left of the bar, 1 at and right of
    it), and the target is p * (duration - start) + start, every operation
    rounded to binary64.  For a start and a duration of the format with
    0 <= start <= duration the target is not below the start and not above
    the target of the right edge, (duration - start) + start as rounded;
    when the start is 0 it is a finite time within [0, duration]. *)
Theorem seek_target :
  (isLive playerState = true
   \/ isFinite (duration playerState) = false
   \/ le0 (duration playerState) = true ->
   Binary64.calculateNewTime video progressBar playerState clientX = None)
  /\ (forall rect d s,
         video = true ->
         progressBar = Some rect ->
         isLive playerState = false ->
         duration playerState = Fin d ->
         0 < d ->
         startTime playerState = Fin s ->
         0 < width rect ->
         exists p,
           0 <= p <= 1
           /\ Binary64.calculateNewTime video progressBar playerState clientX
              = Some (fadd (fmul (Fin p) (fsub (Fin d) (Fin s))) (Fin s))
           /\ (clientX - left rect <= 0 -> p == 0)
           /\ (isDouble (width rect) = true ->
               width rect <= clientX - left rect -> p == 1)
           /\ (isDouble (width rect) = true ->
               0 <= clientX - left rect <= width rect ->
               Fin p = fdiv (fsub (Fin clientX) (Fin (left rect))) (Fin (width rect)))
           /\ (isDouble s = true -> isDouble d = true -> 0 <= s <= d ->
               nle (Fin s) (fadd (fmul (Fin p) (fsub (Fin d) (Fin s))) (Fin s)) = true
               /\ nle (fadd (fmul (Fin p) (fsub (Fin d) (Fin s))) (Fin s))
                      (fadd (fmul (Fin 1) (fsub (Fin d) (Fin s))) (Fin s)) = true)
           /\ (isDouble d = true -> s == 0 ->
               exists t,
                 fadd (fmul (Fin p) (fsub (Fin d) (Fin s))) (Fin s) = Fin t
                 /\ 0 <= t <= d)).
Proof.
  split.
  - intros H. unfold Binary64.calculateNewTime.
    destruct progressBar as [rect|]; [|reflexivity].
    destruct H as [-> | [H | ->]].
    + now rewrite !orb_true_r.
    + rewrite H. cbn [negb]. now rewrite orb_true_r.
    + now rewrite orb_true_r.
  - intros rect d s -> -> Hlive Hd Hpos Hs Hw.
    rewrite (calculateNewTime64_enabled rect playerState clientX d s Hlive Hd Hpos Hs).
    destruct (fraction64 rect clientX Hw) as (p & Ep & Hp & Hlo & Hhi & Hmid).
    rewrite Ep. exists p. split; [exact Hp|]. split; [reflexivity|].
    split; [exact Hlo|]. split; [exact Hhi|]. split; [exact Hmid|]. split.
    + intros Ds Dd [Hs0 Hsd].
      apply (target_bounds p d s Ds Dd Hp Hs0); lra.
    + intros Dd Hs0. apply (target_in_duration p d s Dd Hp); [lra|exact Hs0].
Qed.

End Seeking.

(** A click in the middle of the sample bar, over the ten-minute video. *)
Lemma seek_target_witness :
  exists p,
    0 <= p <= 1
    /\ Binary64.calculateNewTime true (Some bar) vod 120
       = Some (fadd (fmul (Fin p) (fsub (Fin 600) (Fin 0))) (Fin 0))
    /\ (120 - left bar <= 0 -> p == 0)
    /\ (isDouble (width bar) = true -> width bar <= 120 - left bar -> p == 1)
    /\ (isDouble (width bar) = true ->
        0 <= 120 - left bar <= width bar ->
        Fin p = fdiv (fsub (Fin 120) (Fin (left bar))) (Fin (width bar)))
    /\ (isDouble 0 = true -> isDouble 600 = true -> 0 <= 0 <= 600 ->
        nle (Fin 0) (fadd (fmul (Fin p) (fsub (Fin 600) (Fin 0))) (Fin 0)) = true
        /\ nle (fadd (fmul (Fin p) (fsub (Fin 600) (Fin 0))) (Fin 0))
               (fadd (fmul (Fin 1) (fsub (Fin 600) (Fin 0))) (Fin 0)) = true)
    /\ (isDouble 600 = true -> 0 == 0 ->
        exists t,
          fadd (fmul (Fin p) (fsub (Fin 600) (Fin 0))) (Fin 0) = Fin t
          /\ 0 <= t <= 600).
Proof.
  apply (seek_target true (Some bar) vod 120); reflexivity.
Defined.

(** C6 as stated fails in three ways.  At the right edge of the bar, for
    a window that does not start at 0, the fraction is 1 and
    (duration - start) + start, rounded twice, lies above the duration.
    When the progress bar has no width (it is not laid out), seeking is
    not disabled and the target is not a time but not-a-number.  When the
    start lies beyond the duration, a press at the left edge gives the
    start, which is above the duration. *)
Lemma seek_target_leaves_the_window :
  (isLive dvrWindow = false
   /\ exists d s,
        duration dvrWindow = Fin d /\ startTime dvrWindow = Fin s
        /\ isDouble d = true /\ isDouble s = true
        /\ 0 <= s <= d
        /\ exists t,
             Binary64.calculateNewTime true (Some bar) dvrWindow 220 = Some (Fin t)
             /\ d < t)
  /\ (isLive vod = false
      /\ duration vod = Fin 600
      /\ Binary64.calculateNewTime true (Some collapsedBar) vod 120 = Some NaN)
  /\ Binary64.calculateNewTime true (Some bar)
       (mkTimeStats (Fin 0) (Fin 50) (Fin 100) false) 20
     = Some (Fin 100).
Proof.
  split; [|split; [repeat split|vm_compute; reflexivity]].
  split; [reflexivity|]. do 2 eexists.
  split; [vm_compute; reflexivity|]. split; [vm_compute; reflexivity|].
  split; [vm_compute; reflexivity|]. split; [vm_compute; reflexivity|].
  split; [split; vm_compute; discriminate|].
  eexists. split; [vm_compute; reflexivity|]. vm_compute. reflexivity.
Qed.


(* ================================================================== *)
(** ** The examples of the specification, run on the model *)
(* ================================================================== *)

(** The key attribute and the segment of https://host/hls/index.m3u8. *)
Example rewrite_key_and_segment :
  rewritePlaylist (url request0) base0
    (L "#EXT-X-KEY:METHOD=AES-128,URI=" ++ [quote] ++ L "key.bin" ++ [quote] ++ [LF]
     ++ L "seg0.ts")
  = L "#EXT-X-KEY:METHOD=AES-128,URI=" ++ [quote]
    ++ L "https://proxy.example/api/m3u8-proxy?url=https%3A%2F%2Fhost%2Fhls%2Fkey.bin"
    ++ [quote] ++ [LF]
    ++ L "https://proxy.example/api/m3u8-proxy?url=https%3A%2F%2Fhost%2Fhls%2Fseg0.ts".
Proof. reflexivity. Qed.

(** No [url] parameter: 400 with the error payload. *)
Example missing_url_parameter :
  let answer :=
    handler allowed0 parse0 (fetchGives response0)
      (mkRequest (L "GET") None None
         (mkURL (L "https:") (L "proxy.example") (L "/api/m3u8-proxy") [])) in
  r_status answer = 400%nat
  /\ r_body answer = BodyError (L "Missing url parameter") None None.
Proof. split; reflexivity. Qed.

(** The Range header goes upstream as it came. *)
Example range_is_forwarded :
  In (L "Range", L "bytes=0-99")
     (upstreamHeaders parse0
        (mkRequest (L "GET") None (Some (L "bytes=0-99")) (url request0)) target0).
Proof. vm_compute. tauto. Qed.

(** All four tiers on the sample playlist. *)
Example sample_playlist_rewritten :
  map (rewriteLine (url request0) base0 (basePathOf base0))
      [L "seg0.ts"; L "/abs/seg1.ts"; L "//cdn.example/seg2.ts";
       L "http://other.example/seg3.ts"]
  = map (fun r => L "https://proxy.example/api/m3u8-proxy?url=" ++ L r)
      [ "https%3A%2F%2Fhost%2Fhls%2Fseg0.ts";
        "https%3A%2F%2Fhost%2Fabs%2Fseg1.ts";
        "https%3A%2F%2Fcdn.example%2Fseg2.ts";
        "http%3A%2F%2Fother.example%2Fseg3.ts" ]%string.
Proof. reflexivity. Qed.

(** Without a percent sign in the address the round trip is exact. *)
Example round_trip_plain :
  getOriginalUrl (getProxiedUrl target0) = Some target0.
Proof. reflexivity. Qed.


(* ================================================================== *)
(** ** More on the manifest proxy *)
(* ================================================================== *)

Section ProxyAnswers.

Lemma streq_eq (a b : str) : streq a b = true <-> a = b.
Proof.
  revert b; induction a as [|x a IH]; intros [|y b]; simpl; split;
    try discriminate; try reflexivity.
  - intros H. apply andb_prop in H as [Hx Ha].
    apply Ascii.eqb_eq in Hx. apply IH in Ha. now subst.
  - intros H. inversion H; subst. rewrite Ascii.eqb_refl. now apply IH.
Qed.

Variable ALLOWED_ORIGINS : list str.
Variable parseURL : str -> option URL.




(** X2: a pre-flight, a request from an origin outside the allow-list and a
    request without target are answered with 204, 403 and 400 without the
    upstream being asked: the answer is the same whatever [fetch] would
    do, and it carries no upstream content. *)
Theorem rejected_requests_never_reach_upstream
    (fetch1 fetch2 : str -> list (str * str) -> FetchOutcome) (request : Request) :
  rejected ALLOWED_ORIGINS request = true ->
  handler ALLOWED_ORIGINS parseURL fetch1 request
  = handler ALLOWED_ORIGINS parseURL fetch2 request
  /\ In (r_status (handler ALLOWED_ORIGINS parseURL fetch1 request)) [204; 403; 400]%nat
  /\ carriesContent (r_body (handler ALLOWED_ORIGINS parseURL fetch1 request)) = false.
Proof.
  unfold rejected, handler. cbv zeta. intros H.
  destruct (streq (method request) (L "OPTIONS")).
  - cbn. tauto.
  - destruct (ManifestProxy.truthy (originHeader request)
            && negb (allowed ALLOWED_ORIGINS (orEmpty (originHeader request)))).
    + cbn. tauto.
    + cbn [orb] in H. rewrite H. cbn. tauto.
Qed.

(** X3: upstream content comes back only for a request that passed the
    checks and an upstream answer with a success status. *)
Theorem content_only_for_accepted_requests
    (fetch : str -> list (str * str) -> FetchOutcome) (request : Request) :
  carriesContent (r_body (handler ALLOWED_ORIGINS parseURL fetch request)) = true ->
  rejected ALLOWED_ORIGINS request = false
  /\ exists targetUrl response,
       searchParamsGet (search (url request)) (L "url") = Some targetUrl
       /\ fetch targetUrl (upstreamHeaders parseURL request targetUrl) = Fulfilled response
       /\ ok response = true.
Proof.
  unfold rejected, handler, jsonError. cbv zeta.
  destruct (streq (method request) (L "OPTIONS")); [discriminate|].
  destruct (ManifestProxy.truthy (originHeader request)
            && negb (allowed ALLOWED_ORIGINS (orEmpty (originHeader request)))); [discriminate|].
  destruct (searchParamsGet (search (url request)) (L "url")) as [t|] eqn:Et;
    [|discriminate].
  destruct (negb (ManifestProxy.truthy (Some t))); [discriminate|].
  cbn [orEmpty].
  destruct (fetch t _) as [message|response] eqn:Ef; [discriminate|].
  destruct (ok response) eqn:Eok; [|discriminate].
  intros _. split; [reflexivity|]. exists t, response. auto.
Qed.

(** X4: the Range header of the request goes upstream as it came, and no
    Range header goes upstream when the request has none. *)
Theorem range_goes_upstream_verbatim (request : Request) (targetUrl v : str) :
  In (L "Range", v) (upstreamHeaders parseURL request targetUrl)
  <-> rangeHeader request = Some v /\ v <> [].
Proof.
  unfold upstreamHeaders. rewrite !in_app_iff. split.
  - intros [H|[H|H]].
    + cbn in H. repeat destruct H as [H|H]; try discriminate H. contradiction.
    + unfold ManifestProxy.truthy in H. destruct (rangeHeader request) as [[|c r]|]; cbn in H;
        try contradiction.
      destruct H as [H|[]]. inversion H; subst. split; [reflexivity|discriminate].
    + destruct (parseURL targetUrl); cbn in H; [|contradiction].
      repeat destruct H as [H|H]; try discriminate H. contradiction.
  - intros [E Hv]. right. left. rewrite E. unfold ManifestProxy.truthy. cbn [orEmpty].
    destruct v; [congruence|]. left. reflexivity.
Qed.

End ProxyAnswers.


Lemma rejected_requests_never_reach_upstream_witness :
  let preflight := mkRequest (L "OPTIONS") None None (url request0) in
  handler allowed0 parse0 (fetchGives response0) preflight
  = handler allowed0 parse0 (fetchGives responseCR) preflight.
Proof.
  apply (rejected_requests_never_reach_upstream allowed0 parse0
           (fetchGives response0) (fetchGives responseCR)
           (mkRequest (L "OPTIONS") None None (url request0))).
  reflexivity.
Defined.

Lemma content_only_for_accepted_requests_witness :
  rejected allowed0 request0 = false.
Proof.
  apply (content_only_for_accepted_requests allowed0 parse0 (fetchGives response0)
           request0).
  reflexivity.
Defined.

Section ProxyLinks.

(** X5: against an http or https response, a resolved reference is always
    an absolute URL, and resolving it again, against any base, changes
    nothing. *)
Theorem resolved_reference_is_absolute (target : str) (baseUrl : URL) (basePath : str) :
  protocol baseUrl = L "http:" \/ protocol baseUrl = L "https:" ->
  absolute (resolveUrl target baseUrl basePath) = true
  /\ forall baseUrl' basePath',
       resolveUrl (resolveUrl target baseUrl basePath) baseUrl' basePath'
       = resolveUrl target baseUrl basePath.
Proof.
  intros Hp.
  assert (Ha : absolute (resolveUrl target baseUrl basePath) = true).
  { unfold resolveUrl. fold (absolute target).
    destruct (absolute target) eqn:E; [exact E|].
    destruct (startsWith target (L "//")) eqn:E2.
    - apply startsWith_app in E2. rewrite E2.
      destruct Hp as [-> | ->]; reflexivity.
    - destruct (startsWith target (L "/")); destruct Hp as [-> | ->]; reflexivity. }
  split; [exact Ha|].
  intros baseUrl' basePath'. unfold absolute in Ha.
  unfold resolveUrl at 1. now rewrite Ha.
Qed.

Lemma lastIndexOfFrom_snoc (c x : ascii) (s : str) (i f : Z) :
  lastIndexOfFrom c i (s ++ [x]) f
  = if Ascii.eqb x c then (i + Z.of_nat (length s))%Z else lastIndexOfFrom c i s f.
Proof.
  revert i f; induction s as [|a s IH]; intros i f.
  - cbn. destruct (Ascii.eqb x c); [lia|reflexivity].
  - cbn [app lastIndexOfFrom length]. rewrite IH.
    destruct (Ascii.eqb x c); [lia|reflexivity].
Qed.

Lemma firstn_length_app (a b : str) : firstn (length a) (a ++ b) = a.
Proof. induction a as [|x a IH]; [now destruct b|]. cbn. now rewrite IH. Qed.

Lemma lastIndexOf_cut (c : ascii) (s : str) :
  exists a b,
    s = a ++ b
    /\ ~ In c b
    /\ Z.to_nat (lastIndexOf s c + 1) = length a
    /\ (a = [] \/ exists a', a = a' ++ [c]).
Proof.
  unfold lastIndexOf. induction s as [|x s IH] using rev_ind.
  - exists [], []. repeat split; auto.
  - rewrite lastIndexOfFrom_snoc. destruct (Ascii.eqb x c) eqn:E.
    + apply Ascii.eqb_eq in E. subst x.
      exists (s ++ [c]), []. rewrite app_nil_r.
      split; [reflexivity|]. split; [intros []|]. split.
      * rewrite length_app. cbn [length]. lia.
      * right. now exists s.
    + destruct IH as (a & b & Es & Hb & Hn & Ha).
      exists a, (b ++ [x]). split; [rewrite Es at 1; now rewrite app_assoc|].
      split; [|split; assumption].
      intros Hin. apply in_app_or in Hin as [Hin|[Hx|[]]]; [contradiction|].
      subst x. now rewrite Ascii.eqb_refl in E.
Qed.

(** X6: the base path is the directory of the response path: the path is
    the base path followed by a last segment without slash, and the base
    path is empty or ends in a slash. *)
Theorem basePath_is_the_directory (baseUrl : URL) :
  exists file,
    pathname baseUrl = basePathOf baseUrl ++ file
    /\ ~ In (chr 47) file
    /\ (basePathOf baseUrl = [] \/ exists dir, basePathOf baseUrl = dir ++ [chr 47]).
Proof.
  unfold basePathOf, substring0.
  destruct (lastIndexOf_cut (chr 47) (pathname baseUrl)) as (a & b & Es & Hb & Hn & Ha).
  assert (E : firstn (length a) (pathname baseUrl) = a)
    by (rewrite Es; apply firstn_length_app).
  rewrite Hn, E. exists b. split; [exact Es|]. split; assumption.
Qed.

Lemma join_split (sep : ascii) (s : str) : join sep (split sep s) = s.
Proof.
  induction s as [|c s IH]; [reflexivity|].
  cbn [split]. pose proof (split_not_nil sep s) as Hne.
  destruct (Ascii.eqb c sep) eqn:E.
  - apply Ascii.eqb_eq in E. subst c.
    destruct (split sep s) as [|l ls]; [congruence|].
    cbn [join app] in *. now rewrite IH.
  - destruct (split sep s) as [|l ls]; [congruence|].
    destruct ls as [|l' ls']; cbn [join app] in *; now rewrite <- IH.
Qed.

Lemma inert_rewriteLine (url baseUrl : URL) (basePath line : str) :
  inert line = true -> rewriteLine url baseUrl basePath line = line.
Proof.
  unfold inert, rewriteLine. intros H.
  apply andb_prop in H as [H Hu]. apply andb_prop in H as [Ht Hs].
  apply streq_eq in Ht. rewrite Ht. apply negb_true_iff in Hu. rewrite Hu.
  destruct line as [|c r]; [reflexivity|]. cbn [isEmpty orb] in Hs |- *.
  destruct (startsWith (c :: r) (L "#EXT")); [reflexivity|].
  now rewrite Hs.
Qed.

(** X7: a playlist in which no line has anything to rewrite (every line is
    free of surrounding white space, is empty or starts with #, and has no
    URI attribute) comes back character for character. *)
Theorem playlist_without_references_is_unchanged (url baseUrl : URL) (text : str) :
  forallb inert (split LF text) = true ->
  rewritePlaylist url baseUrl text = text.
Proof.
  intros H. unfold rewritePlaylist.
  rewrite <- (join_split LF text) at 2. f_equal.
  rewrite forallb_forall in H.
  rewrite <- (map_id (split LF text)) at 2.
  apply map_ext_in. intros l Hl. now apply inert_rewriteLine, H.
Qed.

Lemma cut_present (sep : ascii) (a b : str) :
  Forall (fun c => Ascii.eqb c sep = false) a ->
  cut sep (a ++ sep :: b) = (a, Some b).
Proof.
  induction 1 as [|c r Hc Hr IH]; cbn [app cut].
  - now rewrite Ascii.eqb_refl.
  - now rewrite Hc, IH.
Qed.

Lemma pathSafe_facts (c : ascii) :
  pathSafe c = true -> querySafe c = true /\ Ascii.eqb c (chr 63) = false.
Proof.
  unfold pathSafe. intros H. apply andb_prop in H as [H1 H2].
  split; [exact H1|now apply negb_true_iff].
Qed.

Lemma formDecode_encode (a : str) :
  isAscii a -> formDecode (encodeURIComponent a) = a.
Proof.
  intros Ha. unfold formDecode.
  assert (E : map (fun c => if (code c =? 43)%N then chr 32 else c)
                (encodeURIComponent a) = encodeURIComponent a).
  { pose proof (encode_querySafe a) as He.
    induction He as [|c r Hc Hr IH]; [reflexivity|].
    cbn [map]. apply querySafe_facts in Hc as (_ & Hc & _). now rewrite Hc, IH. }
  rewrite E, percentDecode_encode. now apply utf8Lossy_ascii.
Qed.

(** X8: the links the proxy writes lead back to it with the right target.
    The [url] parameter of a rewritten link, read the way the handler reads
    it from the address of the next request, is the absolute URL the link
    was made for (for ASCII URLs, and a proxy address without ? or #). *)
Theorem rewritten_link_names_its_target (url : URL) (absoluteUrl : str) :
  forallb pathSafe (origin url ++ pathname url) = true ->
  origin url ++ pathname url <> [] ->
  isAscii absoluteUrl ->
  searchParamsGet (urlQuery (proxied url absoluteUrl)) (L "url") = Some absoluteUrl.
Proof.
  intros Hsafe Hne Ha. unfold proxied. rewrite app_assoc.
  set (pre := origin url ++ pathname url) in *.
  set (e := encodeURIComponent absoluteUrl).
  assert (Hpre : Forall (fun c => pathSafe c = true) pre)
    by now apply Forall_forall, forallb_forall.
  assert (Hpq : Forall (fun c => querySafe c = true) pre).
  { eapply Forall_impl; [|exact Hpre]. intros c Hc. now apply pathSafe_facts in Hc. }
  assert (He : Forall (fun c => querySafe c = true) e) by apply encode_querySafe.
  assert (Hs : Forall (fun c => querySafe c = true) (pre ++ L "?url=" ++ e)).
  { apply Forall_app. split; [exact Hpq|]. apply Forall_app. split; [|exact He].
    apply Forall_forall, forallb_forall. reflexivity. }
  assert (Eq : urlQuery (pre ++ L "?url=" ++ e) = L "url=" ++ e).
  { unfold urlQuery. set (s := pre ++ L "?url=" ++ e) in *.
    assert (E1 : dropWhile isC0OrSpace s = s).
    { destruct s as [|c r]; [reflexivity|]. inversion Hs as [|? ? Hc _]; subst.
      apply querySafe_facts in Hc as (Hc & _). cbn [dropWhile]. now rewrite Hc. }
    rewrite E1.
    assert (E2 : dropWhile isC0OrSpace (rev s) = rev s).
    { assert (Hr : Forall (fun c => querySafe c = true) (rev s)) by now apply Forall_rev.
      destruct (rev s) as [|c r]; [reflexivity|]. inversion Hr as [|? ? Hc _]; subst.
      apply querySafe_facts in Hc as (Hc & _). cbn [dropWhile]. now rewrite Hc. }
    rewrite E2, rev_involutive.
    assert (E3 : filter (fun c => negb (existsb (N.eqb (code c)) [9; 10; 13]%N)) s = s).
    { clear E1 E2. induction Hs as [|c r Hc Hr IH]; [reflexivity|].
      cbn [filter]. apply querySafe_facts in Hc as (_ & _ & _ & _ & Hc).
      rewrite Hc. cbn [negb]. now rewrite IH. }
    rewrite E3. rewrite (cut_absent (chr 35) s).
    - cbn [fst]. subst s.
      change (L "?url=" ++ e) with (chr 63 :: L "url=" ++ e).
      rewrite cut_present; [reflexivity|].
      eapply Forall_impl; [|exact Hpre]. intros c Hc. now apply pathSafe_facts in Hc.
    - eapply Forall_impl; [|exact Hs]. intros c Hc.
      now apply querySafe_facts in Hc as (_ & _ & Hc & _). }
  rewrite Eq. unfold searchParamsGet, formParse.
  rewrite (split_absent (chr 38)).
  - cbn [flat_map app].
    change (L "url=" ++ e) with (chr 117 :: chr 114 :: chr 108 :: chr 61 :: e).
    cbn [cut Ascii.eqb]. cbn - [formDecode].
    subst e. rewrite formDecode_encode by exact Ha. reflexivity.
  - apply Forall_app. split; [repeat constructor|].
    eapply Forall_impl; [|exact He]. intros c Hc.
    now apply querySafe_facts in Hc as (_ & _ & _ & Hc & _).
Qed.

End ProxyLinks.

Lemma resolved_reference_is_absolute_witness :
  absolute (resolveUrl (L "seg0.ts") base0 (basePathOf base0)) = true.
Proof.
  apply (resolved_reference_is_absolute (L "seg0.ts") base0 (basePathOf base0)).
  right. reflexivity.
Defined.

Lemma playlist_without_references_is_unchanged_witness :
  rewritePlaylist (url request0) base0 plainPlaylist = plainPlaylist.
Proof.
  apply (playlist_without_references_is_unchanged (url request0) base0 plainPlaylist).
  reflexivity.
Defined.

Lemma rewritten_link_names_its_target_witness :
  searchParamsGet
    (urlQuery (proxied (url request0) (L "https://host/hls/seg0.ts"))) (L "url")
  = Some (L "https://host/hls/seg0.ts").
Proof.
  apply (rewritten_link_names_its_target (url request0) (L "https://host/hls/seg0.ts")).
  - reflexivity.
  - discriminate.
  - repeat constructor.
Defined.

(* ================================================================== *)
(** ** More on the proxied-URL helpers *)
(* ================================================================== *)

Section ProxiedOnce.

Lemma utf8Lossy_pending (r : str) (p : nat * str * N * N) :
  utf8Lossy (Some p) r <> [].
Proof.
  revert p; induction r as [|c r IH]; intros [[[need acc] lo] hi].
  - discriminate.
  - cbn [utf8Lossy]. destruct ((lo <=? code c) && (code c <=? hi))%N.
    + destruct need as [|[|n]]; try apply IH;
        intros E; apply app_eq_nil in E as [_ E]; discriminate E.
    + destruct (utf8Start c). discriminate.
Qed.

Lemma utf8Lossy_not_empty (u : str) : u <> [] -> utf8Lossy None u <> [].
Proof.
  destruct u as [|c r]; [congruence|]. intros _.
  cbn [utf8Lossy]. unfold utf8Start.
  repeat match goal with
         | |- context [if ?b then _ else _] => destruct b
         end;
    try discriminate; cbn [app]; apply utf8Lossy_pending.
Qed.

Lemma urlParam_proxied_any (u : str) :
  urlParam (PROXY_URL ++ L "?url=" ++ encodeURIComponent u) = Some (utf8Lossy None u).
Proof.
  unfold urlParam.
  pose proof (encode_querySafe u) as He.
  rewrite urlQuery_proxied by exact He.
  unfold searchParamsGet, formParse.
  rewrite (split_absent (chr 38)).
  - cbn [flat_map app].
    change (L "url=" ++ encodeURIComponent u)
      with (chr 117 :: chr 114 :: chr 108 :: chr 61 :: encodeURIComponent u).
    cbn [cut Ascii.eqb]. cbn - [formDecode]. unfold formDecode.
    assert (E : map (fun c => if (code c =? 43)%N then chr 32 else c)
                  (encodeURIComponent u) = encodeURIComponent u).
    { induction He as [|c r Hc Hr IH]; [reflexivity|].
      cbn [map]. apply querySafe_facts in Hc as (_ & Hc & _). now rewrite Hc, IH. }
    rewrite E, percentDecode_encode. reflexivity.
  - apply Forall_app. split; [repeat constructor|].
    eapply Forall_impl; [|exact He]. intros c Hc.
    now apply querySafe_facts in Hc as (_ & _ & _ & Hc & _).
Qed.

Lemma toLowerCase_cons_ascii (c : ascii) (s : str) :
  (code c < 128)%N -> toLowerCase (c :: s) = lowerAscii c :: toLowerCase s.
Proof.
  intros Hc.
  assert (E196 : (code c =? 196)%N = false) by (apply N.eqb_neq; lia).
  assert (E226 : (code c =? 226)%N = false) by (apply N.eqb_neq; lia).
  destruct s as [|d [|e r]]; cbn [toLowerCase]; rewrite ?E196, ?E226; reflexivity.
Qed.

Lemma toLowerCase_app_ascii (a s : str) :
  isAscii a -> toLowerCase (a ++ s) = map lowerAscii a ++ toLowerCase s.
Proof.
  induction 1 as [|c r Hc Hr IH]; [reflexivity|].
  cbn [app map]. rewrite toLowerCase_cons_ascii by exact Hc. now rewrite IH.
Qed.

(** What [getProxiedUrl] returns when it changes its argument. *)
Lemma getProxiedUrl_changed (u : str) :
  getProxiedUrl u <> u ->
  u <> [] /\ getProxiedUrl u = PROXY_URL ++ L "?url=" ++ encodeURIComponent u.
Proof.
  unfold getProxiedUrl. destruct u as [|c r]; [intros H; now contradiction H|].
  cbn [isEmpty].
  match goal with
  | |- context [if ?b && ?b' then _ else _] =>
      destruct (b && b'); [intros H; now contradiction H|]
  end.
  destruct (needsProxying (c :: r)); [|intros H; now contradiction H].
  intros _. split; [discriminate|reflexivity].
Qed.

Lemma needsProxying_proxied (rest : str) :
  needsProxying (PROXY_URL ++ rest) = false.
Proof.
  unfold needsProxying.
  assert (E : includes (toLowerCase (PROXY_URL ++ rest)) (L "/api/m3u8-proxy") = true).
  { rewrite toLowerCase_app_ascii by (repeat constructor).
    apply includes_spec. exists [], (toLowerCase rest). reflexivity. }
  rewrite E. reflexivity.
Qed.

(** X9: proxying is idempotent: applying [getProxiedUrl] to its own result
    changes nothing, and a proxied address is never judged to need the
    proxy again. *)
Theorem getProxiedUrl_idempotent (u : str) :
  getProxiedUrl (getProxiedUrl u) = getProxiedUrl u
  /\ (getProxiedUrl u <> u -> needsProxying (getProxiedUrl u) = false).
Proof.
  split.
  - destruct (list_eq_dec ascii_dec (getProxiedUrl u) u) as [E|N];
      [now rewrite E|].
    apply getProxiedUrl_changed in N as [Hu ->].
    unfold getProxiedUrl at 1.
    change (isEmpty (PROXY_URL ++ L "?url=" ++ encodeURIComponent u)) with false.
    assert (E : includes (PROXY_URL ++ L "?url=" ++ encodeURIComponent u)
                  (L "/api/m3u8-proxy?url=") = true).
    { apply includes_spec. exists [], (encodeURIComponent u). reflexivity. }
    rewrite E, urlParam_proxied_any. cbn [andb].
    destruct (utf8Lossy None u) eqn:El; [|reflexivity].
    now apply utf8Lossy_not_empty in El.
  - intros N. apply getProxiedUrl_changed in N as [_ ->].
    apply needsProxying_proxied.
Qed.

Lemma encode_char_no_question (x : ascii) :
  forallb (fun c => negb (Ascii.eqb c (chr 63)))
    (if isUnreserved x then [x] else pct x) = true.
Proof. destruct x as [[] [] [] [] [] [] [] []]; reflexivity. Qed.

Lemma cutStr_no_question (e : str) :
  Forall (fun c => Ascii.eqb c (chr 63) = false) e ->
  VideoPlayer.cutStr (L "?|") e = (e, None).
Proof.
  induction 1 as [|c r Hc Hr IH]; [reflexivity|].
  cbn [VideoPlayer.cutStr].
  change (startsWith (c :: r) (L "?|"))
    with (Ascii.eqb c (chr 63) && startsWith r (L "|")).
  now rewrite Hc, IH.
Qed.

(** X10: an address rewritten by [getProxiedUrl] is classified as a
    segmented stream by the player, whole (nothing is cut off as a DRM
    block). *)
Theorem proxied_address_plays_as_hls (u : str) :
  getProxiedUrl u <> u ->
  VideoPlayer.detectStreamType (getProxiedUrl u)
  = (VideoPlayer.hls, getProxiedUrl u, None).
Proof.
  intros N. apply getProxiedUrl_changed in N as [_ ->].
  unfold VideoPlayer.detectStreamType.
  set (e := encodeURIComponent u).
  assert (He : Forall (fun c => Ascii.eqb c (chr 63) = false) e).
  { subst e. unfold encodeURIComponent. induction u as [|x u IH]; [constructor|].
    cbn [flat_map]. apply Forall_app. split; [|exact IH].
    pose proof (encode_char_no_question x) as H. rewrite forallb_forall in H.
    apply Forall_forall. intros c Hc. apply H in Hc. now apply negb_true_iff. }
  assert (Ec : VideoPlayer.cutStr (L "?|") (PROXY_URL ++ L "?url=" ++ e)
               = (PROXY_URL ++ L "?url=" ++ e, None)).
  { change (PROXY_URL ++ L "?url=" ++ e)
      with (L "/api/m3u8-proxy?url=" ++ e).
    unfold L at 2. cbn [list_ascii_of_string app VideoPlayer.cutStr].
    cbn - [VideoPlayer.cutStr L]. rewrite (cutStr_no_question e He). reflexivity. }
  rewrite Ec.
  assert (E : includes (toLowerCase (PROXY_URL ++ L "?url=" ++ e)) (L "/api/m3u8-proxy")
              = true).
  { rewrite toLowerCase_app_ascii by (repeat constructor).
    apply includes_spec. exists [], (toLowerCase (L "?url=" ++ e)). reflexivity. }
  rewrite E, !orb_true_r. reflexivity.
Qed.

End ProxiedOnce.

Lemma getProxiedUrl_idempotent_witness :
  needsProxying (getProxiedUrl target0) = false.
Proof.
  apply (getProxiedUrl_idempotent target0). discriminate.
Defined.

Lemma proxied_address_plays_as_hls_witness :
  VideoPlayer.detectStreamType (getProxiedUrl target0)
  = (VideoPlayer.hls, getProxiedUrl target0, None).
Proof.
  apply (proxied_address_plays_as_hls target0). discriminate.
Defined.

(** The sample playlist address makes the round trip. *)

(* ================================================================== *)
(** ** More on the catalog parser *)
(* ================================================================== *)

Section CatalogEntries.

Variables catId catName : str.

(** What every emitted channel satisfies. *)
Let complete (c : Channel) : Prop :=
  ParseM3U.categoryId c = catId /\ ParseM3U.categoryName c = catName
  /\ name c <> [] /\ logoUrl c <> [].

Lemma step_complete (st : list Channel * Partial) (line : str) :
  Forall complete (fst st) -> Forall complete (fst (step catId catName st line)).
Proof.
  destruct st as [channels current]. unfold step. cbn [fst]. intros H.
  destruct (startsWith line (L "#EXTINF:")); [exact H|].
  destruct (negb (isEmpty line) && negb (startsWith line (L "#"))
            && truthyStr (p_name current)) eqn:E; [|exact H].
  cbn [fst]. apply Forall_app. split; [exact H|]. constructor; [|constructor].
  apply andb_prop in E as [_ E].
  unfold complete. cbn [ParseM3U.categoryId ParseM3U.categoryName name logoUrl].
  split; [reflexivity|]. split; [reflexivity|]. split.
  - destruct (p_name current) as [[|x n]|]; try discriminate E. discriminate.
  - destruct (p_logoUrl current) as [[|x l]|]; cbn; discriminate.
Qed.

(** X11: every channel of the result carries the category it was parsed
    for, and has a name and a logo address that are not empty. *)
Theorem channels_are_complete (m3uContent : str) (c : Channel) :
  In c (parseM3U m3uContent catId catName) ->
  ParseM3U.categoryId c = catId /\ ParseM3U.categoryName c = catName
  /\ name c <> [] /\ logoUrl c <> [].
Proof.
  unfold parseM3U.
  assert (H : forall lines st,
             Forall complete (fst st) ->
             Forall complete (fst (fold_left (step catId catName) lines st))).
  { induction lines as [|l ls IH]; intros st Hst; [exact Hst|].
    cbn [fold_left]. apply IH. now apply step_complete. }
  intros Hin.
  specialize (H (filter (fun line => negb (isEmpty line))
                   (map trim (split LF m3uContent)))
                ([], emptyPartial) (Forall_nil _)).
  rewrite Forall_forall in H. exact (H c Hin).
Qed.

(** Entries opened so far, against channels emitted so far. *)
Let pending (p : Partial) : nat := if truthyStr (p_name p) then 1 else 0.

Lemma step_measure (st : list Channel * Partial) (l : str) :
  (length (fst (step catId catName st l)) + pending (snd (step catId catName st l))
   <= length (fst st) + pending (snd st) + (if isExtinf l then 1 else 0))%nat.
Proof.
  destruct st as [channels current]. unfold step, isExtinf, pending.
  destruct (startsWith l (L "#EXTINF:")).
  - cbn [fst snd p_name].
    destruct (truthyStr (Some (channelNameOf l))), (truthyStr (p_name current)); lia.
  - destruct (negb (isEmpty l) && negb (startsWith l (L "#"))
              && truthyStr (p_name current)) eqn:E.
    + apply andb_prop in E as [_ E]. cbn [fst snd]. rewrite E, length_app.
      cbn. lia.
    + cbn [fst snd]. lia.
Qed.

Lemma fold_bounded (lines : list str) (st : list Channel * Partial) :
  (length (fst (fold_left (step catId catName) lines st))
   <= length (fst st) + pending (snd st) + length (filter isExtinf lines))%nat.
Proof.
  revert st; induction lines as [|l ls IH]; intros st.
  - cbn. lia.
  - cbn [fold_left filter]. specialize (IH (step catId catName st l)).
    pose proof (step_measure st l) as Hm.
    destruct (isExtinf l); cbn [length]; lia.
Qed.

(** X12: there are at most as many channels as the playlist has #EXTINF
    lines: a stream line without an entry of its own is skipped. *)
Theorem channels_bounded_by_entries (m3uContent : str) :
  (length (parseM3U m3uContent catId catName)
   <= length (filter isExtinf (linesOf m3uContent)))%nat.
Proof.
  unfold parseM3U, linesOf.
  pose proof (fold_bounded
                (filter (fun line => negb (isEmpty line)) (map trim (split LF m3uContent)))
                ([], emptyPartial)) as H.
  cbn [fst snd length emptyPartial] in H. unfold pending in H.
  cbn [p_name truthyStr] in H. rewrite !Nat.add_0_r in H. exact H.
Qed.

(** *** Identifiers *)

Lemma lowered_is_idChar (c : ascii) :
  isAlnum c || Ascii.eqb c underscore = true -> isIdChar (lowerAscii c) = true.
Proof. destruct c as [[] [] [] [] [] [] [] []]; intros H; try discriminate H; reflexivity. Qed.

Lemma replaceNonAlnum_chars (n : str) :
  Forall (fun c => isAlnum c || Ascii.eqb c underscore = true) (replaceNonAlnum n).
Proof.
  unfold replaceNonAlnum. induction n as [|x n IH]; [constructor|].
  cbn [flat_map]. apply Forall_app. split; [|exact IH]. cbv zeta.
  destruct (isAlnum x) eqn:E; [repeat constructor; now rewrite E|].
  destruct ((128 <=? code x) && (code x <? 192))%N; [constructor|].
  destruct ((240 <=? code x) && (code x <? 248))%N; repeat constructor.
Qed.

Lemma idish_is_ascii (c : ascii) :
  isAlnum c || Ascii.eqb c underscore = true -> (code c < 128)%N.
Proof.
  destruct c as [[] [] [] [] [] [] [] []]; intros H; try discriminate H; reflexivity.
Qed.

(** X13: whatever the name, its sanitized form consists of lower-case
    ASCII letters, digits and underscores only. *)
Theorem sanitize_alphabet (n : str) :
  forallb isIdChar (sanitize n) = true.
Proof.
  unfold sanitize. pose proof (replaceNonAlnum_chars n) as H.
  rewrite toLowerCase_ascii.
  - apply forallb_forall. intros c Hc. apply in_map_iff in Hc as (x & <- & Hx).
    rewrite Forall_forall in H. now apply lowered_is_idChar, H.
  - eapply Forall_impl; [|exact H]. intros c Hc. now apply idish_is_ascii.
Qed.

Lemma digits_of_uint (d : Decimal.uint) :
  Forall (fun c => isDigit c = true) (L (NilEmpty.string_of_uint d)).
Proof. induction d; cbn; constructor; auto. Qed.

Lemma showNat_digits (k : nat) : Forall (fun c => isDigit c = true) (showNat k).
Proof.
  unfold showNat, NilZero.string_of_uint.
  destruct (Nat.to_uint k) eqn:E; try (rewrite <- E; apply digits_of_uint).
  repeat constructor.
Qed.

Lemma showNat_inj (a b : nat) : showNat a = showNat b -> a = b.
Proof.
  unfold showNat, L. intros H.
  apply (f_equal string_of_list_ascii) in H.
  rewrite !string_of_list_ascii_of_string in H.
  assert (Hn : forall n, Nat.to_uint n <> Decimal.Nil).
  { intros n. rewrite <- (DecimalNat.Unsigned.of_to n) at 1.
    rewrite DecimalNat.Unsigned.to_of. apply DecimalFacts.unorm_nonnil. }
  apply (f_equal NilZero.uint_of_string) in H.
  rewrite !NilZero.usu in H by apply Hn.
  inversion H. now apply DecimalNat.Unsigned.to_uint_inj.
Qed.

Lemma unique_pivot (x : ascii) (a1 a2 b1 b2 : str) :
  ~ In x a1 -> ~ In x a2 -> a1 ++ x :: b1 = a2 ++ x :: b2 -> a1 = a2.
Proof.
  revert a2; induction a1 as [|c a1 IH]; intros [|d a2] H1 H2 E; cbn in *.
  - reflexivity.
  - inversion E; subst. tauto.
  - inversion E; subst. tauto.
  - inversion E; subst. f_equal. apply IH with (a2 := a2); tauto.
Qed.

(** X14: two channels at different positions of one result never have the
    same identifier, whatever their names. *)
Theorem channel_ids_are_distinct (m3uContent : str) (i j : nat) (c d : Channel) :
  nth_error (parseM3U m3uContent catId catName) i = Some c ->
  nth_error (parseM3U m3uContent catId catName) j = Some d ->
  i <> j ->
  id c <> id d.
Proof.
  intros Hc Hd Hij E.
  assert (W : forall k x, nth_error (parseM3U m3uContent catId catName) k = Some x ->
              id x = catId ++ L "_" ++ sanitize (name x) ++ L "_" ++ showNat k).
  { unfold parseM3U. apply fold_wellNumbered.
    intros k x Hk. destruct k; discriminate Hk. }
  rewrite (W _ _ Hc), (W _ _ Hd) in E.
  apply app_inv_head in E. apply app_inv_head in E.
  apply (f_equal (@rev ascii)) in E.
  rewrite !rev_app_distr in E. cbn [L list_ascii_of_string rev app] in E.
  rewrite <- !app_assoc in E. cbn [app] in E.
  assert (Hnu : forall k, ~ In (chr 95) (rev (showNat k))).
  { intros k Hin. apply in_rev in Hin.
    pose proof (showNat_digits k) as Hk. rewrite Forall_forall in Hk.
    specialize (Hk _ Hin). discriminate Hk. }
  apply unique_pivot in E; [|apply Hnu|apply Hnu].
  apply (f_equal (@rev ascii)) in E. rewrite !rev_involutive in E.
  apply showNat_inj in E. contradiction.
Qed.

End CatalogEntries.

Lemma channels_are_complete_witness :
  ParseM3U.categoryId
    (mkChannel (L "sports_sky_news_1") (L "Sky News") placeholder
       (L "http://stream.example/sky.m3u8") (L "sports") (L "Sports"))
  = L "sports".
Proof.
  apply (channels_are_complete (L "sports") (L "Sports") catalog0
           (mkChannel (L "sports_sky_news_1") (L "Sky News") placeholder
              (L "http://stream.example/sky.m3u8") (L "sports") (L "Sports"))).
  right. left. reflexivity.
Defined.

Lemma channel_ids_are_distinct_witness :
  L "sports_bbc_one_hd_0" <> L "sports_sky_news_1".
Proof.
  apply (channel_ids_are_distinct (L "sports") (L "Sports") catalog0 0 1
           (mkChannel (L "sports_bbc_one_hd_0") (L "BBC One HD") placeholder
              (L "http://stream.example/bbc.m3u8") (L "sports") (L "Sports"))
           (mkChannel (L "sports_sky_news_1") (L "Sky News") placeholder
              (L "http://stream.example/sky.m3u8") (L "sports") (L "Sports")));
    [reflexivity|reflexivity|discriminate].
Defined.

(* ================================================================== *)
(** ** More on the catalog endpoint *)
(* ================================================================== *)

Section CatalogEndpoint.

Import ParseM3U.Endpoint.

Variable ALLOWED_ORIGINS : list str.

Lemma endpoint_allowed_In (o : str) :
  Endpoint.allowed ALLOWED_ORIGINS o = true -> In o ALLOWED_ORIGINS.
Proof.
  unfold Endpoint.allowed. intros H. apply existsb_exists in H as (x & Hx & E).
  apply streq_eq in E. now subst.
Qed.

(** X15: the catalog endpoint hands out channels only to a POST request
    whose Origin header is present and listed, with all three fields given
    and an upstream answer with a success status; the channels are those of
    the fetched playlist for the category of the request. *)
Theorem channels_only_for_listed_origins
    (fetch : str -> Endpoint.FetchOutcome) (request : Endpoint.Request)
    (channels : list Channel) :
  Endpoint.r_body (Endpoint.handler ALLOWED_ORIGINS fetch request)
  = Endpoint.BodyChannels channels ->
  Endpoint.method request = L "POST"
  /\ (exists o, Endpoint.originHeader request = Some o /\ In o ALLOWED_ORIGINS)
  /\ exists fields response categoryId categoryName m3uUrl,
       json request = inr fields
       /\ f_categoryId fields = Some categoryId /\ categoryId <> []
       /\ f_categoryName fields = Some categoryName /\ categoryName <> []
       /\ f_m3uUrl fields = Some m3uUrl /\ m3uUrl <> []
       /\ fetch m3uUrl = Endpoint.Fulfilled response
       /\ Endpoint.ok response = true
       /\ channels = parseM3U (text response) categoryId categoryName.
Proof.
  unfold Endpoint.handler, jsonAnswer. cbv zeta.
  destruct (streq (Endpoint.method request) (L "OPTIONS")); [discriminate|].
  destruct (negb (Endpoint.truthy (Endpoint.originHeader request))
            || negb (Endpoint.allowed ALLOWED_ORIGINS
                       (Endpoint.orEmpty (Endpoint.originHeader request)))) eqn:Eo;
    [discriminate|].
  destruct (streq (Endpoint.method request) (L "POST")) eqn:Em; [|discriminate].
  cbn [negb].
  destruct (json request) as [message|fields] eqn:Ej; [discriminate|].
  destruct (negb (Endpoint.truthy (f_categoryId fields))
            || negb (Endpoint.truthy (f_categoryName fields))) eqn:Ec; [discriminate|].
  destruct (negb (Endpoint.truthy (f_m3uUrl fields))) eqn:Eu; [discriminate|].
  destruct (fetch (Endpoint.orEmpty (f_m3uUrl fields))) as [message|response] eqn:Ef;
    [discriminate|].
  destruct (Endpoint.ok response) eqn:Eok; [|discriminate].
  cbn [negb Endpoint.r_body]. intros H. inversion H; subst channels.
  apply orb_false_iff in Eo as [Et Ea].
  apply negb_false_iff in Et, Ea.
  apply orb_false_iff in Ec as [Eci Ecn].
  apply negb_false_iff in Eci, Ecn, Eu.
  split; [now apply streq_eq|]. split.
  - unfold Endpoint.truthy in Et.
    destruct (Endpoint.originHeader request) as [o|]; [|discriminate Et].
    exists o. split; [reflexivity|]. now apply endpoint_allowed_In.
  - unfold Endpoint.truthy in Eci, Ecn, Eu.
    destruct (f_categoryId fields) as [[|a i]|] eqn:Fi; try discriminate Eci.
    destruct (f_categoryName fields) as [[|b n]|] eqn:Fn; try discriminate Ecn.
    destruct (f_m3uUrl fields) as [[|c u]|] eqn:Fu; try discriminate Eu.
    exists fields, response, (a :: i), (b :: n), (c :: u).
    cbn [Endpoint.orEmpty] in Ef.
    split; [reflexivity|]. split; [exact Fi|]. split; [discriminate|].
    split; [exact Fn|]. split; [discriminate|].
    split; [exact Fu|]. split; [discriminate|].
    split; [exact Ef|]. split; [exact Eok|reflexivity].
Qed.

(** X16: without an Origin header, or with one that is not listed, every
    request other than a pre-flight is answered 403, whatever its method and
    body, and the playlist is not fetched. *)
Theorem catalog_refuses_unlisted_origins
    (fetch1 fetch2 : str -> Endpoint.FetchOutcome) (request : Endpoint.Request) :
  streq (Endpoint.method request) (L "OPTIONS") = false ->
  (Endpoint.originHeader request = None
   \/ Endpoint.allowed ALLOWED_ORIGINS
        (Endpoint.orEmpty (Endpoint.originHeader request)) = false) ->
  Endpoint.r_status (Endpoint.handler ALLOWED_ORIGINS fetch1 request) = 403%nat
  /\ Endpoint.handler ALLOWED_ORIGINS fetch1 request
     = Endpoint.handler ALLOWED_ORIGINS fetch2 request.
Proof.
  intros Hm Ho. unfold Endpoint.handler. cbv zeta. rewrite Hm.
  assert (E : negb (Endpoint.truthy (Endpoint.originHeader request))
              || negb (Endpoint.allowed ALLOWED_ORIGINS
                         (Endpoint.orEmpty (Endpoint.originHeader request))) = true).
  { destruct Ho as [-> | ->]; [reflexivity|apply orb_true_r]. }
  rewrite E. split; reflexivity.
Qed.

End CatalogEndpoint.

Lemma channels_only_for_listed_origins_witness :
  ParseM3U.Endpoint.method catalogRequest = L "POST".
Proof.
  apply (channels_only_for_listed_origins allowed0 catalogFetch catalogRequest
           (parseM3U catalog0 (L "sports") (L "Sports"))).
  reflexivity.
Defined.

Lemma catalog_refuses_unlisted_origins_witness :
  ParseM3U.Endpoint.r_status
    (ParseM3U.Endpoint.handler allowed0 catalogFetch
       (ParseM3U.Endpoint.mkRequest (L "POST") None (ParseM3U.Endpoint.json catalogRequest)))
  = 403%nat.
Proof.
  apply (catalog_refuses_unlisted_origins allowed0 catalogFetch catalogFetch
           (ParseM3U.Endpoint.mkRequest (L "POST") None
              (ParseM3U.Endpoint.json catalogRequest))).
  - reflexivity.
  - left. reflexivity.
Defined.

(* ================================================================== *)
(** ** More on the timeline and on seeking *)
(* ================================================================== *)

Section Window.

Lemma Qle_bool_false (a b : Q) : Qle_bool a b = false -> b < a.
Proof.
  intros E. apply Qnot_le_lt. intros H. apply Qle_bool_iff in H. congruence.
Qed.

Lemma clampStart (s : num) :
  exists q, (if negb (isFinite s) || lt0 s then Fin 0 else s) = Fin q /\ 0 <= q.
Proof.
  destruct s as [| |q]; cbn; try (exists 0; split; [reflexivity|apply Qle_refl]).
  destruct (Qltb q 0) eqn:E.
  - exists 0. split; [reflexivity|apply Qle_refl].
  - exists q. split; [reflexivity|].
    apply Qnot_lt_le. intros H. apply Qltb_lt in H. congruence.
Qed.

Lemma clampDuration (d : num) :
  isFinite (if negb (isFinite d) || isNaN d then Fin 0 else d) = true.
Proof. destruct d; reflexivity. Qed.

(** X17: the reconciled duration is always a finite number, and a
    timeline reported as live always has duration 0 (the raw duration was
    not finite and no seek range replaced it). *)
Theorem time_stats_duration (playerTypeRef : option PlayerType)
    (shakaPlayerRef : option SeekRange) (video : option Video) :
  let stats := getTimeStats playerTypeRef shakaPlayerRef video in
  isFinite (duration stats) = true
  /\ (isLive stats = true ->
      duration stats = Fin 0
      /\ exists v, video = Some v /\ isFinite (v_duration v) = false).
Proof.
  cbv zeta. unfold getTimeStats.
  destruct video as [v|]; [|split; [reflexivity|discriminate]].
  assert (Hraw : isLive (mkTimeStats (v_currentTime v)
                           (if negb (isFinite (v_duration v)) || isNaN (v_duration v)
                            then Fin 0 else v_duration v)
                           (Fin 0) (negb (isFinite (v_duration v)))) = true ->
                 (if negb (isFinite (v_duration v)) || isNaN (v_duration v)
                  then Fin 0 else v_duration v) = Fin 0
                 /\ exists v', Some v = Some v' /\ isFinite (v_duration v') = false).
  { cbn [isLive]. intros H. apply negb_true_iff in H. rewrite H. cbn.
    split; [reflexivity|]. now exists v. }
  destruct (if isShaka playerTypeRef then shakaPlayerRef else None)
    as [[| |start end_]|].
  - split; [apply clampDuration|]. cbn [isLive duration]. intros H.
    apply negb_true_iff in H. rewrite H. split; [reflexivity|now exists v].
  - split; [apply clampDuration|]. cbn [isLive duration]. intros H.
    apply negb_true_iff in H. rewrite H. split; [reflexivity|now exists v].
  - destruct (isFinite end_ && gt0 end_); cbn [isLive duration].
    + split; [apply clampDuration|discriminate].
    + split; [apply clampDuration|]. intros H.
      apply negb_true_iff in H. rewrite H. split; [reflexivity|now exists v].
  - destruct (v_seekable v) as [|first rest]; cbn [isLive duration].
    + split; [apply clampDuration|]. intros H.
      apply negb_true_iff in H. rewrite H. split; [reflexivity|now exists v].
    + destruct (isFinite _ && gt0 _); cbn [isLive duration].
      * split; [apply clampDuration|discriminate].
      * split; [apply clampDuration|]. intros H.
        apply negb_true_iff in H. rewrite H. split; [reflexivity|now exists v].
Qed.

Lemma time_stats_start (playerTypeRef : option PlayerType)
    (shakaPlayerRef : option SeekRange) (video : option Video) :
  exists q, startTime (getTimeStats playerTypeRef shakaPlayerRef video) = Fin q /\ 0 <= q.
Proof.
  unfold getTimeStats. destruct video as [v|].
  - destruct (if isShaka playerTypeRef then shakaPlayerRef else None)
      as [[| |start end_]|].
    + apply (clampStart (Fin 0)).
    + apply (clampStart (Fin 0)).
    + destruct (isFinite end_ && gt0 end_); apply clampStart.
    + destruct (v_seekable v) as [|first rest]; [apply (clampStart (Fin 0))|].
      destruct (isFinite _ && gt0 _); apply clampStart.
  - exists 0. split; [reflexivity|apply Qle_refl].
Qed.

(** X18: a seek target computed from reconciled statistics whose start
    and duration are numbers of the format, for a bar of positive width, is
    absent or a number that is not negative (possibly +Infinity): it is
    never not-a-number. *)
Theorem reconciled_seek_target (playerTypeRef : option PlayerType)
    (shakaPlayerRef : option SeekRange) (video : option Video)
    (present : bool) (rect : Rect) (clientX : Q) :
  0 < width rect ->
  let stats := getTimeStats playerTypeRef shakaPlayerRef video in
  (forall s, startTime stats = Fin s -> isDouble s = true) ->
  (forall d, duration stats = Fin d -> isDouble d = true) ->
  Binary64.calculateNewTime present (Some rect) stats clientX = None
  \/ exists t, Binary64.calculateNewTime present (Some rect) stats clientX = Some t
               /\ t <> NaN /\ nle (Fin 0) t = true.
Proof.
  intros Hw stats Hsd Hdd.
  destruct (time_stats_start playerTypeRef shakaPlayerRef video) as (s & Es & Hs).
  pose proof (time_stats_duration playerTypeRef shakaPlayerRef video) as [Hf _].
  fold stats in Es, Hf.
  destruct (duration stats) as [| |d] eqn:Ed; try discriminate Hf.
  destruct present; [|left; unfold Binary64.calculateNewTime; reflexivity].
  destruct (isLive stats) eqn:El.
  { left. unfold Binary64.calculateNewTime. rewrite El. now rewrite !orb_true_r. }
  destruct (Qle_bool d 0) eqn:Ed0.
  { left. unfold Binary64.calculateNewTime. rewrite Ed. cbn [le0]. rewrite Ed0.
    now rewrite orb_true_r. }
  apply Qle_bool_false in Ed0.
  right. rewrite (calculateNewTime64_enabled rect stats clientX d s El Ed Ed0 Es).
  destruct (fraction64 rect clientX Hw) as (p & Ep & Hp & _).
  rewrite Ep. eexists. split; [reflexivity|].
  destruct (target_bounds p d s (Hsd s Es) (Hdd d eq_refl) Hp Hs) as [H0 _]; [lra|].
  split; [|exact H0].
  intros E. rewrite E in H0. discriminate H0.
Qed.




Lemma nmax0_rnd (q : Q) :
  (exists r, nmax (Fin 0) (rnd q) = Fin r /\ 0 <= r
             /\ forall q' r', q <= q' -> nmax (Fin 0) (rnd q') = Fin r' -> r <= r')
  \/ (nmax (Fin 0) (rnd q) = Inf false
      /\ forall q', q <= q' -> nmax (Fin 0) (rnd q') = Inf false).
Proof.
  assert (Hmax : forall x, x <> NaN ->
            (exists r, nmax (Fin 0) x = Fin r /\ 0 <= r
                       /\ (nle x (Fin r) = true))
            \/ (nmax (Fin 0) x = Inf false /\ x = Inf false)).
  { intros [|[]|x] Hx; [congruence| | |].
    - left. exists 0. split; [reflexivity|]. split; [lra|reflexivity].
    - right. split; reflexivity.
    - left. cbn [nmax nle]. destruct (Qle_bool 0 x) eqn:E.
      + exists x. split; [reflexivity|]. apply Qle_bool_iff in E.
        split; [exact E|]. apply Qle_bool_iff. lra.
      + exists 0. apply Qle_bool_false in E. split; [reflexivity|].
        split; [lra|]. apply Qle_bool_iff. lra. }
  assert (Hn : forall q0, rnd q0 <> NaN).
  { intros q0. destruct (rnd_cases q0) as [[r E]|[b E]]; rewrite E; discriminate. }
  destruct (Hmax (rnd q) (Hn q)) as [(r & E & Hr & Hle)|[E Ei]].
  - left. exists r. split; [exact E|]. split; [exact Hr|].
    intros q' r' Hq E'. pose proof (rnd_mono q q' Hq) as Hm.
    destruct (rnd q) as [|[]|x] eqn:Ex; destruct (rnd q') as [|[]|x'] eqn:Ex';
      cbn [nmax nle] in *; try discriminate.
    + assert (r = 0) by congruence. assert (r' = 0) by congruence. subst. lra.
    + assert (r = 0) by congruence. subst r.
      destruct (Qle_bool 0 x') eqn:E0.
      * apply Qle_bool_iff in E0. assert (r' = x') by congruence. subst. exact E0.
      * assert (r' = 0) by congruence. subst. lra.
    + apply Qle_bool_iff in Hm.
      destruct (Qle_bool 0 x) eqn:E0; destruct (Qle_bool 0 x') eqn:E0'.
      * assert (r = x) by congruence. assert (r' = x') by congruence. subst. exact Hm.
      * assert (r = x) by congruence. assert (r' = 0) by congruence. subst.
        apply Qle_bool_iff in E0. apply Qle_bool_false in E0'. lra.
      * assert (r = 0) by congruence. assert (r' = x') by congruence. subst.
        now apply Qle_bool_iff in E0'.
      * assert (r = 0) by congruence. assert (r' = 0) by congruence. subst. lra.
  - right. split; [exact E|]. intros q' Hq. pose proof (rnd_mono q q' Hq) as Hm.
    rewrite Ei in Hm. destruct (rnd q') as [|[]|x'] eqn:Ex'; cbn [nle] in Hm;
      try discriminate. reflexivity.
Qed.

(** A finite result of rounding is kept in lowest terms. *)
Lemma rnd_canon (q y y' : Q) : rnd q = Fin y -> y' == y -> Qred y' = y.
Proof.
  unfold rnd. intros E H. destruct (Qcompare q 0).
  - assert (Ey : y = 0) by congruence. subst y.
    rewrite (Qred_complete _ _ H). reflexivity.
  - destruct (Qle_bool _ _); [|discriminate E].
    assert (Ey : y = Qred (- roundPos (- q))) by congruence. subst y.
    apply Qred_complete. rewrite H. apply Qred_correct.
  - destruct (Qle_bool _ _); [|discriminate E].
    assert (Ey : y = Qred (roundPos q)) by congruence. subst y.
    apply Qred_complete. rewrite H. apply Qred_correct.
Qed.

(** With rounding too, dragging with the mouse and dragging by touch give
    the same target: clamping the offset into the bar and dividing by the
    width gives the same fraction as dividing and clamping into [0,1]. *)
Lemma touch_and_mouse_targets_agree_rounded (rect : Rect) (st : TimeStats) (x d s : Q) :
  isLive st = false -> duration st = Fin d -> 0 < d -> startTime st = Fin s ->
  0 < width rect ->
  Binary64.calculateNewTime true (Some rect) st x
  = Some (Binary64.touchMoveTarget rect st x).
Proof.
  intros Hlive Hd Hpos Hs Hw.
  rewrite (calculateNewTime64_enabled rect st x d s Hlive Hd Hpos Hs).
  unfold Binary64.touchMoveTarget. rewrite Hd, Hs. cbv zeta. do 3 f_equal.
  change (fsub (Fin x) (Fin (left rect))) with (rnd (x + - left rect)).
  assert (Hwne : ~ width rect == 0) by lra.
  assert (Ediv : forall c, fdiv (Fin c) (Fin (width rect)) = rnd (c / width rect)).
  { intros c. unfold fdiv. cbn [ndiv]. now rewrite (Qeq_bool_pos _ Hw). }
  assert (Hlt : Qltb (width rect) 0 = false).
  { destruct (Qltb (width rect) 0) eqn:E; [|reflexivity]. apply Qltb_lt in E. lra. }
  assert (E0 : rnd (0 / width rect) = Fin 0).
  { rewrite <- rnd_0. apply rnd_comp. field. exact Hwne. }
  assert (E1 : rnd (width rect / width rect) = Fin 1).
  { rewrite <- rnd_1. apply rnd_comp. field. exact Hwne. }
  assert (H0w : Qle_bool 0 (width rect) = true) by (apply Qle_bool_iff; lra).
  destruct (rnd_cases (x + - left rect)) as [[x' EX]|[[|] EX]]; rewrite EX.
  - (* a finite offset *)
    cbn [nmin nmax]. rewrite !Ediv.
    destruct (Qle_bool x' (width rect)) eqn:Exw.
    + apply Qle_bool_iff in Exw.
      destruct (Qle_bool 0 x') eqn:Ex0.
      * apply Qle_bool_iff in Ex0.
        destruct (rnd_between 0 1 (x' / width rect) 0 1 rnd_0 rnd_1) as (y & Ey & Hy).
        { split; [apply Qle_shift_div_l|apply Qle_shift_div_r]; lra. }
        rewrite Ey. cbn [nmin nmax].
        destruct (Qle_bool 1 y) eqn:E1y.
        -- apply Qle_bool_iff in E1y.
           assert (Hy1 : Qred 1 = y) by (apply (rnd_canon _ _ _ Ey); lra).
           change (Qred 1) with 1 in Hy1. subst y. reflexivity.
        -- assert (Hy0 : Qle_bool 0 y = true) by (apply Qle_bool_iff; lra).
           now rewrite Hy0.
      * apply Qle_bool_false in Ex0. rewrite E0.
        assert (Hq : x' / width rect <= 0).
        { apply Qle_shift_div_r; lra. }
        pose proof (rnd_mono _ _ Hq) as Hm. rewrite rnd_0 in Hm.
        destruct (rnd (x' / width rect)) as [|[|]|y] eqn:Ey; cbn [nle] in Hm;
          try discriminate Hm; cbn [nmin nmax]; [reflexivity|].
        apply Qle_bool_iff in Hm.
        assert (E1y : Qle_bool 1 y = false).
        { destruct (Qle_bool 1 y) eqn:E; [|reflexivity].
          apply Qle_bool_iff in E. lra. }
        rewrite E1y.
        destruct (Qle_bool 0 y) eqn:E0y; [|reflexivity].
        apply Qle_bool_iff in E0y.
        assert (Hy0 : Qred 0 = y) by (apply (rnd_canon _ _ _ Ey); lra).
        change (Qred 0) with 0 in Hy0. subst y. reflexivity.
    + apply Qle_bool_false in Exw. rewrite H0w, E1.
      assert (Hq : 1 <= x' / width rect).
      { apply Qle_shift_div_l; lra. }
      pose proof (rnd_mono _ _ Hq) as Hm. rewrite rnd_1 in Hm.
      destruct (rnd (x' / width rect)) as [|[|]|y] eqn:Ey; cbn [nle] in Hm;
        try discriminate Hm; cbn [nmin nmax]; [reflexivity|].
      rewrite Hm. reflexivity.
  - (* the offset overflowed downwards *)
    cbn [nmin nmax fdiv ndiv round xorb]. rewrite Hlt, Ediv, E0. reflexivity.
  - (* the offset overflowed upwards *)
    cbn [nmin nmax fdiv ndiv round xorb]. rewrite Hlt, H0w, Ediv, E1. reflexivity.
Qed.

(** With rounding too, stepping ten seconds back or forth from a position
    of the format within [start, duration] stays inside the window. *)
Lemma step_seeks_stay_in_window_rounded (st : TimeStats) (s d c : Q) :
  startTime st = Fin s -> duration st = Fin d -> isDouble c = true ->
  s <= c <= d ->
  exists b f,
    Binary64.seekBackwardTarget st (Fin c) = Fin b /\ s <= b <= c
    /\ Binary64.seekForwardTarget st (Fin c) = Fin f /\ c <= f <= d.
Proof.
  intros Hs Hd Dc [Hsc Hcd].
  apply isDouble_spec in Dc as (c' & Ec & Hc').
  unfold Binary64.seekBackwardTarget, Binary64.seekForwardTarget. rewrite Hs, Hd.
  change (fsub (Fin c) (Fin 10)) with (rnd (c + - (10))).
  change (fadd (Fin c) (Fin 10)) with (rnd (c + 10)).
  assert (Hb : nle (rnd (c + - (10))) (Fin c') = true).
  { rewrite <- Ec. apply rnd_mono. lra. }
  assert (Hf : nle (Fin c') (rnd (c + 10)) = true).
  { rewrite <- Ec. apply rnd_mono. lra. }
  destruct (rnd (c + - (10))) as [|[|]|y] eqn:Ey; cbn [nle] in Hb; try discriminate Hb;
    destruct (rnd (c + 10)) as [|[|]|z] eqn:Ez; cbn [nle] in Hf; try discriminate Hf;
    cbn [nmax nmin]; do 2 eexists;
    (split; [reflexivity|]); (split; [|split; [reflexivity|]]);
    try (apply Qle_bool_iff in Hb); try (apply Qle_bool_iff in Hf);
    repeat match goal with
           | |- context [Qle_bool ?a ?b] =>
               let E := fresh "E" in
               destruct (Qle_bool a b) eqn:E;
               [apply Qle_bool_iff in E|apply Qle_bool_false in E]
           end; split; lra.
Qed.

(** X21: the fill of the progress bar, for finite times, is a number that
    is not negative and never not-a-number; it is a finite percentage of
    at most 100 when the position does not exceed the duration, and
    exactly 100 for a live timeline. *)
Theorem progress_percentage (st : TimeStats) (c d s : Q) :
  currentTime st = Fin c -> duration st = Fin d -> startTime st = Fin s ->
  Binary64.currentTimePercentage st <> NaN
  /\ nle (Fin 0) (Binary64.currentTimePercentage st) = true
  /\ (c <= d ->
      exists p, Binary64.currentTimePercentage st = Fin p /\ 0 <= p <= 100)
  /\ (isLive st = true -> Binary64.currentTimePercentage st = Fin 100).
Proof.
  intros Hc Hd Hs.
  unfold Binary64.currentTimePercentage, Binary64.getRelativeTime,
    Binary64.getRelativeDuration.
  rewrite Hc, Hd, Hs.
  change (fsub (Fin c) (Fin s)) with (rnd (c + - s)).
  change (fsub (Fin d) (Fin s)) with (rnd (d + - s)).
  assert (Hfix : forall b : bool,
            (if b then Fin 100 else Fin 0) <> NaN
            /\ nle (Fin 0) (if b then Fin 100 else Fin 0) = true
            /\ (c <= d -> exists p, (if b then Fin 100 else Fin 0) = Fin p
                                     /\ 0 <= p <= 100)
            /\ (b = true -> (if b then Fin 100 else Fin 0) = Fin 100)).
  { intros [|].
    - split; [discriminate|]. split; [reflexivity|].
      split; [|reflexivity]. intros _. exists 100. split; [reflexivity|lra].
    - split; [discriminate|]. split; [reflexivity|].
      split; [|discriminate]. intros _. exists 0. split; [reflexivity|lra]. }
  destruct (nmax0_rnd (d + - s)) as [(rd & Erd & Hrd & _)|[Erd _]].
  2:{ rewrite Erd. cbn [isFinite andb]. apply Hfix. }
  rewrite Erd. cbn [isFinite gt0 andb].
  destruct (Qltb 0 rd) eqn:Epos; [|cbn [andb]; apply Hfix].
  destruct (isLive st); [cbn [negb andb]; apply (Hfix true)|].
  cbn [negb andb]. apply Qltb_lt in Epos.
  assert (Hne : Qeq_bool rd 0 = false).
  { destruct (Qeq_bool rd 0) eqn:E; [|reflexivity].
    apply Qeq_bool_iff in E. lra. }
  destruct (nmax0_rnd (c + - s)) as [(rc & Erc & Hrc & Hmono)|[Erc Hmono]].
  - rewrite Erc.
    assert (ED : fdiv (Fin rc) (Fin rd) = rnd (rc / rd)).
    { unfold fdiv. cbn [ndiv]. now rewrite Hne. }
    rewrite ED.
    assert (Hq0 : 0 <= rc / rd) by (apply Qle_shift_div_l; lra).
    destruct (rnd_cases (rc / rd)) as [[q Eq]|[b Eq]].
    + rewrite Eq.
      assert (Hq : 0 <= q).
      { pose proof (rnd_mono 0 (rc / rd) Hq0) as Hm. rewrite rnd_0, Eq in Hm.
        now apply Qle_bool_iff in Hm. }
      change (fmul (Fin q) (Fin 100)) with (rnd (q * 100)).
      assert (Hm0 : nle (Fin 0) (rnd (q * 100)) = true).
      { rewrite <- rnd_0. apply rnd_mono. lra. }
      split; [intros E; rewrite E in Hm0; discriminate Hm0|].
      split; [exact Hm0|]. split; [|discriminate].
      intros Hcd.
      assert (Hle : rc <= rd).
      { apply (Hmono (d + - s) rd); [lra|exact Erd]. }
      assert (Hq1 : q <= 1).
      { assert (H1 : rc / rd <= 1) by (apply Qle_shift_div_r; lra).
        pose proof (rnd_mono (rc / rd) 1 H1) as Hm. rewrite rnd_1, Eq in Hm.
        now apply Qle_bool_iff in Hm. }
      destruct (rnd_between 0 100 (q * 100) 0 100 rnd_0 rnd_100) as (t & Et & Ht);
        [lra|].
      exists t. split; [exact Et|exact Ht].
    + rewrite Eq.
      pose proof (rnd_mono 0 (rc / rd) Hq0) as Hm. rewrite rnd_0, Eq in Hm.
      destruct b; [discriminate Hm|].
      cbn [fmul nmul round]. 
      split; [discriminate|]. split; [reflexivity|]. split; [|discriminate].
      intros Hcd.
      assert (Hle : rc <= rd).
      { apply (Hmono (d + - s) rd); [lra|exact Erd]. }
      assert (H1 : rc / rd <= 1) by (apply Qle_shift_div_r; lra).
      pose proof (rnd_mono (rc / rd) 1 H1) as Hm'. rewrite rnd_1, Eq in Hm'.
      discriminate Hm'.
  - rewrite Erc.
    assert (Hlt : Qltb rd 0 = false).
    { destruct (Qltb rd 0) eqn:E; [|reflexivity]. apply Qltb_lt in E. lra. }
    cbn [fdiv ndiv round xorb]. rewrite Hlt.
    split; [discriminate|]. split; [reflexivity|]. split; [|discriminate].
    intros Hcd. assert (Hq : c + - s <= d + - s) by lra.
    specialize (Hmono _ Hq). congruence.
Qed.

End Window.

Section Clock.

Lemma Qfloor_unique (x : Q) (k : Z) :
  inject_Z k <= x -> x < inject_Z (k + 1) -> Qfloor x = k.
Proof.
  intros Hlo Hhi.
  pose proof (Qfloor_le x) as Hf. pose proof (Qlt_floor x) as Hc.
  assert (Qfloor x < k + 1)%Z
    by (rewrite Zlt_Qlt; eapply Qle_lt_trans; eassumption).
  assert (k < Qfloor x + 1)%Z
    by (rewrite Zlt_Qlt; eapply Qle_lt_trans; eassumption).
  lia.
Qed.

Lemma Qtrunc_floor (x : Q) : 0 <= x -> Qtrunc x = Qfloor x.
Proof.
  intros H. unfold Qtrunc. destruct (Qltb x 0) eqn:E; [|reflexivity].
  apply Qltb_lt in E. lra.
Qed.

Lemma numberToString_whole (z : Z) :
  (0 <= z < 2 ^ 53)%Z -> numberToString (Fin (inject_Z z)) = Some (showZ z).
Proof.
  intros H. unfold numberToString. cbv zeta. rewrite Qfloor_Z.
  assert (E1 : Qeq_bool (inject_Z z) (inject_Z z) = true)
    by (apply Qeq_bool_iff; reflexivity).
  assert (E2 : (Z.abs z <? 2 ^ 53)%Z = true) by (apply Z.ltb_lt; lia).
  assert (E3 : (z <? 0)%Z = false) by (apply Z.ltb_ge; lia).
  now rewrite E1, E2, E3.
Qed.

Lemma gt0_whole (z : Z) : gt0 (Fin (inject_Z z)) = (0 <? z)%Z.
Proof.
  cbn [gt0]. destruct (0 <? z)%Z eqn:E.
  - apply Z.ltb_lt in E. apply Qltb_lt. now apply inject_Z_pos.
  - apply Z.ltb_ge in E. destruct (Qltb 0 (inject_Z z)) eqn:E'; [|reflexivity].
    apply Qltb_lt in E'. change 0 with (inject_Z 0) in E'.
    rewrite <- Zlt_Qlt in E'. lia.
Qed.

(** The quotient of a time of the format by a whole number c, rounded,
    has the same whole part as the exact quotient. *)
Lemma floor_of_rounded_quotient (x : Q) (c N j e k : Z) :
  0 <= x ->
  (0 <= j)%Z -> (2 ^ j <= c < 2 ^ (j + 1))%Z ->
  (0 <= N < 2 ^ 53)%Z ->
  inject_Z (c * (N + 1)) - x == inject_Z k * pow2 e ->
  inject_Z (c * N) <= x -> x < inject_Z (c * (N + 1)) ->
  (0 < x -> (ilog2 x - 52 <= e)%Z) ->
  nfloor (fdiv (Fin x) (Fin (inject_Z c))) = Fin (inject_Z N).
Proof.
  intros Hx Hj Hc HN Hk Hlo Hhi He.
  assert (Hcz : (0 < c)%Z) by (pose proof (Z.pow_pos_nonneg 2 j); lia).
  assert (Hcq : 0 < inject_Z c) by now apply inject_Z_pos.
  destruct (rnd_div_below x c (N + 1) j e k Hx Hj Hc) as (y & Ey & Hy0 & Hy1);
    try assumption; [lia|].
  assert (Hy : inject_Z N <= y).
  { destruct (isDouble_spec _ (int_isDouble N HN)) as (n' & En' & Hn').
    assert (Hq : inject_Z N <= x / inject_Z c).
    { apply Qle_shift_div_l; [exact Hcq|].
      rewrite inject_Z_mult, Qmult_comm in Hlo. exact Hlo. }
    pose proof (rnd_mono _ _ Hq) as Hm. rewrite En', Ey in Hm.
    apply Qle_bool_iff in Hm. lra. }
  unfold fdiv. cbn [ndiv].
  assert (E0 : Qeq_bool (inject_Z c) 0 = false).
  { destruct (Qeq_bool (inject_Z c) 0) eqn:E; [|reflexivity].
    apply Qeq_bool_iff in E. lra. }
  rewrite E0. cbn [round]. rewrite Ey. cbn [nfloor].
  now rewrite (Qfloor_unique y N Hy Hy1).
Qed.

(** X22: a time of the format below 2^53 seconds, with h hours, m minutes
    and s seconds in its whole part, is shown as h:mm:ss, or as m:ss when h
    is 0: minutes (under an hour mark) and seconds take two digits, and the
    fraction of a second is dropped.  The rounding of the two divisions
    never carries a quotient over to the next whole number. *)
Theorem formatTime_clock (t : Q) (h m s : Z) :
  isDouble t = true -> 0 <= t -> t < inject_Z (2 ^ 53) ->
  Qfloor t = (3600 * h + 60 * m + s)%Z ->
  (0 <= h)%Z -> (0 <= m < 60)%Z -> (0 <= s < 60)%Z ->
  formatTime (Fin t)
  = Some (if (0 <? h)%Z
          then showZ h ++ L ":" ++ pad2 (showZ m) ++ L ":" ++ pad2 (showZ s)
          else showZ m ++ L ":" ++ pad2 (showZ s)).
Proof.
  intros D Ht0 Ht1 Hfl Hh [Hm0 Hm1] [Hs0 Hs1].
  pose proof (Qfloor_le t) as Hf0. pose proof (Qlt_floor t) as Hf1.
  rewrite Hfl in Hf0, Hf1.
  rewrite !inject_Z_plus, !inject_Z_mult in Hf0.
  rewrite !inject_Z_plus, !inject_Z_mult in Hf1.
  change (inject_Z 3600) with 3600 in Hf0, Hf1.
  change (inject_Z 60) with 60 in Hf0, Hf1.
  change (inject_Z 1) with 1 in Hf1.
  assert (QH : 0 <= inject_Z h) by (change 0 with (inject_Z 0); now rewrite <- Zle_Qle).
  assert (QM0 : 0 <= inject_Z m) by (change 0 with (inject_Z 0); now rewrite <- Zle_Qle).
  assert (QM1 : inject_Z m <= 59)
    by (change 59 with (inject_Z 59); rewrite <- Zle_Qle; lia).
  assert (QS0 : 0 <= inject_Z s) by (change 0 with (inject_Z 0); now rewrite <- Zle_Qle).
  assert (QS1 : inject_Z s <= 59)
    by (change 59 with (inject_Z 59); rewrite <- Zle_Qle; lia).
  assert (Hbig : (3600 * h + 60 * m + s < 2 ^ 53)%Z).
  { rewrite <- Hfl. rewrite Zlt_Qlt. eapply Qle_lt_trans; [apply Qfloor_le|exact Ht1]. }
  (* the time is a whole multiple of a unit 2^e with e <= 0 *)
  assert (G : exists n e, t == inject_Z n * pow2 e /\ (e <= 0)%Z
                          /\ (0 < t -> (ilog2 t - 52 <= e)%Z)).
  { destruct (Qlt_le_dec 0 t) as [P|Z0].
    - destruct (double_multiple t D P) as (n & En). exists n, (ulpExp t).
      split; [exact En|]. unfold ulpExp.
      assert (ilog2 t < 53)%Z.
      { apply ilog2_lt; [exact P|]. rewrite pow2_Z by lia. exact Ht1. }
      split; [lia|]. intros _. lia.
    - exists 0%Z, 0%Z. split; [|split; [lia|]].
      + change (inject_Z 0 * pow2 0) with (0 * 1). lra.
      + intros P. lra. }
  destruct G as (n & e & En & He0 & He).
  assert (Grid : forall M : Z,
             inject_Z M - t == inject_Z (M * 2 ^ (- e) - n) * pow2 e).
  { intros M. rewrite (int_multiple M e He0) at 1.
    unfold Zminus. rewrite inject_Z_plus, inject_Z_opp.
    transitivity (inject_Z (M * 2 ^ (- e)) * pow2 e - inject_Z n * pow2 e); [|ring].
    apply Qplus_comp; [reflexivity|]. apply Qopp_comp. exact En. }
  (* hours *)
  assert (Ehours : nfloor (fdiv (Fin t) (Fin 3600)) = Fin (inject_Z h)).
  { apply (floor_of_rounded_quotient t 3600 h 11 e (3600 * (h + 1) * 2 ^ (- e) - n));
      try assumption; try lia.
    - apply Grid.
    - rewrite inject_Z_mult. change (inject_Z 3600) with 3600. lra.
    - rewrite inject_Z_mult, inject_Z_plus.
      change (inject_Z 3600) with 3600. change (inject_Z 1) with 1. lra. }
  assert (Eq3600 : Qtrunc (t / 3600) = h).
  { rewrite Qtrunc_floor by (apply Qle_shift_div_l; lra).
    apply Qfloor_unique.
    - apply Qle_shift_div_l; lra.
    - rewrite inject_Z_plus. change (inject_Z 1) with 1.
      apply Qlt_shift_div_r; lra. }
  assert (Eq60 : Qtrunc (t / 60) = (60 * h + m)%Z).
  { rewrite Qtrunc_floor by (apply Qle_shift_div_l; lra).
    apply Qfloor_unique.
    - rewrite inject_Z_plus, inject_Z_mult. change (inject_Z 60) with 60.
      apply Qle_shift_div_l; lra.
    - rewrite !inject_Z_plus, inject_Z_mult.
      change (inject_Z 60) with 60. change (inject_Z 1) with 1.
      apply Qlt_shift_div_r; lra. }
  (* minutes *)
  set (r := t - 3600 * inject_Z h).
  assert (Eminutes : nfloor (fdiv (Fin r) (Fin 60)) = Fin (inject_Z m)).
  { apply (floor_of_rounded_quotient r 60 m 5 e
             ((60 * (m + 1) + 3600 * h) * 2 ^ (- e) - n));
      try assumption; try lia.
    - unfold r. lra.
    - rewrite <- Grid. unfold r.
      rewrite inject_Z_plus, !inject_Z_mult, inject_Z_plus.
      change (inject_Z 3600) with 3600. change (inject_Z 60) with 60. ring.
    - unfold r. rewrite inject_Z_mult. change (inject_Z 60) with 60. lra.
    - unfold r. rewrite inject_Z_mult, inject_Z_plus.
      change (inject_Z 60) with 60. change (inject_Z 1) with 1. lra.
    - intros P. assert (Pt : 0 < t) by (unfold r in P; lra).
      assert (ilog2 r <= ilog2 t)%Z by (apply ilog2_mono; [exact P|unfold r; lra]).
      specialize (He Pt). lia. }
  (* seconds *)
  assert (Eseconds : Qfloor (t - 60 * inject_Z (60 * h + m)) = s).
  { rewrite inject_Z_plus, inject_Z_mult. change (inject_Z 60) with 60.
    apply Qfloor_unique.
    - lra.
    - rewrite inject_Z_plus. change (inject_Z 1) with 1. lra. }
  unfold formatTime. cbn [isFinite negb orb lt0].
  assert (En0 : Qltb t 0 = false).
  { destruct (Qltb t 0) eqn:E; [|reflexivity]. apply Qltb_lt in E. lra. }
  rewrite En0. cbv zeta. rewrite Ehours.
  change (nrem (Fin t) (Fin 3600)) with (Fin (t - 3600 * inject_Z (Qtrunc (t / 3600)))).
  change (nrem (Fin t) (Fin 60)) with (Fin (t - 60 * inject_Z (Qtrunc (t / 60)))).
  rewrite Eq3600, Eq60. fold r. rewrite Eminutes. cbn [nfloor]. rewrite Eseconds.
  rewrite gt0_whole.
  rewrite (numberToString_whole m) by lia.
  rewrite (numberToString_whole s) by lia.
  destruct (0 <? h)%Z; [|reflexivity].
  rewrite (numberToString_whole h) by lia. reflexivity.
Qed.

End Clock.


Lemma formatTime_clock_witness :
  formatTime (Fin (7819 # 2)) = Some (L "1:05:09").
Proof.
  apply (formatTime_clock (7819 # 2) 1 5 9).
  - vm_compute. reflexivity.
  - vm_compute. discriminate.
  - vm_compute. reflexivity.
  - vm_compute. reflexivity.
  - lia.
  - lia.
  - lia.
Defined.

(** The clock at the edges: times that are not finite or negative, the
    numbers of the format next below a minute and next below an hour, and
    a time beyond 2^53 seconds, whose hours are a number that is not
    written with its own digits. *)
Example formatTime_edges :
  formatTime NaN = Some (L "0:00")
  /\ formatTime (Inf false) = Some (L "0:00")
  /\ formatTime (Fin (- (1 # 2))) = Some (L "0:00")
  /\ formatTime (Fin 0) = Some (L "0:00")
  /\ formatTime (Fin (60 - pow2 (-47))) = Some (L "0:59")
  /\ formatTime (Fin (3600 - pow2 (-41))) = Some (L "59:59")
  /\ formatTime (Fin 3600) = Some (L "1:00:00")
  /\ nfloor (fdiv (Fin (inject_Z (10 ^ 21))) (Fin 3600))
     = Fin (inject_Z 277777777777777792)
  /\ formatTime (Fin (inject_Z (10 ^ 21))) = None.
Proof. vm_compute. repeat split. Qed.

Lemma reconciled_seek_target_witness :
  Binary64.calculateNewTime true (Some bar)
    (getTimeStats (Some HlsType) None (Some dvrVideo)) 120 = None
  \/ exists t,
       Binary64.calculateNewTime true (Some bar)
         (getTimeStats (Some HlsType) None (Some dvrVideo)) 120 = Some t
       /\ t <> NaN /\ nle (Fin 0) t = true.
Proof.
  apply (reconciled_seek_target (Some HlsType) None (Some dvrVideo) true bar 120).
  - reflexivity.
  - intros s E. injection E as <-. reflexivity.
  - intros d E. injection E as <-. reflexivity.
Defined.

(** The target can be +Infinity: for an enormous native seek range, the
    window added to its start lies beyond the largest number of the
    format. *)
Example reconciled_target_can_be_infinite :
  let stats := getTimeStats (Some HlsType) None (Some enormousVideo) in
  isLive stats = false
  /\ (exists s d, startTime stats = Fin s /\ duration stats = Fin d
                  /\ isDouble s = true /\ isDouble d = true)
  /\ Binary64.calculateNewTime true (Some bar) stats 220 = Some (Inf false).
Proof.
  split; [reflexivity|]. split.
  - do 2 eexists. split; [reflexivity|]. split; [reflexivity|].
    split; vm_compute; reflexivity.
  - vm_compute. reflexivity.
Qed.



Lemma progress_percentage_witness :
  let st := mkTimeStats (Fin 150) (Fin 600) (Fin 0) false in
  Binary64.currentTimePercentage st <> NaN
  /\ nle (Fin 0) (Binary64.currentTimePercentage st) = true
  /\ (150 <= 600 ->
      exists p, Binary64.currentTimePercentage st = Fin p /\ 0 <= p <= 100)
  /\ (isLive st = true -> Binary64.currentTimePercentage st = Fin 100).
Proof.
  apply (progress_percentage (mkTimeStats (Fin 150) (Fin 600) (Fin 0) false) 150 600 0);
    reflexivity.
Defined.

(** The fill can be +Infinity when the position lies far beyond the
    window: the quotient is beyond the largest number of the format. *)
Example progress_percentage_can_be_infinite :
  Binary64.currentTimePercentage
    (mkTimeStats (Fin (pow2 1023)) (Fin (pow2 (-1000))) (Fin 0) false)
  = Inf false.
Proof. vm_compute. reflexivity. Qed.

(* ================================================================== *)
(** ** More on the player's engines *)
(* ================================================================== *)

Section Engines.

Variable props : Props.

Lemma retryDelays_app (t1 t2 : list effect) :
  retryDelays (t1 ++ t2) = retryDelays t1 ++ retryDelays t2.
Proof. unfold retryDelays. apply flat_map_app. Qed.

Lemma countOnError_app (t1 t2 : list effect) :
  countOnError (t1 ++ t2) = (countOnError t1 + countOnError t2)%nat.
Proof. unfold countOnError. now rewrite filter_app, length_app. Qed.

(** What one error event does to a live engine: nothing that counts, a
    retry, or the end of the engine. *)
Lemma onHlsError_cases (d : ErrorData) (r : Refs) (inst : HlsInstance) :
  hlsRef r = Some inst ->
  exists r' t,
    onHlsError props d r = (r', t, Done tt)
    /\ ((r' = r /\ retryDelays t = [] /\ countOnError t = O
         /\ filter isEngineDestroy t = [])
        \/ ((retryCount inst < 3)%nat
            /\ hlsRef r' = Some (mkHls (S (retryCount inst)))
            /\ isMountedRef r' = isMountedRef r
            /\ retryDelays t = [(1000 * Z.of_nat (S (retryCount inst)))%Z]
            /\ countOnError t = O)
        \/ (hlsRef r' = None /\ retryDelays t = [] /\ (countOnError t <= 1)%nat)).
Proof.
  intros Hh. destruct r as [h sh pt lt mt vd]. cbn in Hh. subst h.
  destruct d as [fatal ty]. destruct props as [u oe].
  unfold onHlsError, bind, get. cbn [hlsRef isMountedRef VideoPlayer.fatal type].
  destruct mt; cbn [negb]; [|do 2 eexists; split; [reflexivity|left; auto]].
  destruct fatal; [|do 2 eexists; split; [reflexivity|left; auto]].
  destruct ty.
  - destruct (retryCount inst <? maxRetries)%nat eqn:E.
    + apply Nat.ltb_lt in E. unfold maxRetries in E.
      destruct lt; cbn; do 2 eexists; (split; [reflexivity|]);
        right; left; repeat split; assumption.
    + destruct lt, oe, sh, vd; cbn; do 2 eexists; (split; [reflexivity|]);
        right; right; cbn; repeat split; lia.
  - destruct lt; cbn; do 2 eexists; (split; [reflexivity|]); left; auto.
  - destruct lt, oe, sh, vd; cbn; do 2 eexists; (split; [reflexivity|]);
      right; right; cbn; repeat split; lia.
Qed.

Lemma deliver_cons (d : ErrorData) (ds : list ErrorData) (r r' : Refs) (t : list effect) :
  onHlsError props d r = (r', t, Done tt) ->
  deliver props (d :: ds) r =
  (fst (fst (deliver props ds r')), t ++ snd (fst (deliver props ds r')),
   snd (deliver props ds r')).
Proof.
  intros E. cbn [deliver]. unfold bind at 1. rewrite E.
  now destruct (deliver props ds r') as [[r2 t2] o2].
Qed.

Lemma deliver_dead (errors : list ErrorData) (r : Refs) :
  hlsRef r = None -> deliver props errors r = (r, [], Done tt).
Proof.
  intros H. induction errors as [|d ds IH]; [reflexivity|].
  cbn [deliver]. unfold bind at 1. unfold onHlsError, bind, get.
  rewrite H. cbn. rewrite IH. reflexivity.
Qed.

(** X23: whatever errors the segment engine reports, of any class, fatal or
    not, in any order: starting from a counter [c <= 3], at most [3 - c]
    retries are scheduled, none later than 3000 ms, and [onError] is called
    at most once. *)
Theorem errors_are_bounded (errors : list ErrorData) (r : Refs) (inst : HlsInstance) :
  hlsRef r = Some inst ->
  (retryCount inst <= 3)%nat ->
  let t := trace (deliver props errors) r in
  (length (retryDelays t) <= 3 - retryCount inst)%nat
  /\ Forall (fun ms => (1000 <= ms <= 3000)%Z) (retryDelays t)
  /\ (countOnError t <= 1)%nat.
Proof.
  cbv zeta. revert r inst; induction errors as [|d ds IH]; intros r inst Hh Hc.
  - cbn. repeat split; try lia. constructor.
  - destruct (onHlsError_cases d r inst Hh) as (r' & t & E & Hcase).
    unfold trace. rewrite (deliver_cons d ds r r' t E). cbn [fst snd].
    rewrite retryDelays_app, countOnError_app, length_app.
    destruct Hcase as [(-> & Hr & Ho & _) | [(Hlt & Hh' & _ & Hr & Ho) | (Hh' & Hr & Ho)]].
    + specialize (IH r inst Hh Hc). unfold trace in IH.
      rewrite Hr, Ho. cbn [app length]. exact IH.
    + specialize (IH r' (mkHls (S (retryCount inst))) Hh').
      cbn [retryCount] in IH. specialize (IH ltac:(lia)).
      unfold trace in IH.
      destruct IH as (I1 & I2 & I3). rewrite Hr, Ho. cbn [app length].
      split; [lia|]. split; [|lia]. constructor; [lia|exact I2].
    + rewrite (deliver_dead ds r' Hh').
      rewrite Hr. cbn. repeat split; try lia. constructor.
Qed.

(** X24: decode errors and non-fatal errors are handled in place: a run of
    them leaves the refs as they are, schedules no retry, destroys no engine
    and never calls [onError]. *)
Theorem media_errors_recover_in_place (errors : list ErrorData) (r : Refs) :
  Forall (fun d => fatal d = false \/ type d = MEDIA_ERROR) errors ->
  refs (deliver props errors) r = r
  /\ retryDelays (trace (deliver props errors) r) = []
  /\ countOnError (trace (deliver props errors) r) = O
  /\ filter isEngineDestroy (trace (deliver props errors) r) = [].
Proof.
  induction 1 as [|d ds Hd Hds IH]; [repeat split|].
  assert (E : exists t, onHlsError props d r = (r, t, Done tt)
                        /\ retryDelays t = [] /\ countOnError t = O
                        /\ filter isEngineDestroy t = []).
  { destruct r as [h sh pt lt mt vd]. destruct d as [ft ty]. cbn in Hd.
    unfold onHlsError, bind, get. cbn [hlsRef isMountedRef fatal type].
    destruct h as [inst|]; [|eexists; split; [reflexivity|auto]].
    destruct mt; cbn [negb]; [|eexists; split; [reflexivity|auto]].
    destruct ft; [|eexists; split; [reflexivity|auto]].
    destruct Hd as [Hd|Hd]; [discriminate|]. subst ty.
    destruct lt; cbn; eexists; (split; [reflexivity|auto]). }
  destruct E as (t & E & Hr & Ho & He).
  unfold refs, trace in *. rewrite (deliver_cons d ds r r t E). cbn [fst snd].
  destruct IH as (I1 & I2 & I3 & I4).
  rewrite retryDelays_app, countOnError_app, filter_app, Hr, Ho, He, I2, I3, I4.
  repeat split. exact I1.
Qed.

(** X25: after the component is unmounted, late errors of the segment
    engine, the load timer and the error event of the video element do
    nothing: no state update, no [onError], no teardown. *)
Theorem silent_after_unmount (errors : list ErrorData) (r : Refs) :
  isMountedRef r = false ->
  deliver props errors r = (r, [], Done tt)
  /\ onLoadingTimedOut props r = (r, [], Done tt)
  /\ onNativeError props r = (r, [], Done tt).
Proof.
  intros Hm. split; [|split].
  - induction errors as [|d ds IH]; [reflexivity|].
    cbn [deliver]. unfold bind at 1. unfold onHlsError, bind, get. rewrite Hm.
    destruct (hlsRef r); cbn; rewrite IH; reflexivity.
  - unfold onLoadingTimedOut, bind, get. rewrite Hm. reflexivity.
  - unfold onNativeError, bind, get. rewrite Hm. reflexivity.
Qed.

(** X26: however the engines stood before, after [initializePlayer] has
    run for a stream address at most one engine is referenced, every engine
    referenced before has been destroyed, and the load timer is armed or
    has been cleared by the code that armed it. *)
Theorem one_engine_after_initialisation (pf : Platform) (r : Refs) :
  isEmpty (streamUrl props) = false ->
  videoRef r = true ->
  let r' := refs (initializePlayer props pf) r in
  let t := trace (initializePlayer props pf) r in
  (hlsRef r' = None \/ shakaPlayerRef r' = false)
  /\ (hlsRef r <> None -> In HlsDestroy t)
  /\ (shakaPlayerRef r = true -> In ShakaDestroy t)
  /\ In (SetTimeout LoadingTimedOut PLAYER_LOAD_TIMEOUT) t.
Proof.
  intros Hu Hv. cbv zeta.
  unfold refs, trace, initializePlayer, bind, get. rewrite Hu, Hv. cbn [orb negb].
  destruct (detectStreamType (streamUrl props)) as [[ty clean] drm].
  destruct r as [h sh pt lt mt vd]. cbn in Hv. subst vd.
  destruct pf as [ie hs cp ss sl]. destruct props as [u oe].
  destruct ty; unfold initHlsPlayer, initShakaPlayer, initNativePlayer;
    cbn [hlsImportError hlsIsSupported canPlayHls shakaIsSupported shakaLoadError];
    destruct h, sh, lt, oe; try destruct ie; try destruct hs; try destruct cp;
    try destruct ss; try destruct sl; cbn;
    (split; [tauto|split; [intros H; try tauto; congruence|split; [intros H; try tauto; discriminate|tauto]]]).
Qed.

(** X27: tearing down twice is the same as tearing down once: the second
    [destroyPlayer] destroys no engine and leaves the refs as the first left
    them. *)
Theorem destroyPlayer_twice (r : Refs) :
  let r1 := refs destroyPlayer r in
  refs destroyPlayer r1 = r1
  /\ filter isEngineDestroy (trace destroyPlayer r1) = []
  /\ hlsRef r1 = None /\ shakaPlayerRef r1 = false /\ playerTypeRef r1 = None.
Proof.
  destruct r as [h sh pt lt mt vd].
  destruct h, sh, lt, vd; repeat split.
Qed.

(** X28: the listener of the manifest engine's errors always tears the
    engines down; for a network-class code (6000-6999) it schedules a retry
    after 2000 ms and never calls [onError], for every other code it calls
    [onError] (once, if the prop is given) and schedules nothing. *)
Theorem shaka_error_either_retries_or_reports (errorCode : Z) (r : Refs) :
  let t := trace (onShakaError props errorCode) r in
  let r' := refs (onShakaError props errorCode) r in
  hlsRef r' = None /\ shakaPlayerRef r' = false
  /\ if ((6000 <=? errorCode) && (errorCode <? 7000))%Z
     then countOnError t = O /\ In (SetTimeout HandleRetry 2000) t
     else countOnError t = (if onError props then 1 else 0)%nat
          /\ ~ In (SetTimeout HandleRetry 2000) t.
Proof.
  cbv zeta. destruct r as [h sh pt lt mt vd]. destruct props as [u oe].
  unfold refs, trace, onShakaError.
  destruct ((6000 <=? errorCode) && (errorCode <? 7000))%Z.
  - destruct h, sh, lt, vd, oe; cbn; repeat split; tauto.
  - destruct h, sh, lt, vd, oe; cbn; repeat split;
      intros H; repeat destruct H as [H|H]; discriminate || contradiction.
Qed.

End Engines.

Lemma errors_are_bounded_witness :
  let t := trace (deliver liveProps
                    [mkErrorData true NETWORK_ERROR; mkErrorData false OTHER_ERROR;
                     mkErrorData true MEDIA_ERROR; mkErrorData true NETWORK_ERROR;
                     mkErrorData true NETWORK_ERROR; mkErrorData true NETWORK_ERROR;
                     mkErrorData true NETWORK_ERROR])
             (mkRefs (Some (mkHls 1)) false (Some HlsType) true true true) in
  (length (retryDelays t) <= 3 - 1)%nat
  /\ Forall (fun ms => (1000 <= ms <= 3000)%Z) (retryDelays t)
  /\ (countOnError t <= 1)%nat.
Proof.
  apply (errors_are_bounded liveProps _ _ (mkHls 1)); [reflexivity|cbn; lia].
Defined.

Lemma media_errors_recover_in_place_witness :
  let errors := [mkErrorData true MEDIA_ERROR; mkErrorData false NETWORK_ERROR;
                 mkErrorData true MEDIA_ERROR] in
  let r := mkRefs (Some (mkHls 2)) false (Some HlsType) true true true in
  refs (deliver liveProps errors) r = r
  /\ retryDelays (trace (deliver liveProps errors) r) = []
  /\ countOnError (trace (deliver liveProps errors) r) = O
  /\ filter isEngineDestroy (trace (deliver liveProps errors) r) = [].
Proof.
  apply (media_errors_recover_in_place liveProps).
  apply Forall_cons; [right; reflexivity|].
  apply Forall_cons; [left; reflexivity|].
  apply Forall_cons; [right; reflexivity|apply Forall_nil].
Defined.

Lemma silent_after_unmount_witness :
  let r := mkRefs (Some (mkHls 0)) false (Some HlsType) true false true in
  deliver liveProps [mkErrorData true NETWORK_ERROR; mkErrorData true OTHER_ERROR] r
  = (r, [], Done tt)
  /\ onLoadingTimedOut liveProps r = (r, [], Done tt)
  /\ onNativeError liveProps r = (r, [], Done tt).
Proof.
  apply (silent_after_unmount liveProps); reflexivity.
Defined.

Lemma one_engine_after_initialisation_witness :
  let r := mkRefs (Some (mkHls 2)) true (Some HlsType) true true true in
  let r' := refs (initializePlayer liveProps plainBrowser) r in
  let t := trace (initializePlayer liveProps plainBrowser) r in
  (hlsRef r' = None \/ shakaPlayerRef r' = false)
  /\ (hlsRef r <> None -> In HlsDestroy t)
  /\ (shakaPlayerRef r = true -> In ShakaDestroy t)
  /\ In (SetTimeout LoadingTimedOut PLAYER_LOAD_TIMEOUT) t.
Proof.
  apply (one_engine_after_initialisation liveProps plainBrowser); reflexivity.
Defined.

(* ================================================================== *)
(** ** More on the failover cursor *)
(* ================================================================== *)

Section RoundRobin.

Variable Link : Type.
Variable links : list Link.

Lemma afterErrors_one (i : Z) :
  (0 <= i < Z.of_nat (length links))%Z ->
  afterErrors 1 (mkState (Some links) i true)
  = mkState (Some links) ((i + 1) mod Z.of_nat (length links))%Z true.
Proof.
  intros Hi. unfold afterErrors, handleVideoError. cbn.
  destruct (i <? Z.of_nat (length links) - 1)%Z eqn:E; cbn; f_equal.
  - apply Z.ltb_lt in E. rewrite Z.mod_small; lia.
  - apply Z.ltb_ge in E. replace (i + 1)%Z with (Z.of_nat (length links)) by lia.
    rewrite Z.mod_same; lia.
Qed.

(** X29: with auto-retry on and a cursor inside the list of links, as long
    as every render receives exactly one report, the reports arrive at the
    cursors [i], [i+1], ... taken modulo the number of links: every link is
    tried in turn, none is skipped, and the cursor never leaves the
    list. *)
Theorem failover_is_round_robin (i : Z) (k : nat) :
  (0 <= i < Z.of_nat (length links))%Z ->
  activeIndices (repeat 1%nat k) (mkState (Some links) i true)
  = map (fun j => ((i + Z.of_nat j) mod Z.of_nat (length links))%Z) (seq 0 k)
  /\ Forall (fun c => (0 <= c < Z.of_nat (length links))%Z)
       (activeIndices (repeat 1%nat k) (mkState (Some links) i true)).
Proof.
  intros Hi.
  assert (E : activeIndices (repeat 1%nat k) (mkState (Some links) i true)
              = map (fun j => ((i + Z.of_nat j) mod Z.of_nat (length links))%Z) (seq 0 k)).
  { revert i Hi. induction k as [|k IH]; intros i Hi; [reflexivity|].
    cbn [repeat activeIndices currentLinkIndex]. rewrite (afterErrors_one i Hi).
    rewrite IH by (apply Z.mod_pos_bound; lia).
    cbn [seq map]. change (Z.of_nat 0) with 0%Z.
    rewrite Z.add_0_r, (Z.mod_small i) by lia. f_equal.
    rewrite <- seq_shift, map_map. apply map_ext. intros j.
    rewrite Zplus_mod_idemp_l. f_equal. lia. }
  split; [exact E|]. rewrite E. apply Forall_forall. intros c Hc.
  apply in_map_iff in Hc. destruct Hc as (j & <- & _).
  apply Z.mod_pos_bound. lia.
Qed.

End RoundRobin.

Lemma failover_is_round_robin_witness :
  activeIndices (repeat 1%nat 5) (mkState (Some [1; 2; 3]%nat) 1%Z true)
  = map (fun j => ((1 + Z.of_nat j) mod 3)%Z) (seq 0 5)
  /\ Forall (fun c => (0 <= c < 3)%Z)
       (activeIndices (repeat 1%nat 5) (mkState (Some [1; 2; 3]%nat) 1%Z true)).
Proof.
  apply (failover_is_round_robin nat [1; 2; 3]%nat 1 5). cbn; lia.
Defined.

(* ================================================================== *)
(** ** The proxied address of a stream leads back to the stream *)
(* ================================================================== *)

Section StreamRoundTrip.

Lemma lowered_keeps_proxy_marker (u : str) :
  isAscii u ->
  includes u (L "/api/m3u8-proxy?url=") = true ->
  includes (toLowerCase u) (L "/api/m3u8-proxy") = true.
Proof.
  intros Ha H. apply includes_spec in H as (a & b & ->).
  apply Forall_app in Ha as [Ha _].
  rewrite toLowerCase_app_ascii by exact Ha.
  change (L "/api/m3u8-proxy?url=" ++ b)
    with (L "/api/m3u8-proxy" ++ (L "?url=" ++ b)).
  rewrite toLowerCase_app_ascii by (repeat constructor).
  apply includes_spec.
  exists (map lowerAscii a), (toLowerCase (L "?url=" ++ b)). reflexivity.
Qed.

(** X30: for every ASCII address without a percent sign that the library
    judges to need the proxy, [getProxiedUrl] builds the proxied address and
    [getOriginalUrl] gives the address back from it. *)
Theorem proxied_stream_round_trip (u : str) :
  isAscii u ->
  noPercent u ->
  needsProxying u = true ->
  getProxiedUrl u = PROXY_URL ++ L "?url=" ++ encodeURIComponent u
  /\ getOriginalUrl (getProxiedUrl u) = Some u.
Proof.
  intros Ha Hp Hn.
  assert (He : isEmpty u = false).
  { destruct u; [discriminate Hn|reflexivity]. }
  assert (Hi : includes u (L "/api/m3u8-proxy?url=") = false).
  { destruct (includes u (L "/api/m3u8-proxy?url=")) eqn:E; [|reflexivity].
    apply (lowered_keeps_proxy_marker u Ha) in E.
    unfold needsProxying in Hn. rewrite He, E in Hn. discriminate Hn. }
  split.
  - unfold getProxiedUrl. rewrite He, Hi, Hn. reflexivity.
  - now apply round_trip_without_escapes.
Qed.

End StreamRoundTrip.

Lemma proxied_stream_round_trip_witness :
  getProxiedUrl target0 = PROXY_URL ++ L "?url=" ++ encodeURIComponent target0
  /\ getOriginalUrl (getProxiedUrl target0) = Some target0.
Proof.
  apply (proxied_stream_round_trip target0).
  - repeat constructor.
  - repeat (constructor; [discriminate|]). constructor.
  - reflexivity.
Defined.
